(** * A shallow embedding of the WAL orchestrator (wal.go)

    The development follows the layout of the Go package:

    - machine integers ([uint32], [int64]) are [Z] with the wrap-around
      written out ([wrap32], [wrap64]);
    - the [WAL] struct is a record, the map of older segments a [gmap];
    - the methods of [*WAL] are computations in a small state-and-error
      monad over [machine] (the WAL object together with the outside
      world: directory listing, segment files, outcome of the system
      calls, and the trace of the calls made so far);
    - the two locks are not modelled: every method runs atomically.

    The segment layer that wal.go calls (segment.go) is modelled from
    the specification, and every such definition says so in its
    documentation. *)

From Stdlib Require Import ZArith Lia Bool List Ascii String.
From Stdlib Require Import Strings.Byte.
From stdpp Require Import base option list gmap sorting.

Open Scope Z_scope.

(** ** Machine integers *)

Module GoInt.

Definition max_uint32 : Z := 2 ^ 32 - 1.
Definition max_int64 : Z := 2 ^ 63 - 1.
Definition min_int64 : Z := - 2 ^ 63.

(** Conversion to (and arithmetic in) [uint32]. *)
Definition wrap32 (z : Z) : Z := z mod 2 ^ 32.

(** Conversion to (and arithmetic in) [int64], two's complement. *)
Definition wrap64 (z : Z) : Z := (z + 2 ^ 63) mod 2 ^ 64 - 2 ^ 63.

End GoInt.
Import GoInt.

(** Go's [len] of a slice, as an [int64]. *)
Definition len64 {A} (l : list A) : Z := Z.of_nat (length l).

(** ** Constants and plain data *)

(** Modelled from the spec: the constants [chunkHeaderSize] and
    [blockSize] are declared in segment.go; the specification gives a
    header of 7 bytes and blocks of 32 KiB. *)
Definition chunkHeaderSize : Z := 7.
Definition blockSize : Z := 32768.

(** wal.go, line 17. *)
Definition initialSegmentFileID : Z := 1.

(** [SegSerialID] is [uint32] in the source (line 105 passes a
    [uint32] where line 133 passes [activeSegment.id + 1]). *)
Abbreviation SegSerialID := Z (only parsing).

(** Modelled from the spec: the [Options] struct is declared outside
    wal.go.  The types are the ones wal.go forces: [SegmentSize] is
    compared with [int64] values, [BlockCache] with a [uint32] and
    [BytesPerSync] with [bytesWrite]. *)
Record Options := mkOptions {
  DirPath : string;
  SegmentSize : Z;            (* int64 *)
  BlockCache : Z;             (* uint32 *)
  DiskFileExtension : string;
  DiskFlushSync : bool;
  BytesPerSync : Z            (* uint32 *)
}.

(** Modelled from the spec: [ChunkPosition] (section 3). *)
Record ChunkPosition := mkPos {
  SegmentId : SegSerialID;
  BlockNumber : Z;            (* uint32 *)
  ChunkOffset : Z;            (* int64 *)
  ChunkSize : Z               (* uint32 *)
}.

(** Modelled from the spec: the in-memory [segment] struct (section 3). *)
Record segment := mkSegment {
  id : SegSerialID;
  currentBlockNumber : Z;     (* uint32 *)
  currentBlockSize : Z;       (* uint32 *)
  closed : bool
}.

(** The errors that cross the API, [io.EOF] included. *)
Inductive error :=
| EOF
| ErrClosed
| ErrCorruptChunk
| ErrIO
| ErrDataSizeTooLarge
| ErrPendingSizeTooLarge
| ErrInvalidExtension
| ErrBlockCacheTooLarge
| ErrNilStartPosition.

(** A Go call returns a value, returns an error, or panics at run time
    (the only panic wal.go can raise itself is a slice index out of
    range). *)
Inductive result (A : Type) :=
| Ok (a : A)
| Err (e : error)
| PanicIndexOutOfRange.
Arguments Ok {A} a.
Arguments Err {A} e.
Arguments PanicIndexOutOfRange {A}.

(** ** The world outside the WAL object *)

(** Modelled from the spec: one record of a segment file (a chain of
    chunks, section 3), as the segment reader sees it: the
    payload, its on-disk footprint, the cursor at which the next
    record starts, and whether its checksum still matches. *)
Record chunkRec := mkRec {
  rec_data : list byte;
  rec_size : Z;
  rec_next_block : Z;
  rec_next_offset : Z;
  rec_intact : bool
}.

(** An entry returned by [os.ReadDir]. *)
Record DirEntry := mkEntry {
  Name : string;
  IsDir : bool
}.

(** The system calls that wal.go issues through the segment layer. *)
Inductive event :=
| EvMkdirAll
| EvReadDir
| EvOpenSegment (sid : SegSerialID)
| EvSync (sid : SegSerialID)
| EvAppend (sid : SegSerialID) (ps : list ChunkPosition).

(** [seg_files] holds the segment files by id (file name
    [{id:09d}{ext}]); [io_faults] scripts the outcome of the coming
    system calls ([true]: the call fails; an exhausted script: every
    call succeeds); [io_trace] records the calls that succeeded. *)
Record world := mkWorld {
  dir_entries : list DirEntry;
  seg_files : gmap Z (list chunkRec);
  io_faults : list bool;
  io_trace : list event
}.

Definition take_fault (w : world) : bool * world :=
  match io_faults w with
  | [] => (false, w)
  | b :: fs => (b, mkWorld (dir_entries w) (seg_files w) fs (io_trace w))
  end.

Definition log_event (e : event) (w : world) : world :=
  mkWorld (dir_entries w) (seg_files w) (io_faults w) (io_trace w ++ [e]).

Definition put_file (sid : Z) (recs : list chunkRec) (w : world) : world :=
  mkWorld (dir_entries w) (<[sid := recs]> (seg_files w)) (io_faults w) (io_trace w).

Definition file_of (sid : Z) (w : world) : list chunkRec :=
  default [] (seg_files w !! sid).

(** ** The monad of the methods

    A computation reads and updates a state [S] (the world for the
    segment layer, the WAL object and the world for the methods of
    [*WAL]) and returns, fails or panics. *)

Definition ST (S A : Type) : Type := S -> result A * S.

Module MonadST.

Definition ret {S A} (a : A) : ST S A := fun s => (Ok a, s).

(** An error or a panic ends the computation; what was mutated
    before stays mutated. *)
Definition bind {S A B} (c : ST S A) (k : A -> ST S B) : ST S B :=
  fun s =>
    match c s with
    | (Ok a, s1) => k a s1
    | (Err e, s1) => (Err e, s1)
    | (PanicIndexOutOfRange, s1) => (PanicIndexOutOfRange, s1)
    end.

Definition fail {S A} (e : error) : ST S A := fun s => (Err e, s).

Definition when {S} (b : bool) (c : ST S unit) : ST S unit :=
  if b then c else ret tt.

(** Go's [defer]: [cleanup] runs when [body] is left, whatever the
    way. *)
Definition defer {S A} (cleanup : ST S unit) (body : ST S A) : ST S A :=
  fun s => let '(r, s1) := body s in (r, snd (cleanup s1)).

End MonadST.
Import MonadST.

Notation "'let*' x ':=' c 'in' k" := (bind c (fun x => k))
  (at level 10, x name, c at level 100, k at level 200).

(** A fallible system call without a result. *)
Definition syscall (e : event) : ST world unit :=
  fun w =>
    let '(failed, w1) := take_fault w in
    if failed then (Err ErrIO, w1) else (Ok tt, log_event e w1).

(** ** The segment layer *)

Module Segment.

(** Modelled from the spec: the length of a segment file, the sum of
    the footprints of its records. *)
Definition file_length (recs : list chunkRec) : Z :=
  fold_right (fun r acc => rec_size r + acc) 0 recs.

(** Modelled from the spec: [segment.Size] (section 4.3),
    [current_block_number * B + current_block_size]. *)
Definition Size (seg : segment) : Z :=
  wrap64 (currentBlockNumber seg * blockSize + currentBlockSize seg).

(** Modelled from the spec: [openSegmentFile] (section 4.3) opens or
    creates the file of segment [sid] and derives the block cursor
    from the file length. *)
Definition openSegmentFile (sid : SegSerialID) : ST world segment :=
  fun w =>
  let '(failed, w1) := take_fault w in
  if failed then (Err ErrIO, w1)
  else
    let recs := file_of sid w1 in
    let len := file_length recs in
    (Ok (mkSegment sid (wrap32 (len / blockSize)) (len mod blockSize) false),
     log_event (EvOpenSegment sid) (put_file sid recs w1)).

(** Modelled from the spec: [segment.Sync]; a closed segment rejects
    every operation. *)
Definition Sync (seg : segment) : ST world unit :=
  if closed seg then fail ErrClosed else syscall (EvSync (id seg)).

(** Modelled from the spec: the framing of section 4.3/4.1.  From a
    block holding [bs] bytes, a payload of [n] bytes is laid out as:
    zero padding when fewer than a header's worth of bytes remain;
    one FULL chunk when it fits; otherwise FIRST, the MIDDLE chunks
    and LAST.  The result is (blocks advanced before the first
    header, offset of the first header, blocks advanced in all, new
    block size, bytes appended). *)
Definition layout (bs n : Z) : Z * Z * Z * Z * Z :=
  let padded := blockSize - bs <? chunkHeaderSize in
  let pad := if padded then blockSize - bs else 0 in
  let adv0 := if padded then 1 else 0 in
  let bs0 := if padded then 0 else bs in
  if n + chunkHeaderSize <=? blockSize - bs0 then
    (adv0, bs0, adv0, bs0 + chunkHeaderSize + n, pad + chunkHeaderSize + n)
  else
    let room := blockSize - chunkHeaderSize in
    let rest := n - (blockSize - bs0 - chunkHeaderSize) in
    let k := (rest + room - 1) / room in
    (adv0, bs0, adv0 + k,
     rest - (k - 1) * room + chunkHeaderSize,
     pad + (blockSize - bs0) + rest + k * chunkHeaderSize).

(** Modelled from the spec: the cursor at which the record after one
    ending at block [bn], size [bs] starts; the segment reader skips
    trailer padding (section 2). *)
Definition next_cursor (bn bs : Z) : Z * Z :=
  if blockSize - bs <? chunkHeaderSize then (wrap32 (bn + 1), 0) else (bn, bs).

(** Modelled from the spec: the in-memory effect of appending one
    payload (section 4.3, steps 1-5): the position handed back (the
    offset of the first chunk header, with the whole footprint as
    [ChunkSize]), the record that lands in the file, the segment
    afterwards. *)
Definition place (seg : segment) (data : list byte)
  : ChunkPosition * chunkRec * segment :=
  let '(adv0, off, adv, bs', size) := layout (currentBlockSize seg) (len64 data) in
  let bn' := wrap32 (currentBlockNumber seg + adv) in
  let pos := mkPos (id seg) (wrap32 (currentBlockNumber seg + adv0)) off (wrap32 size) in
  let '(nb, no) := next_cursor bn' bs' in
  (pos, mkRec data size nb no true, mkSegment (id seg) bn' bs' (closed seg)).

(** Modelled from the spec: the same for a batch, payload after
    payload. *)
Fixpoint place_all (seg : segment) (datas : list (list byte))
  : list ChunkPosition * list chunkRec * segment :=
  match datas with
  | [] => ([], [], seg)
  | d :: ds =>
      let '(pos, rec, seg1) := place seg d in
      let '(ps, recs, seg2) := place_all seg1 ds in
      (pos :: ps, rec :: recs, seg2)
  end.

(** Modelled from the spec: [segment.Write] (section 4.3).  The
    append is one system call; when it fails the in-memory offsets
    are unchanged. *)
Definition Write (seg : segment) (data : list byte)
  : ST world (ChunkPosition * segment) :=
  fun w =>
  if closed seg then (Err ErrClosed, w)
  else
    let '(failed, w1) := take_fault w in
    if failed then (Err ErrIO, w1)
    else
      let '(pos, rec, seg') := place seg data in
      (Ok (pos, seg'),
       log_event (EvAppend (id seg) [pos])
         (put_file (id seg) (file_of (id seg) w1 ++ [rec]) w1)).

(** Modelled from the spec: [segment.writeAll] (section 4.3): the
    same framing, every payload packed into one buffer that is
    emitted in one write; one position per payload, in order; no
    sync. *)
Definition writeAll (seg : segment) (datas : list (list byte))
  : ST world (list ChunkPosition * segment) :=
  fun w =>
  if closed seg then (Err ErrClosed, w)
  else
    let '(failed, w1) := take_fault w in
    if failed then (Err ErrIO, w1)
    else
      let '(ps, recs, seg') := place_all seg datas in
      (Ok (ps, seg'),
       log_event (EvAppend (id seg) ps)
         (put_file (id seg) (file_of (id seg) w1 ++ recs) w1)).

End Segment.

(** ** The WAL object and the monad its methods run in *)

(** wal.go, lines 25-36.  The two mutexes are left out; [blockCache]
    keeps the capacity of the LRU cache when there is one. *)
Record WAL := mkWAL {
  activeSegment : segment;
  olderSegments : gmap Z segment;
  options : Options;
  blockCache : option Z;
  bytesWrite : Z;             (* uint32 *)
  renameIds : list Z;
  pendingWrites : list (list byte);
  pendingSize : Z             (* int64 *)
}.

Record machine := mkMachine {
  wal : WAL;
  env : world
}.

Definition M (A : Type) : Type := ST machine A.

Definition get_wal : M WAL := fun m => (Ok (wal m), m).

Definition update_wal (f : WAL -> WAL) : M unit :=
  fun m => (Ok tt, mkMachine (f (wal m)) (env m)).

(** A call into the segment layer. *)
Definition io {A} (c : ST world A) : M A :=
  fun m => let '(r, w1) := c (env m) in (r, mkMachine (wal m) w1).

(** Field updates of the WAL struct. *)
Definition set_activeSegment (s : segment) (w : WAL) : WAL :=
  mkWAL s (olderSegments w) (options w) (blockCache w) (bytesWrite w)
        (renameIds w) (pendingWrites w) (pendingSize w).
Definition set_olderSegments (o : gmap Z segment) (w : WAL) : WAL :=
  mkWAL (activeSegment w) o (options w) (blockCache w) (bytesWrite w)
        (renameIds w) (pendingWrites w) (pendingSize w).
Definition set_bytesWrite (b : Z) (w : WAL) : WAL :=
  mkWAL (activeSegment w) (olderSegments w) (options w) (blockCache w) b
        (renameIds w) (pendingWrites w) (pendingSize w).
Definition set_pending (ps : list (list byte)) (sz : Z) (w : WAL) : WAL :=
  mkWAL (activeSegment w) (olderSegments w) (options w) (blockCache w)
        (bytesWrite w) (renameIds w) ps sz.

(** ** The write path (wal.go, lines 124-140 and 261-363, 453-459) *)

(** wal.go, lines 457-459.  The division is Go's, truncating. *)
Definition maxDataWriteSize (size : Z) : Z :=
  wrap64 (chunkHeaderSize + size + (size ÷ blockSize + 1) * chunkHeaderSize).

(** wal.go, lines 453-455. *)
Definition isFull (w : WAL) (delta : Z) : bool :=
  SegmentSize (options w)
  <? wrap64 (Segment.Size (activeSegment w) + maxDataWriteSize delta).

(** wal.go, lines 278-291. *)
Definition rotateActiveSegment : M unit :=
  let* w := get_wal in
  let* _ := io (Segment.Sync (activeSegment w)) in
  let* _ := update_wal (set_bytesWrite 0) in
  let* seg := io (Segment.openSegmentFile (wrap32 (id (activeSegment w) + 1))) in
  update_wal (fun w =>
    set_activeSegment seg
      (set_olderSegments
         (<[id (activeSegment w) := activeSegment w]> (olderSegments w)) w)).

(** wal.go, lines 124-140. *)
Definition OpenNewActiveSegment : M unit :=
  let* w := get_wal in
  let* _ := io (Segment.Sync (activeSegment w)) in
  let* seg := io (Segment.openSegmentFile (wrap32 (id (activeSegment w) + 1))) in
  update_wal (fun w =>
    set_activeSegment seg
      (set_olderSegments
         (<[id (activeSegment w) := activeSegment w]> (olderSegments w)) w)).

(** wal.go, lines 261-267. *)
Definition ClearPendingWrites : M unit :=
  update_wal (set_pending [] 0).

(** wal.go, lines 269-276. *)
Definition PendingWrites (data : list byte) : M unit :=
  update_wal (fun w =>
    let size := maxDataWriteSize (len64 data) in
    set_pending (pendingWrites w ++ [data]) (wrap64 (pendingSize w + size)) w).

(** wal.go, lines 293-323. *)
Definition WriteAll : M (list ChunkPosition) :=
  let* w := get_wal in
  if (length (pendingWrites w) =? 0)%nat then ret []
  else
    defer ClearPendingWrites
      (let* w := get_wal in
       if SegmentSize (options w) <? pendingSize w
       then fail ErrPendingSizeTooLarge
       else
         let* _ :=
           when (SegmentSize (options w)
                 <? wrap64 (Segment.Size (activeSegment w) + pendingSize w))
                rotateActiveSegment in
         let* w := get_wal in
         let* r := io (Segment.writeAll (activeSegment w) (pendingWrites w)) in
         let* _ := update_wal (set_activeSegment (snd r)) in
         ret (fst r)).

(** wal.go, lines 328-363. *)
Definition Write (data : list byte) : M ChunkPosition :=
  let* w := get_wal in
  if SegmentSize (options w) <? wrap64 (len64 data + chunkHeaderSize)
  then fail ErrDataSizeTooLarge
  else
    let* _ := when (isFull w (len64 data)) rotateActiveSegment in
    let* w := get_wal in
    let* r := io (Segment.Write (activeSegment w) data) in
    let position := fst r in
    let* _ := update_wal (set_activeSegment (snd r)) in
    let* _ := update_wal (fun w =>
      set_bytesWrite (wrap32 (bytesWrite w + ChunkSize position)) w) in
    let* w := get_wal in
    let needSync := DiskFlushSync (options w) in
    let needSync :=
      if negb needSync && (0 <? BytesPerSync (options w))
      then BytesPerSync (options w) <=? bytesWrite w
      else needSync in
    let* _ := when needSync
      (let* _ := io (Segment.Sync (activeSegment w)) in
       update_wal (set_bytesWrite 0)) in
    ret position.

(** ** Opening a directory (wal.go, lines 43-118) *)

(** [unicode/utf8], after the Go standard library: the first rune of
    a string of bytes and the number of bytes it takes.  Bytes that
    are not the UTF-8 encoding of a rune decode to [RuneError], one
    byte wide. *)
Module Utf8.

Definition RuneError : Z := 65533.          (* U+FFFD *)
Definition locb : Z := 128.                 (* 0b10000000 *)
Definition hicb : Z := 191.                 (* 0b10111111 *)

(** The table [first]: what the first byte of an encoding announces;
    for a leading byte, the width and the range in which the second
    byte must lie. *)
Inductive firstByte :=
| Ascii
| Invalid
| Lead (size : nat) (lo hi : Z).

Definition first (b : Z) : firstByte :=
  if b <? 128 then Ascii                    (* 0x00-0x7F *)
  else if b <? 194 then Invalid             (* 0x80-0xC1 *)
  else if b <? 224 then Lead 2 locb hicb    (* 0xC2-0xDF *)
  else if b =? 224 then Lead 3 160 hicb     (* 0xE0 *)
  else if b <? 237 then Lead 3 locb hicb    (* 0xE1-0xEC *)
  else if b =? 237 then Lead 3 locb 159     (* 0xED *)
  else if b <? 240 then Lead 3 locb hicb    (* 0xEE-0xEF *)
  else if b =? 240 then Lead 4 144 hicb     (* 0xF0 *)
  else if b <? 244 then Lead 4 locb hicb    (* 0xF1-0xF3 *)
  else if b =? 244 then Lead 4 locb 143     (* 0xF4 *)
  else Invalid.                             (* 0xF5-0xFF *)

Definition continuation (b : Z) : bool := (locb <=? b) && (b <=? hicb).

(** [utf8.DecodeRuneInString]. *)
Definition DecodeRuneInString (s : list Z) : Z * nat :=
  match s with
  | [] => (RuneError, O)
  | s0 :: tail =>
      match first s0 with
      | Ascii => (s0, 1%nat)
      | Invalid => (RuneError, 1%nat)
      | Lead size lo hi =>
          if (length s <? size)%nat then (RuneError, 1%nat)
          else
            match tail with
            | s1 :: tail1 =>
                if negb ((lo <=? s1) && (s1 <=? hi)) then (RuneError, 1%nat)
                else if (size <=? 2)%nat
                then (Z.lor (Z.shiftl (Z.land s0 31) 6) (Z.land s1 63), 2%nat)
                else
                  match tail1 with
                  | s2 :: tail2 =>
                      if negb (continuation s2) then (RuneError, 1%nat)
                      else if (size <=? 3)%nat
                      then (Z.lor (Z.lor (Z.shiftl (Z.land s0 15) 12)
                                         (Z.shiftl (Z.land s1 63) 6))
                                  (Z.land s2 63), 3%nat)
                      else
                        match tail2 with
                        | s3 :: _ =>
                            if negb (continuation s3) then (RuneError, 1%nat)
                            else
                              (Z.lor (Z.lor (Z.lor (Z.shiftl (Z.land s0 7) 18)
                                                   (Z.shiftl (Z.land s1 63) 12))
                                            (Z.shiftl (Z.land s2 63) 6))
                                     (Z.land s3 63), 4%nat)
                        | [] => (RuneError, 1%nat)
                        end
                  | [] => (RuneError, 1%nat)
                  end
            | [] => (RuneError, 1%nat)
            end
      end
  end.

End Utf8.

(** [fmt.Sscanf] with the format ["%d" + ext], after the Go standard
    library.  The input is read rune by rune.  White space before the
    number is skipped ([SkipSpace] of the scanner, which takes white
    space as Unicode defines it; a newline is an error), one sign is
    accepted, the token is the longest run of decimal digits, which
    [strconv.ParseInt] reads in base 10 and rejects outside [int64];
    the extension must follow literally, and whatever follows the
    extension is left unread.  A name is any string of bytes.  The
    extension is taken to be [plain]: ASCII without ['%'] and without
    white space, which a format would interpret; a rune of the input
    then equals a rune of the extension exactly when the bytes are
    equal. *)
Module Scan.

Definition code (c : ascii) : nat := nat_of_ascii c.

Definition bytes (s : string) : list Z :=
  List.map (fun c => Z.of_nat (code c)) (list_ascii_of_string s).

Fixpoint dropBytes (n : nat) (s : string) : string :=
  match n, s with
  | S n', String _ s' => dropBytes n' s'
  | _, _ => s
  end.

Definition isDigit (c : ascii) : bool :=
  ((48 <=? code c) && (code c <=? 57))%nat.

Definition isSign (c : ascii) : bool :=
  ((code c =? 43) || (code c =? 45))%nat.

(** The table [space] of the scanner, a copy of the ranges of
    [unicode.White_Space]. *)
Definition space : list (Z * Z) :=
  [(9, 13); (32, 32); (133, 133); (160, 160); (5760, 5760); (8192, 8202);
   (8232, 8233); (8239, 8239); (8287, 8287); (12288, 12288)].

Definition isSpace (r : Z) : bool :=
  if 65536 <=? r then false
  else existsb (fun range => (fst range <=? r) && (r <=? snd range)) space.

(** [SkipSpace] of the scanner as [Sscanf] sets it up (a newline is
    not white space): [None] is the error "unexpected newline".  Every
    turn of the loop reads a rune, so that [fuel] turns are enough for
    an input of [fuel] bytes. *)
Fixpoint skipSpaceLoop (fuel : nat) (s : string) : option string :=
  match fuel with
  | O => Some s
  | S fuel' =>
      match s with
      | EmptyString => Some s
      | String _ _ =>
          let '(r, size) := Utf8.DecodeRuneInString (bytes s) in
          let rest := dropBytes size s in
          if (r =? 13) && (fst (Utf8.DecodeRuneInString (bytes rest)) =? 10)
          then skipSpaceLoop fuel' rest
          else if r =? 10 then None
          else if isSpace r then skipSpaceLoop fuel' rest
          else Some s
      end
  end.

Definition skipSpace (s : string) : option string :=
  skipSpaceLoop (String.length s) s.

(** The longest run of digits, and what follows. *)
Fixpoint scanNumber (s : string) : list ascii * string :=
  match s with
  | EmptyString => ([], s)
  | String c s' =>
      if isDigit c
      then let '(tok, rest) := scanNumber s' in (c :: tok, rest)
      else ([], s)
  end.

Definition digitsValue (tok : list ascii) : Z :=
  fold_left (fun acc c => 10 * acc + (Z.of_nat (code c) - 48)) tok 0.

(** [strconv.ParseInt(tok, 10, 64)] on the sign and the digits cut by
    [scanNumber]; without a digit the scan has already failed. *)
Definition parseInt (negative : bool) (tok : list ascii) : option Z :=
  match tok with
  | [] => None
  | _ =>
      let v := if negative then - digitsValue tok else digitsValue tok in
      if (min_int64 <=? v) && (v <=? max_int64) then Some v else None
  end.

Definition Sscanf_d (name ext : string) : option Z :=
  match skipSpace name with
  | None => None
  | Some s =>
      let '(negative, s1) :=
        match s with
        | String c s' => if isSign c then ((code c =? 45)%nat, s') else (false, s)
        | EmptyString => (false, s)
        end in
      let '(tok, rest) := scanNumber s1 in
      match parseInt negative tok with
      | Some v => if String.prefix ext rest then Some v else None
      | None => None
      end
  end.

(** An extension the format takes literally, byte by byte. *)
Fixpoint plain (ext : string) : bool :=
  match ext with
  | EmptyString => true
  | String c s =>
      (code c <? 128)%nat && negb (code c =? 37)%nat
      && negb (isSpace (Z.of_nat (code c))) && plain s
  end.

End Scan.

(** [sort.Ints] and [sort.Slice]: a sort driven by a [less] function. *)
Module Sort.

Fixpoint insert {A} (less : A -> A -> bool) (x : A) (l : list A) : list A :=
  match l with
  | [] => [x]
  | y :: l' => if less y x then y :: insert less x l' else x :: l
  end.

Definition sortBy {A} (less : A -> A -> bool) (l : list A) : list A :=
  fold_right (insert less) [] l.

Definition Ints (l : list Z) : list Z := sortBy Z.ltb l.

End Sort.

(** [os.ReadDir]. *)
Definition readDir : ST world (list DirEntry) :=
  fun w =>
    let '(failed, w1) := take_fault w in
    if failed then (Err ErrIO, w1) else (Ok (dir_entries w1), log_event EvReadDir w1).

(** wal.go, lines 60-70: the capacity of the block cache, in blocks. *)
Definition blockCacheCapacity (opts : Options) : option Z :=
  if 0 <? BlockCache opts then
    let lruSize := BlockCache opts / blockSize in
    let lruSize :=
      if negb (BlockCache opts mod blockSize =? 0) then wrap32 (lruSize + 1)
      else lruSize in
    Some lruSize
  else None.

(** wal.go, lines 78-89. *)
Definition segmentIDs (ext : string) (entries : list DirEntry) : list Z :=
  omap (fun entry =>
          if IsDir entry then None else Scan.Sscanf_d (Name entry) ext)
       entries.

(** wal.go, lines 103-114: the loop over the sorted ids, entered with
    at least one id.  The last one opened becomes the active segment,
    the others go into the map under the id of the opened segment. *)
Fixpoint openSegments (segId : Z) (rest : list Z) (older : gmap Z segment)
  : ST world (segment * gmap Z segment) :=
  let* seg := Segment.openSegmentFile (wrap32 segId) in
  match rest with
  | [] => ret (seg, older)
  | next :: rest' => openSegments next rest' (<[id seg := seg]> older)
  end.

(** wal.go, lines 43-118.  [lru.New] only fails on a capacity that is
    not positive, which line 60 excludes.  The test of line 92 is made
    on the sorted list, which has the length of the unsorted one. *)
Definition Open (opts : Options) : ST world WAL :=
  if negb (String.prefix "." (DiskFileExtension opts))
  then fail ErrInvalidExtension
  else if wrap32 (SegmentSize opts) <? BlockCache opts
  then fail ErrBlockCacheTooLarge
  else
    let* _ := syscall EvMkdirAll in
    let cache := blockCacheCapacity opts in
    let* entries := readDir in
    match Sort.Ints (segmentIDs (DiskFileExtension opts) entries) with
    | [] =>
        let* seg := Segment.openSegmentFile initialSegmentFileID in
        ret (mkWAL seg ∅ opts cache 0 [] [] 0)
    | segId :: rest =>
        let* r := openSegments segId rest ∅ in
        ret (mkWAL (fst r) (snd r) opts cache 0 [] [] 0)
    end.

(** ** Readers (wal.go, lines 38-41 and 158-259) *)

(** Modelled from the spec: the segment reader of section 4.3, a
    cursor over one segment.  [srPending] is the part of the file that
    the cursor has not passed yet. *)
Record segmentReader := mkSegmentReader {
  srSegment : segment;
  blockNumber : Z;            (* uint32 *)
  chunkOffset : Z;            (* int64 *)
  srPending : list chunkRec
}.

Module SegmentReader.

(** Modelled from the spec: [segment.NewReader] (section 4.3), a
    cursor at block 0, offset 0. *)
Definition NewReader (seg : segment) (w : world) : segmentReader :=
  mkSegmentReader seg 0 0 (file_of (id seg) w).

(** Modelled from the spec: [segmentReader.Next] (section 4.3) reads
    the record under the cursor and moves the cursor past it; [EOF]
    past the last record, [CorruptChunk] on a record whose checksum
    does not match, and nothing is read from a closed segment. *)
Definition Next : ST segmentReader (list byte * ChunkPosition) :=
  fun sr =>
    if closed (srSegment sr) then (Err ErrClosed, sr)
    else
      match srPending sr with
      | [] => (Err EOF, sr)
      | rec :: rest =>
          if rec_intact rec then
            (Ok (rec_data rec,
                 mkPos (id (srSegment sr)) (blockNumber sr) (chunkOffset sr)
                       (wrap32 (rec_size rec))),
             mkSegmentReader (srSegment sr) (rec_next_block rec)
                             (rec_next_offset rec) rest)
          else (Err ErrCorruptChunk, sr)
      end.

End SegmentReader.

(** wal.go, lines 38-41.  [currentReader] is a Go [int]; it starts at
    0 and only ever grows by one. *)
Record Reader := mkReader {
  segmentReaders : list segmentReader;
  currentReader : Z
}.

(** Indexing a slice: [None] stands for the run-time panic. *)
Definition index {A} (l : list A) (i : Z) : option A :=
  if i <? 0 then None else l !! Z.to_nat i.

(** wal.go, lines 244-246. *)
Definition SkipCurrentSegment (r : Reader) : Reader :=
  mkReader (segmentReaders r) (currentReader r + 1).

(** wal.go, lines 248-250. *)
Definition CurrentSegmentId (r : Reader) : result Z :=
  match index (segmentReaders r) (currentReader r) with
  | Some reader => Ok (id (srSegment reader))
  | None => PanicIndexOutOfRange
  end.

(** wal.go, lines 252-259; [ChunkSize] is left at its zero value. *)
Definition CurrentChunkPosition (r : Reader) : result ChunkPosition :=
  match index (segmentReaders r) (currentReader r) with
  | Some reader =>
      Ok (mkPos (id (srSegment reader)) (blockNumber reader) (chunkOffset reader) 0)
  | None => PanicIndexOutOfRange
  end.

(** wal.go, lines 231-242.  The method calls itself after moving to
    the next segment reader, at most once per remaining reader: [n]
    bounds the depth of these calls. *)
Fixpoint Next_depth (n : nat) : ST Reader (list byte * ChunkPosition) :=
  fun r =>
    if len64 (segmentReaders r) <=? currentReader r then (Err EOF, r)
    else
      match index (segmentReaders r) (currentReader r) with
      | None => (PanicIndexOutOfRange, r)
      | Some sr =>
          match SegmentReader.Next sr with
          | (Err EOF, _) =>
              match n with
              | O => (Err EOF, SkipCurrentSegment r)
              | S n' => Next_depth n' (SkipCurrentSegment r)
              end
          | (res, sr') =>
              (res, mkReader (<[Z.to_nat (currentReader r) := sr']> (segmentReaders r))
                             (currentReader r))
          end
      end.

Definition Next : ST Reader (list byte * ChunkPosition) :=
  fun r => Next_depth (length (segmentReaders r)) r.

(** wal.go, lines 159-185.  Go ranges over the map in an unspecified
    order and [sort.Slice] is not stable; the model ranges in the
    order of [map_to_list], and the order only shows among readers of
    equal id. *)
Definition NewReaderWithMax (segId : Z) (w : WAL) (e : world) : Reader :=
  let older :=
    List.filter (fun seg => (segId =? 0) || (id seg <=? segId))
                (List.map snd (map_to_list (olderSegments w))) in
  let readers := List.map (fun seg => SegmentReader.NewReader seg e) older in
  let readers :=
    if (segId =? 0) || (id (activeSegment w) <=? segId)
    then readers ++ [SegmentReader.NewReader (activeSegment w) e]
    else readers in
  mkReader
    (Sort.sortBy (fun a b => id (srSegment a) <? id (srSegment b)) readers) 0.

(** wal.go, lines 223-225. *)
Definition NewReader (w : WAL) (e : world) : Reader := NewReaderWithMax 0 w e.

(** wal.go, lines 198-217: the [for] loop, [fuel] bounding the number
    of its iterations ([None]: the bound was too small). *)
Fixpoint seekStart (fuel : nat) (startPos : ChunkPosition) (reader : Reader)
  : option (result Reader) :=
  match fuel with
  | O => None
  | S fuel' =>
      match CurrentSegmentId reader with
      | Ok sid =>
          if sid <? SegmentId startPos
          then seekStart fuel' startPos (SkipCurrentSegment reader)
          else
            match CurrentChunkPosition reader with
            | Ok currentPos =>
                if (BlockNumber startPos <=? BlockNumber currentPos)
                   && (ChunkOffset startPos <=? ChunkOffset currentPos)
                then Some (Ok reader)
                else
                  match Next reader with
                  | (Ok _, reader') => seekStart fuel' startPos reader'
                  | (Err EOF, reader') => Some (Ok reader')
                  | (Err err, _) => Some (Err err)
                  | (PanicIndexOutOfRange, _) => Some PanicIndexOutOfRange
                  end
            | Err err => Some (Err err)
            | PanicIndexOutOfRange => Some PanicIndexOutOfRange
            end
      | Err err => Some (Err err)
      | PanicIndexOutOfRange => Some PanicIndexOutOfRange
      end
  end.

(** One unit per segment reader and one per record it still holds. *)
Definition weight (l : list segmentReader) : nat :=
  fold_right (fun sr acc => (S (length (srPending sr)) + acc)%nat) O l.

(** Every iteration drops a segment reader or consumes a record: the
    loop is over within this many iterations. *)
Definition seekBudget (r : Reader) : nat := S (weight (segmentReaders r)).

(** wal.go, lines 190-219.  A nil [startPos] is [None]. *)
Definition NewReaderWithStart (startPos : option ChunkPosition)
                              (w : WAL) (e : world)
  : option (result Reader) :=
  match startPos with
  | None => Some (Err ErrNilStartPosition)
  | Some startPos =>
      let reader := NewReader w e in
      seekStart (seekBudget reader) startPos reader
  end.

(** ** Auxiliary definitions for the statements *)

(** What a successful rotation leaves behind. *)
Definition rotated (m : machine) (seg : segment) (w' : world) : machine :=
  mkMachine
    (mkWAL seg
           (<[id (activeSegment (wal m)) := activeSegment (wal m)]>
              (olderSegments (wal m)))
           (options (wal m)) (blockCache (wal m)) 0 (renameIds (wal m))
           (pendingWrites (wal m)) (pendingSize (wal m)))
    w'.

(** The sync decision of [Write] (wal.go, lines 351-354) on a counter
    value [b]. *)
Definition needSync (opts : Options) (b : Z) : bool :=
  DiskFlushSync opts || ((0 <? BytesPerSync opts) && (BytesPerSync opts <=? b)).

(** The system calls of a rotation away from the segment [sid]. *)
Definition rotationEvents (sid : Z) : list event :=
  [EvSync sid; EvOpenSegment (wrap32 (sid + 1))].

(** ** Segment file names, as the specification words them *)

(** The id that the pattern [^\d+{ext}$] of the specification reads off
    a name: digits, at least one, then the extension and nothing else.
    (An extension that passes the validation starts with a dot, so the
    digits of a matching name are its longest run of digits.) *)
Definition specSegmentId (ext name : string) : option Z :=
  let '(tok, rest) := Scan.scanNumber name in
  match tok with
  | [] => None
  | _ => if String.eqb rest ext then Some (Scan.digitsValue tok) else None
  end.

(** ** Runs of the write interface *)

Inductive operation :=
| OpWrite (data : list byte)
| OpWriteAll
| OpPendingWrites (data : list byte)
| OpClearPendingWrites
| OpOpenNewActiveSegment.

(** One call; the machine goes on from wherever the call left it,
    also when the call returned an error. *)
Definition step (m : machine) (o : operation) : machine :=
  match o with
  | OpWrite data => snd (Write data m)
  | OpWriteAll => snd (WriteAll m)
  | OpPendingWrites data => snd (PendingWrites data m)
  | OpClearPendingWrites => snd (ClearPendingWrites m)
  | OpOpenNewActiveSegment => snd (OpenNewActiveSegment m)
  end.

Definition run (ops : list operation) (m : machine) : machine :=
  fold_left step ops m.

(** The invariant on segment ids: the active segment (there is one by
    construction of [WAL]) has an id above every key of the map of
    older segments and above the id of every segment stored in it. *)
Definition activeIsHighest (w : WAL) : Prop :=
  forall k seg, olderSegments w !! k = Some seg ->
    k < id (activeSegment w) /\ id seg < id (activeSegment w).

(** The invariant in the form that goes through a rotation: the keys
    of the map are the ids of the segments stored under them. *)
Definition segmentsInOrder (w : WAL) : Prop :=
  0 <= id (activeSegment w)
  /\ forall k seg, olderSegments w !! k = Some seg ->
       id seg = k /\ k < id (activeSegment w).

(** The highest of the ids occurs once among them. *)
Definition highestOnce (ids : list Z) : Prop :=
  forall hi, hi ∈ ids -> (forall v, v ∈ ids -> v <= hi) ->
    count_occ Z.eq_dec ids hi = 1%nat.

(** A call leaves the segments in place, or rotates once. *)
Definition keepsSegments (w w' : WAL) : Prop :=
  id (activeSegment w') = id (activeSegment w)
  /\ olderSegments w' = olderSegments w.

Definition rotatesSegments (w w' : WAL) : Prop :=
  id (activeSegment w') = wrap32 (id (activeSegment w) + 1)
  /\ olderSegments w'
     = <[id (activeSegment w) := activeSegment w]> (olderSegments w).

(** A computation that returns a value or the error of a system
    call, and nothing else. *)
Definition failsOnlyOnIO {S A} (c : ST S A) : Prop :=
  forall s, (exists a s', c s = (Ok a, s')) \/ (exists s', c s = (Err ErrIO, s')).

(** ** Concrete machines *)

Module Demo.

Definition opts : Options := mkOptions "/tmp/wal" 100 0 ".SEG" false 30.

Definition emptyDir : world := mkWorld [] ∅ [] [].

(** The machine right after [Open] on an empty directory. *)
Definition fresh (o : Options) : machine :=
  mkMachine
    (mkWAL (mkSegment 1 0 0 false) ∅ o (blockCacheCapacity o) 0 [] [] 0)
    (mkWorld [] (<[1 := []]> ∅) [] [EvMkdirAll; EvReadDir; EvOpenSegment 1]).

Definition exec {A} (c : M A) (m : machine) : machine := snd (c m).

Definition payload (n : nat) : list byte := repeat x2a n.

(** [fresh o] with one payload of [n] bytes staged. *)
Definition staged (o : Options) (n : nat) : machine :=
  exec (PendingWrites (payload n)) (fresh o).

(** A directory whose only segment holds one record with a broken
    checksum. *)
Definition corruptDir : world :=
  mkWorld [mkEntry "000000001.SEG" false]
          (<[1 := [mkRec (payload 10) 17 0 17 false]]> ∅) [] [].

(** The WAL that [Open] builds on [corruptDir], and the world after. *)
Definition corruptWAL : WAL :=
  mkWAL (mkSegment 1 0 17 false) ∅ opts None 0 [] [] 0.

Definition corruptWorld : world :=
  mkWorld [mkEntry "000000001.SEG" false]
          (<[1 := [mkRec (payload 10) 17 0 17 false]]> ∅) []
          [EvMkdirAll; EvReadDir; EvOpenSegment 1].

(** Two names that scan to the same id. *)
Definition twinDir : world :=
  mkWorld [mkEntry "1.SEG" false; mkEntry "01.SEG" false] ∅ [] [].

(** A segment with the highest id a [uint32] holds. *)
Definition lastIdDir : world :=
  mkWorld [mkEntry "4294967295.SEG" false] ∅ [] [].

(** An id that a [uint32] does not hold, beside the segment 1. *)
Definition wideDir : world :=
  mkWorld [mkEntry "4294967296.SEG" false; mkEntry "1.SEG" false] ∅ [] [].

(** Two segment files among other entries. *)
Definition mixedDir : world :=
  mkWorld [mkEntry "000000002.SEG" false; mkEntry "archive" true;
           mkEntry "000000001.SEG" false; mkEntry "notes.txt" false]
          ∅ [] [].

(** A name that is not a segment file name. *)
Definition strayDir : world :=
  mkWorld [mkEntry "7.SEGx" false] ∅ [] [].

End Demo.

(** ** The reader loop, as the specification words it *)

(** The stop test of [NewReaderWithStart]: the cursor is at or past
    the block number and at or past the chunk offset of [startPos]. *)
Definition reached (startPos currentPos : ChunkPosition) : bool :=
  (BlockNumber startPos <=? BlockNumber currentPos)
  && (ChunkOffset startPos <=? ChunkOffset currentPos).

(** Second phase: call [Next] until the cursor has [reached] the start
    position or [Next] reports [EOF]; the reader as it then stands is
    the result.  An error of [Next] other than [EOF] is the result
    instead. *)
Inductive SpecAdvance (startPos : ChunkPosition) : Reader -> result Reader -> Prop :=
| advance_reached r pos :
    CurrentChunkPosition r = Ok pos ->
    reached startPos pos = true ->
    SpecAdvance startPos r (Ok r)
| advance_eof r pos r' :
    CurrentChunkPosition r = Ok pos ->
    reached startPos pos = false ->
    Next r = (Err EOF, r') ->
    SpecAdvance startPos r (Ok r')
| advance_error r pos err r' :
    CurrentChunkPosition r = Ok pos ->
    reached startPos pos = false ->
    Next r = (Err err, r') ->
    err <> EOF ->
    SpecAdvance startPos r (Err err)
| advance_next r pos chunk r' res :
    CurrentChunkPosition r = Ok pos ->
    reached startPos pos = false ->
    Next r = (Ok chunk, r') ->
    SpecAdvance startPos r' res ->
    SpecAdvance startPos r res.

(** First phase: skip whole segment readers while the id of the
    current segment is below the one of [startPos]; then the second
    phase. *)
Inductive SpecSeek (startPos : ChunkPosition) : Reader -> result Reader -> Prop :=
| seek_skip r sid res :
    CurrentSegmentId r = Ok sid ->
    sid < SegmentId startPos ->
    SpecSeek startPos (SkipCurrentSegment r) res ->
    SpecSeek startPos r res
| seek_advance r sid res :
    CurrentSegmentId r = Ok sid ->
    SegmentId startPos <= sid ->
    SpecAdvance startPos r res ->
    SpecSeek startPos r res.

(** The ids of the segments a reader walks, in order. *)
Definition readerIds (r : Reader) : list Z :=
  (fun sr => id (srSegment sr)) <$> segmentReaders r.

(** What is left to read from the current segment reader on. *)
Definition remaining (r : Reader) : nat :=
  weight (drop (Z.to_nat (currentReader r)) (segmentReaders r)).


(** * The rest of wal.go *)

(** ** The format of segment file names (wal.go, line 121) *)

(** [fmt.Sprintf] with the format ["%09d" + ext] on an unsigned number,
    after the Go standard library: the decimal digits, padded with
    zeros on the left to nine characters, then the extension, which
    the format copies byte by byte as long as it holds no ['%'].  An
    extension with a ['%'] brings a verb of its own into the format:
    that case is left out ([None]).  This is the string that
    [SegmentFileName] hands to [filepath.Join] together with the
    directory path; [filepath.Join], which cleans the path it builds,
    is not modelled. *)
Module Format.

Definition digitChar (d : Z) : ascii := ascii_of_nat (Z.to_nat (48 + d)).

(** The decimal digits of [n], most significant first, in front of
    [acc]; [fuel] bounds the number of digits. *)
Fixpoint decimal (fuel : nat) (n : Z) (acc : list ascii) : list ascii :=
  match fuel with
  | O => acc
  | S fuel' =>
      let acc' := digitChar (n mod 10) :: acc in
      if n / 10 =? 0 then acc' else decimal fuel' (n / 10) acc'
  end.

(** A [uint32] has at most ten digits. *)
Definition formatUint32 (n : Z) : list ascii := decimal 10 n [].

Definition zeroPad (width : nat) (digits : list ascii) : list ascii :=
  repeat "0"%char (width - length digits) ++ digits.

Fixpoint hasPercent (s : string) : bool :=
  match s with
  | EmptyString => false
  | String c s' => (Scan.code c =? 37)%nat || hasPercent s'
  end.

Definition Sprintf_09d (ext : string) (n : Z) : option string :=
  if hasPercent ext then None
  else Some (String.append (string_of_list_ascii (zeroPad 9 (formatUint32 n))) ext).

End Format.

(** ** Queries (wal.go, lines 142-156) *)

(** wal.go, lines 142-147. *)
Definition ActiveSegmentID : M Z :=
  let* w := get_wal in ret (id (activeSegment w)).

(** wal.go, lines 151-156. *)
Definition IsEmpty : M bool :=
  let* w := get_wal in
  ret ((size (olderSegments w) =? 0)%nat
       && (Segment.Size (activeSegment w) =? 0)).

(** ** Reading, closing, deleting, syncing (wal.go, lines 366-428) *)

Module SegmentIO.

(** Modelled from the spec: the record that starts at block [block],
    offset [offset] of a segment file; [bn], [off] is where the first
    record of [recs] starts. *)
Fixpoint find_record (recs : list chunkRec) (bn off block offset : Z)
  : option chunkRec :=
  match recs with
  | [] => None
  | rec :: rest =>
      if (bn =? block) && (off =? offset) then Some rec
      else find_record rest (rec_next_block rec) (rec_next_offset rec)
                       block offset
  end.

(** Modelled from the spec: [segment.Read] (section 4.3) returns the
    payload of the record that starts at the given block and offset;
    a record whose checksum does not match, or a place where no record
    starts, is [CorruptChunk]; a closed segment rejects the call. *)
Definition Read (seg : segment) (block offset : Z) : ST world (list byte) :=
  fun w =>
  if closed seg then (Err ErrClosed, w)
  else
    let '(failed, w1) := take_fault w in
    if failed then (Err ErrIO, w1)
    else
      match find_record (file_of (id seg) w1) 0 0 block offset with
      | Some rec =>
          if rec_intact rec then (Ok (rec_data rec), w1)
          else (Err ErrCorruptChunk, w1)
      | None => (Err ErrCorruptChunk, w1)
      end.

(** Modelled from the spec: [segment.Close] (section 4.3); a closed
    segment rejects the call. *)
Definition Close (seg : segment) : ST world segment :=
  fun w =>
  if closed seg then (Err ErrClosed, w)
  else
    let '(failed, w1) := take_fault w in
    if failed then (Err ErrIO, w1)
    else (Ok (mkSegment (id seg) (currentBlockNumber seg) (currentBlockSize seg) true),
          w1).

(** Modelled from the spec: [segment.Remove] (section 4.3) closes the
    segment and removes its file; removing a file that is not there
    fails, and a closed segment rejects the call. *)
Definition Remove (seg : segment) : ST world segment :=
  fun w =>
  if closed seg then (Err ErrClosed, w)
  else
    let '(failed, w1) := take_fault w in
    if failed then (Err ErrIO, w1)
    else
      match seg_files w1 !! id seg with
      | None => (Err ErrIO, w1)
      | Some _ =>
          (Ok (mkSegment (id seg) (currentBlockNumber seg) (currentBlockSize seg) true),
           mkWorld (dir_entries w1) (delete (id seg) (seg_files w1))
                   (io_faults w1) (io_trace w1))
      end.

End SegmentIO.

(** What [WAL.Read] returns: the answer of the segment, or the error
    of line 379, which names the segment id and the extension. *)
Inductive readResult :=
| SegmentNotFound (sid : SegSerialID) (ext : string)
| FromSegment (r : result (list byte)).

(** wal.go, lines 366-384, on a position that is not nil. *)
Definition Read (pos : ChunkPosition) (m : machine) : readResult * machine :=
  let segment :=
    if SegmentId pos =? id (activeSegment (wal m))
    then Some (activeSegment (wal m))
    else olderSegments (wal m) !! SegmentId pos in
  match segment with
  | None =>
      (SegmentNotFound (SegmentId pos) (DiskFileExtension (options (wal m))), m)
  | Some seg =>
      let '(r, w1) := SegmentIO.Read seg (BlockNumber pos) (ChunkOffset pos) (env m) in
      (FromSegment r, mkMachine (wal m) w1)
  end.

Definition set_renameIds (ids : list Z) (w : WAL) : WAL :=
  mkWAL (activeSegment w) (olderSegments w) (options w) (blockCache w)
        (bytesWrite w) ids (pendingWrites w) (pendingSize w).

(** wal.go, lines 392-397: the loop over the older segments, in the
    order of [map_to_list] (Go's order is unspecified).  The segments
    are closed in place, through the pointers the map holds. *)
Fixpoint closeOlderSegments (entries : list (Z * segment)) : M unit :=
  match entries with
  | [] => ret tt
  | entry :: rest =>
      let* seg := io (SegmentIO.Close (snd entry)) in
      let* _ := update_wal (fun w =>
        set_renameIds (renameIds w ++ [id seg])
          (set_olderSegments (<[fst entry := seg]> (olderSegments w)) w)) in
      closeOlderSegments rest
  end.

(** wal.go, lines 387-403.  The nil map of line 398 is the empty map. *)
Definition Close : M unit :=
  let* w := get_wal in
  let* _ := closeOlderSegments (map_to_list (olderSegments w)) in
  let* _ := update_wal (set_olderSegments ∅) in
  let* _ := update_wal (fun w =>
    set_renameIds (renameIds w ++ [id (activeSegment w)]) w) in
  let* seg := io (SegmentIO.Close (activeSegment w)) in
  update_wal (set_activeSegment seg).

(** wal.go, lines 411-415. *)
Fixpoint removeOlderSegments (entries : list (Z * segment)) : M unit :=
  match entries with
  | [] => ret tt
  | entry :: rest =>
      let* seg := io (SegmentIO.Remove (snd entry)) in
      let* _ := update_wal (fun w =>
        set_olderSegments (<[fst entry := seg]> (olderSegments w)) w) in
      removeOlderSegments rest
  end.

(** wal.go, lines 406-420. *)
Definition Delete : M unit :=
  let* w := get_wal in
  let* _ := removeOlderSegments (map_to_list (olderSegments w)) in
  let* _ := update_wal (set_olderSegments ∅) in
  let* seg := io (SegmentIO.Remove (activeSegment w)) in
  update_wal (set_activeSegment seg).

(** wal.go, lines 423-428. *)
Definition Sync : M unit :=
  let* w := get_wal in io (Segment.Sync (activeSegment w)).

(** ** Auxiliary definitions for the further statements *)

(** The methods keep a relation [R] between the WAL object before and
    after, whatever they return. *)
Definition keepsWAL {A} (R : WAL -> WAL -> Prop) (c : M A) : Prop :=
  forall m, R (wal m) (wal (snd (c m))).

(** The same for the world. *)
Definition keepsWorld {S A} (R : S -> S -> Prop) (c : ST S A) : Prop :=
  forall s, R s (snd (c s)).

(** The bound on the footprint of a staged batch that [PendingWrites]
    accumulates, payload after payload. *)
Definition pendingBound (datas : list (list byte)) : Z :=
  fold_left (fun acc data => wrap64 (acc + maxDataWriteSize (len64 data))) datas 0.

(** The staging is the same in both. *)
Definition samePending (w w' : WAL) : Prop :=
  pendingWrites w' = pendingWrites w /\ pendingSize w' = pendingSize w.

Definition stagingConsistent (w : WAL) : Prop :=
  pendingSize w = pendingBound (pendingWrites w).

(** What a call is to make of the payloads staged: [PendingWrites]
    adds one at the end, [ClearPendingWrites] and [WriteAll] leave none
    staged, [Write] and [OpenNewActiveSegment] do not touch them. *)
Definition stagedStep (staged : list (list byte)) (o : operation)
  : list (list byte) :=
  match o with
  | OpPendingWrites data => staged ++ [data]
  | OpClearPendingWrites | OpWriteAll => []
  | OpWrite _ | OpOpenNewActiveSegment => staged
  end.

(** The payloads staged after a run that starts with none staged. *)
Definition stagedAfter (ops : list operation) : list (list byte) :=
  fold_left stagedStep ops [].

(** Every older segment is stored under its own id. *)
Definition keysAreIds (w : WAL) : Prop :=
  forall k seg, olderSegments w !! k = Some seg -> id seg = k.

(** No segment of the WAL is closed. *)
Definition allOpen (w : WAL) : Prop :=
  closed (activeSegment w) = false
  /\ forall k seg, olderSegments w !! k = Some seg -> closed seg = false.

(** Segment files only grow, by appending. *)
Definition appendOnly (w w' : world) : Prop :=
  forall sid, file_of sid w `prefix_of` file_of sid w'.

(** Reading a reader to its end: the chunks that [Next] returned, the
    error that ended the reading ([None] when [fuel] calls were not
    enough, or on a panic), and the reader afterwards. *)
Fixpoint drain (fuel : nat) (r : Reader)
  : list (list byte * ChunkPosition) * option error * Reader :=
  match fuel with
  | O => ([], None, r)
  | S fuel' =>
      match Next r with
      | (Ok chunk, r') =>
          let '(chunks, stop, r'') := drain fuel' r' in
          (chunk :: chunks, stop, r'')
      | (Err err, r') => ([], Some err, r')
      | (PanicIndexOutOfRange, r') => ([], None, r')
      end
  end.

(** The records a reader has in front of it: for each segment reader
    from the current one on, the id of its segment with each payload. *)
Definition ahead (r : Reader) : list (Z * list byte) :=
  flat_map (fun sr => List.map (fun rec => (id (srSegment sr), rec_data rec))
                               (srPending sr))
           (drop (Z.to_nat (currentReader r)) (segmentReaders r)).

(** A reader whose segments, from the current one on, are open and
    hold intact records only. *)
Definition readable (r : Reader) : Prop :=
  Forall (fun sr => closed (srSegment sr) = false
                    /\ Forall (fun rec => rec_intact rec = true) (srPending sr))
         (drop (Z.to_nat (currentReader r)) (segmentReaders r)).

(** The cursor at which the records of a file end, [bn], [off] being
    where the first of them starts. *)
Fixpoint chain_end (recs : list chunkRec) (bn off : Z) : Z * Z :=
  match recs with
  | [] => (bn, off)
  | rec :: rest => chain_end rest (rec_next_block rec) (rec_next_offset rec)
  end.

(** The cursor of a segment is where the records of its file end, and
    no record of the file starts there. *)
Definition cursorAtEnd (seg : segment) (recs : list chunkRec) : Prop :=
  let c := Segment.next_cursor (currentBlockNumber seg) (currentBlockSize seg) in
  chain_end recs 0 0 = c
  /\ SegmentIO.find_record recs 0 0 (fst c) (snd c) = None.

(** wal.go, lines 371-376: the segment in which [Read] looks for a
    position of segment id [sid]. *)
Definition segmentOf (w : WAL) (sid : SegSerialID) : option segment :=
  if sid =? id (activeSegment w) then Some (activeSegment w)
  else olderSegments w !! sid.

(** The WAL serves the segment id [sid]: [Read] finds an open segment
    of that id. *)
Definition served (w : WAL) (sid : SegSerialID) : Prop :=
  exists seg, segmentOf w sid = Some seg /\ closed seg = false /\ id seg = sid.

(** The active segment is the same object. *)
Definition sameActive (w w' : WAL) : Prop :=
  activeSegment w' = activeSegment w.

(** The active segment is the same object, or an open one. *)
Definition openOrSame (w w' : WAL) : Prop :=
  closed (activeSegment w') = false \/ activeSegment w' = activeSegment w.

(** Every segment file holds the same records. *)
Definition sameFiles (w w' : world) : Prop :=
  forall sid, file_of sid w' = file_of sid w.

(** ** Further concrete machines *)

Module Demo2.

(** The WAL that [Open] builds on [Demo.twinDir], and the world after. *)
Definition twinWAL : WAL :=
  mkWAL (mkSegment 1 0 0 false) (<[1 := mkSegment 1 0 0 false]> ∅)
        Demo.opts None 0 [] [] 0.

Definition twinWorld : world :=
  mkWorld [mkEntry "1.SEG" false; mkEntry "01.SEG" false]
          (<[1 := []]> ∅) []
          [EvMkdirAll; EvReadDir; EvOpenSegment 1; EvOpenSegment 1].

(** A directory without a segment file: a file of another kind, a
    directory with the name of a segment file, a name without a
    number. *)
Definition strangersDir : world :=
  mkWorld [mkEntry "notes.txt" false; mkEntry "000000003.SEG" true;
           mkEntry ".SEG" false] ∅ [] [].

(** Three records in two segments: the second [Write] rotates. *)
Definition filled : machine :=
  run [OpWrite (Demo.payload 50); OpWrite (Demo.payload 60);
       OpWrite (Demo.payload 10)]
      (Demo.fresh Demo.opts).

Definition reader : Reader := NewReader (wal filled) (env filled).

(** A batch of two payloads staged on [Demo.fresh], with a script of
    system calls in which the first call, the append, fails. *)
Definition stagedFaulty : machine :=
  let m := Demo.exec (PendingWrites (Demo.payload 3)) (Demo.staged Demo.opts 10) in
  mkMachine (wal m)
    (mkWorld (dir_entries (env m)) (seg_files (env m)) [true] (io_trace (env m))).

End Demo2.
(** * Properties *)

(** A statement is exercised on a concrete machine by evaluating both
    the instance of the theorem and the goal. *)
Ltac by_instance P :=
  let H := fresh "Hinst" in
  pose proof P as H; vm_compute in H; vm_compute; exact H.

(** ** Machine integers *)

Lemma wrap32_range z : 0 <= wrap32 z <= max_uint32.
Proof.
  unfold wrap32, max_uint32.
  pose proof (Z.mod_pos_bound z (2 ^ 32) ltac:(lia)). lia.
Qed.

Lemma wrap32_small z : 0 <= z <= max_uint32 -> wrap32 z = z.
Proof. unfold wrap32, max_uint32. intros. apply Z.mod_small. lia. Qed.

Lemma wrap64_small z : min_int64 <= z <= max_int64 -> wrap64 z = z.
Proof.
  unfold wrap64, min_int64, max_int64. intros.
  rewrite Z.mod_small; lia.
Qed.

Lemma wrap64_range z : min_int64 <= wrap64 z <= max_int64.
Proof.
  unfold wrap64, min_int64, max_int64.
  pose proof (Z.mod_pos_bound (z + 2 ^ 63) (2 ^ 64) ltac:(lia)). lia.
Qed.

(** ** The monad *)

Section MonadFacts.
Context {S A B : Type}.

Lemma bind_Ok (c : ST S A) (k : A -> ST S B) s b s' :
  bind c k s = (Ok b, s') ->
  exists a s1, c s = (Ok a, s1) /\ k a s1 = (Ok b, s').
Proof.
  unfold bind. destruct (c s) as [[a | e |] s1]; intros H; try discriminate.
  eauto.
Qed.

Lemma bind_Ok_intro (c : ST S A) (k : A -> ST S B) s a s1 :
  c s = (Ok a, s1) -> bind c k s = k a s1.
Proof. unfold bind. intros ->. reflexivity. Qed.

Lemma bind_Err_intro (c : ST S A) (k : A -> ST S B) s e s1 :
  c s = (Err e, s1) -> bind c k s = (Err e, s1).
Proof. unfold bind. intros ->. reflexivity. Qed.

End MonadFacts.

Lemma bind_get_wal {B} (k : WAL -> M B) m :
  bind get_wal k m = k (wal m) m.
Proof. reflexivity. Qed.

Lemma bind_update_wal {B} (f : WAL -> WAL) (k : unit -> M B) m :
  bind (update_wal f) k m = k tt (mkMachine (f (wal m)) (env m)).
Proof. reflexivity. Qed.

Lemma when_Ok {S} (b : bool) (c : ST S unit) s u s' :
  when b c s = (Ok u, s') ->
  if b then c s = (Ok u, s') else s' = s.
Proof. destruct b; simpl; intros H; [assumption | injection H; auto]. Qed.

(** ** The world *)

Lemma take_fault_frame w b w1 :
  take_fault w = (b, w1) ->
  io_trace w1 = io_trace w /\ seg_files w1 = seg_files w
  /\ dir_entries w1 = dir_entries w.
Proof.
  unfold take_fault. destruct (io_faults w); intros H; injection H as <- <-; auto.
Qed.

Lemma take_fault_exhausted w :
  io_faults w = [] -> take_fault w = (false, w).
Proof. unfold take_fault. intros ->. reflexivity. Qed.

(** ** The segment layer *)

Lemma Sync_Ok seg w u w' :
  Segment.Sync seg w = (Ok u, w') ->
  io_trace w' = io_trace w ++ [EvSync (id seg)].
Proof.
  unfold Segment.Sync, fail, syscall. destruct (closed seg); [discriminate |].
  destruct (take_fault w) as [failed w1] eqn:Hf.
  destruct failed; intros H; [discriminate |]. inversion H; subst; simpl.
  apply take_fault_frame in Hf as (-> & _). reflexivity.
Qed.

Lemma openSegmentFile_Ok sid w seg w' :
  Segment.openSegmentFile sid w = (Ok seg, w') ->
  id seg = sid /\ closed seg = false
  /\ io_trace w' = io_trace w ++ [EvOpenSegment sid].
Proof.
  unfold Segment.openSegmentFile.
  destruct (take_fault w) as [failed w1] eqn:Hf.
  destruct failed; intros H; [discriminate |]. injection H as <- <-. simpl.
  apply take_fault_frame in Hf as (-> & _). auto.
Qed.

Lemma place_id seg data :
  id (snd (Segment.place seg data)) = id seg.
Proof.
  unfold Segment.place.
  destruct (Segment.layout _ _) as [[[[adv0 off] adv] bs'] size].
  destruct (Segment.next_cursor _ _). reflexivity.
Qed.

Lemma place_all_id datas : forall seg,
  id (snd (Segment.place_all seg datas)) = id seg.
Proof.
  induction datas as [| d ds IH]; intros seg; simpl; [reflexivity |].
  pose proof (place_id seg d) as Hp.
  destruct (Segment.place seg d) as [[pos rec] seg1]. simpl in Hp.
  specialize (IH seg1).
  destruct (Segment.place_all seg1 ds) as [[ps recs] seg2]. simpl in *. congruence.
Qed.

Lemma Segment_Write_Ok seg data w r w' :
  Segment.Write seg data w = (Ok r, w') ->
  id (snd r) = id seg
  /\ io_trace w' = io_trace w ++ [EvAppend (id seg) [fst r]].
Proof.
  unfold Segment.Write. destruct (closed seg); [discriminate |].
  destruct (take_fault w) as [failed w1] eqn:Hf.
  destruct failed; [discriminate |].
  pose proof (place_id seg data) as Hp.
  destruct (Segment.place seg data) as [[pos rec] seg1].
  intros H. injection H as <- <-. simpl in *.
  apply take_fault_frame in Hf as (-> & _). auto.
Qed.

Lemma Segment_writeAll_Ok seg datas w r w' :
  Segment.writeAll seg datas w = (Ok r, w') ->
  id (snd r) = id seg
  /\ io_trace w' = io_trace w ++ [EvAppend (id seg) (fst r)].
Proof.
  unfold Segment.writeAll. destruct (closed seg); [discriminate |].
  destruct (take_fault w) as [failed w1] eqn:Hf.
  destruct failed; [discriminate |].
  pose proof (place_all_id datas seg) as Hp.
  destruct (Segment.place_all seg datas) as [[ps recs] seg1].
  intros H. injection H as <- <-. simpl in *.
  apply take_fault_frame in Hf as (-> & _). auto.
Qed.

Lemma io_Ok {A} (c : ST world A) m a m' :
  io c m = (Ok a, m') ->
  exists w', c (env m) = (Ok a, w') /\ m' = mkMachine (wal m) w'.
Proof.
  unfold io. destruct (c (env m)) as [r w1]. intros H. injection H as -> <-.
  eauto.
Qed.

(** The scenarios of the specification (section 8) on the model. *)

(** Scenario 2: a record of [B - H] bytes is one chunk filling one
    block, and the next record starts at block 1, offset 0. *)
Example layout_full_block :
  Segment.layout 0 (blockSize - chunkHeaderSize) = (0, 0, 0, 32768, 32768)
  /\ Segment.layout 32768 10 = (1, 0, 1, 17, 17).
Proof. split; reflexivity. Qed.

(** Scenario 3: a record of [2 * B] bytes takes FIRST, MIDDLE and a
    LAST chunk of [2 * H] bytes: two blocks further, 21 bytes into the
    block, three headers in all. *)
Example layout_two_blocks :
  Segment.layout 0 (2 * blockSize) = (0, 0, 2, 21, 2 * blockSize + 3 * chunkHeaderSize).
Proof. reflexivity. Qed.

(** Scenario 4: with a segment size of 10000, the fourth record of
    3000 bytes goes to segment 2 and segment 1 is among the older ones. *)
Example rotation_on_fourth_write :
  let m := run [OpWrite (Demo.payload 3000); OpWrite (Demo.payload 3000);
                OpWrite (Demo.payload 3000); OpWrite (Demo.payload 3000)]
               (Demo.fresh (mkOptions "/tmp/wal" 10000 0 ".SEG" false 0)) in
  id (activeSegment (wal m)) = 2
  /\ is_Some (olderSegments (wal m) !! 1)
  /\ Segment.Size (activeSegment (wal m)) = 3007.
Proof. vm_compute. repeat split; eauto. Qed.

(** ** Rotation *)

Lemma rotateActiveSegment_Ok m u m' :
  rotateActiveSegment m = (Ok u, m') ->
  exists seg w',
    m' = rotated m seg w'
    /\ id seg = wrap32 (id (activeSegment (wal m)) + 1)
    /\ io_trace w' = io_trace (env m)
         ++ [EvSync (id (activeSegment (wal m)));
             EvOpenSegment (wrap32 (id (activeSegment (wal m)) + 1))].
Proof.
  unfold rotateActiveSegment. intros H.
  apply bind_Ok in H as (w & m1 & Hg & H). inversion Hg; subst; clear Hg.
  apply bind_Ok in H as (? & m2 & Hs & H).
  apply io_Ok in Hs as (w2 & Hs & ->).
  apply bind_Ok in H as (? & m3 & Hb & H). inversion Hb; subst; clear Hb.
  apply bind_Ok in H as (seg & m4 & Ho & H).
  apply io_Ok in Ho as (w4 & Ho & ->). simpl in Ho.
  inversion H; subst; clear H.
  apply Sync_Ok in Hs. apply openSegmentFile_Ok in Ho as (Hid & _ & Ht).
  exists seg, w4. split; [reflexivity |]. split; [assumption |].
  rewrite Ht, Hs, <- app_assoc. reflexivity.
Qed.

(** ** Write *)

(** C1.  A payload that, with its 7-byte chunk header, is larger than
    [SegmentSize] makes [Write] return [ErrDataSizeTooLarge] and leaves
    the whole machine as it was: the active and the older segments (no
    rotation), the segment files and the trace of system calls (nothing
    written), and [bytesWrite].  The first hypothesis says that the
    length is one a Go slice can have, so that the [int64] sum of line
    331 does not wrap. *)
Theorem Write_rejects_oversized_payload (m : machine) (data : list byte) :
  len64 data + chunkHeaderSize <= max_int64 ->
  chunkHeaderSize + len64 data > SegmentSize (options (wal m)) ->
  Write data m = (Err ErrDataSizeTooLarge, m).
Proof.
  intros Hfit Hbig. unfold Write, bind, get_wal.
  rewrite wrap64_small.
  - replace (SegmentSize (options (wal m)) <? len64 data + chunkHeaderSize)
      with true by (symmetry; apply Z.ltb_lt; lia).
    reflexivity.
  - unfold len64, min_int64, chunkHeaderSize in *. lia.
Qed.

Lemma Write_rejects_oversized_payload_witness :
  Write (Demo.payload 200) (Demo.fresh Demo.opts)
  = (Err ErrDataSizeTooLarge, Demo.fresh Demo.opts).
Proof.
  apply Write_rejects_oversized_payload; vm_compute; congruence.
Defined.

Lemma needSync_eq opts b :
  (if negb (DiskFlushSync opts) && (0 <? BytesPerSync opts)
   then BytesPerSync opts <=? b else DiskFlushSync opts)
  = needSync opts b.
Proof.
  unfold needSync.
  destruct (DiskFlushSync opts), (0 <? BytesPerSync opts); reflexivity.
Qed.

(** C3.  After a successful [Write], with [b0] the counter as the
    append starts (0 when the call rotated first, the old value
    otherwise) and [b] the [uint32] sum of [b0] and the [ChunkSize] of
    the returned position: the system calls made are the rotation (if
    any), the append, and then one sync of the active segment exactly
    when [needSync] holds for [b]; [bytesWrite] ends at 0 when that
    sync was made and at [b] otherwise. *)
Theorem Write_sync_policy (m m' : machine) (data : list byte) (pos : ChunkPosition) :
  Write data m = (Ok pos, m') ->
  let opts := options (wal m) in
  let full := isFull (wal m) (len64 data) in
  let b := wrap32 ((if full then 0 else bytesWrite (wal m)) + ChunkSize pos) in
  let sid := id (activeSegment (wal m')) in
  bytesWrite (wal m') = (if needSync opts b then 0 else b)
  /\ io_trace (env m')
     = io_trace (env m)
       ++ (if full then rotationEvents (id (activeSegment (wal m))) else [])
       ++ [EvAppend sid [pos]]
       ++ (if needSync opts b then [EvSync sid] else []).
Proof.
  unfold Write. rewrite bind_get_wal.
  destruct (SegmentSize (options (wal m)) <? wrap64 (len64 data + chunkHeaderSize));
    [discriminate |].
  intros H. apply bind_Ok in H as (u & m1 & Hrot & H).
  rewrite bind_get_wal in H.
  apply bind_Ok in H as (r & m2 & Hw & H).
  apply io_Ok in Hw as (w2 & Hw & ->).
  apply Segment_Write_Ok in Hw as (Hid & Htr).
  rewrite !bind_update_wal, bind_get_wal in H. simpl in H.
  rewrite needSync_eq in H.
  apply bind_Ok in H as (u' & m5 & Hsync & H).
  assert (pos = fst r /\ m' = m5) as [-> ->] by (inversion H; auto). clear H.
  apply when_Ok in Hrot. apply when_Ok in Hsync. simpl.
  assert (Hpre :
    options (wal m1) = options (wal m)
    /\ bytesWrite (wal m1)
       = (if isFull (wal m) (len64 data) then 0 else bytesWrite (wal m))
    /\ io_trace (env m1)
       = io_trace (env m)
         ++ (if isFull (wal m) (len64 data)
             then rotationEvents (id (activeSegment (wal m))) else [])).
  { destruct (isFull (wal m) (len64 data)).
    - apply rotateActiveSegment_Ok in Hrot as (seg & w' & -> & _ & Ht).
      simpl. auto.
    - subst m1. rewrite app_nil_r. auto. }
  destruct Hpre as (Hopts & Hb & Ht). rewrite Hopts, Hb in Hsync.
  destruct (needSync (options (wal m))
              (wrap32 ((if isFull (wal m) (len64 data) then 0
                        else bytesWrite (wal m)) + ChunkSize (fst r)))).
  - apply bind_Ok in Hsync as (u'' & m6 & Hs & Hsync).
    apply io_Ok in Hs as (w6 & Hs & ->). simpl in Hs.
    rewrite bind_update_wal in Hsync || unfold update_wal in Hsync.
    assert (m5 = mkMachine (set_bytesWrite 0
              (set_bytesWrite
                 (wrap32 (bytesWrite (wal m1) + ChunkSize (fst r)))
                 (set_activeSegment (snd r) (wal m1)))) w6) as ->
      by (inversion Hsync; auto).
    apply Sync_Ok in Hs. simpl in *. split; [reflexivity |].
    rewrite Hs, Htr, Ht, Hid, <- !app_assoc. reflexivity.
  - subst m5. simpl. split; [reflexivity |].
    rewrite Htr, Ht, Hid, <- !app_assoc. reflexivity.
Qed.

Lemma Write_sync_policy_witness :
  exists pos m',
    Write (Demo.payload 30) (Demo.fresh Demo.opts) = (Ok pos, m')
    /\ bytesWrite (wal m') = 0
    /\ io_trace (env m')
       = io_trace (env (Demo.fresh Demo.opts))
         ++ [] ++ [EvAppend 1 [pos]] ++ [EvSync 1].
Proof.
  eexists. eexists. split; [vm_compute; reflexivity |].
  by_instance
    (Write_sync_policy (Demo.fresh Demo.opts) _ (Demo.payload 30) _
       ltac:(vm_compute; reflexivity)).
Defined.

(** ** WriteAll *)

Lemma defer_eq {S A} (cleanup : ST S unit) (body : ST S A) s :
  defer cleanup body s = (fst (body s), snd (cleanup (snd (body s)))).
Proof. unfold defer. destruct (body s). reflexivity. Qed.

Lemma WriteAll_empty m :
  pendingWrites (wal m) = [] -> WriteAll m = (Ok [], m).
Proof. unfold WriteAll. rewrite bind_get_wal. intros ->. reflexivity. Qed.

(** With something staged, [WriteAll] is its locked body followed by
    the deferred [ClearPendingWrites]. *)
Lemma WriteAll_staged m :
  pendingWrites (wal m) <> [] ->
  exists body : M (list ChunkPosition),
    WriteAll m = defer ClearPendingWrites body m
    /\ (SegmentSize (options (wal m)) < pendingSize (wal m) ->
        fst (body m) = Err ErrPendingSizeTooLarge)
    /\ forall ps m1, body m = (Ok ps, m1) ->
         let rot := SegmentSize (options (wal m))
                    <? wrap64 (Segment.Size (activeSegment (wal m))
                               + pendingSize (wal m)) in
         io_trace (env m1)
         = io_trace (env m)
           ++ (if rot then rotationEvents (id (activeSegment (wal m))) else [])
           ++ [EvAppend (id (activeSegment (wal m1))) ps]
         /\ bytesWrite (wal m1) = (if rot then 0 else bytesWrite (wal m)).
Proof.
  intros Hne. unfold WriteAll. rewrite bind_get_wal.
  destruct (pendingWrites (wal m)) as [| d ds] eqn:Hp; [congruence |].
  simpl length. simpl Nat.eqb. cbv iota.
  eexists. split; [reflexivity |]. split.
  - intros Hbig. rewrite bind_get_wal.
    replace (SegmentSize (options (wal m)) <? pendingSize (wal m)) with true
      by (symmetry; apply Z.ltb_lt; lia).
    reflexivity.
  - intros ps m1. rewrite bind_get_wal.
    destruct (SegmentSize (options (wal m)) <? pendingSize (wal m));
      [discriminate |].
    intros H. apply bind_Ok in H as (u & m2 & Hrot & H).
    rewrite bind_get_wal in H.
    apply bind_Ok in H as (r & m3 & Hw & H).
    apply io_Ok in Hw as (w3 & Hw & ->).
    apply Segment_writeAll_Ok in Hw as (Hid & Htr).
    rewrite bind_update_wal in H.
    assert (ps = fst r
            /\ m1 = mkMachine (set_activeSegment (snd r) (wal m2)) w3)
      as [-> ->] by (inversion H; auto). clear H.
    apply when_Ok in Hrot. simpl.
    destruct (SegmentSize (options (wal m))
              <? wrap64 (Segment.Size (activeSegment (wal m)) + pendingSize (wal m))).
    + apply rotateActiveSegment_Ok in Hrot as (seg & w' & -> & _ & Ht).
      simpl in *. rewrite Htr, Ht, Hid, <- !app_assoc. auto.
    + subst m2. rewrite Htr, Hid. auto.
Qed.

(** C2.  With nothing staged [WriteAll] returns an empty list of
    positions and no error (and changes nothing).  With something
    staged it takes the lock: it returns [ErrPendingSizeTooLarge] when
    [pendingSize] exceeds [SegmentSize], and whatever it returns, the
    staging list is empty and [pendingSize] is 0 afterwards. *)
Theorem WriteAll_staging (m : machine) :
  (pendingWrites (wal m) = [] -> WriteAll m = (Ok [], m))
  /\ (pendingWrites (wal m) <> [] ->
      (SegmentSize (options (wal m)) < pendingSize (wal m) ->
       fst (WriteAll m) = Err ErrPendingSizeTooLarge)
      /\ pendingWrites (wal (snd (WriteAll m))) = []
      /\ pendingSize (wal (snd (WriteAll m))) = 0).
Proof.
  split; [apply WriteAll_empty |].
  intros Hne. destruct (WriteAll_staged m Hne) as (body & -> & Hbig & _).
  rewrite defer_eq. simpl. auto.
Qed.

Lemma WriteAll_staging_witness :
  WriteAll (Demo.fresh Demo.opts) = (Ok [], Demo.fresh Demo.opts)
  /\ fst (WriteAll (Demo.staged Demo.opts 200)) = Err ErrPendingSizeTooLarge
  /\ pendingWrites (wal (snd (WriteAll (Demo.staged Demo.opts 200)))) = []
  /\ pendingSize (wal (snd (WriteAll (Demo.staged Demo.opts 200)))) = 0.
Proof.
  split.
  - apply (proj1 (WriteAll_staging (Demo.fresh Demo.opts))). reflexivity.
  - destruct (proj2 (WriteAll_staging (Demo.staged Demo.opts 200)))
      as (Hbig & Hlist & Hsize).
    + vm_compute. discriminate.
    + split; [apply Hbig; vm_compute; reflexivity | split; assumption].
Defined.

(** C9.  A successful [WriteAll] of a staged batch makes the system
    calls of the rotation (if the batch did not fit) and then the one
    append, and nothing after it: no sync follows the write, whatever
    [DiskFlushSync] says.  [bytesWrite] is what it was when the append
    started: 0 after a rotation, the old value otherwise. *)
Theorem WriteAll_does_not_sync (m m' : machine) (ps : list ChunkPosition) :
  pendingWrites (wal m) <> [] ->
  WriteAll m = (Ok ps, m') ->
  let rot := SegmentSize (options (wal m))
             <? wrap64 (Segment.Size (activeSegment (wal m))
                        + pendingSize (wal m)) in
  io_trace (env m')
  = io_trace (env m)
    ++ (if rot then rotationEvents (id (activeSegment (wal m))) else [])
    ++ [EvAppend (id (activeSegment (wal m'))) ps]
  /\ bytesWrite (wal m') = (if rot then 0 else bytesWrite (wal m)).
Proof.
  intros Hne H. destruct (WriteAll_staged m Hne) as (body & Heq & _ & Hok).
  rewrite Heq, defer_eq in H.
  destruct (body m) as [r m1] eqn:Hb. simpl in H.
  assert (r = Ok ps /\ m' = mkMachine (set_pending [] 0 (wal m1)) (env m1))
    as [-> ->] by (inversion H; auto).
  specialize (Hok ps m1 eq_refl). simpl in *. exact Hok.
Qed.

Lemma WriteAll_does_not_sync_witness :
  exists ps m',
    WriteAll (Demo.staged (mkOptions "/tmp/wal" 100 0 ".SEG" true 0) 10)
    = (Ok ps, m')
    /\ io_trace (env m')
       = [EvMkdirAll; EvReadDir; EvOpenSegment 1; EvAppend 1 ps]
    /\ bytesWrite (wal m') = 0.
Proof.
  eexists. eexists. split; [vm_compute; reflexivity |].
  by_instance
    (WriteAll_does_not_sync
       (Demo.staged (mkOptions "/tmp/wal" 100 0 ".SEG" true 0) 10) _ _
       ltac:(vm_compute; discriminate) ltac:(vm_compute; reflexivity)).
Defined.

(** ** OpenNewActiveSegment against the rotation of Write and WriteAll *)

Lemma OpenNewActiveSegment_Ok m u m' :
  OpenNewActiveSegment m = (Ok u, m') ->
  exists seg w',
    m' = mkMachine
           (set_bytesWrite (bytesWrite (wal m)) (wal (rotated m seg w'))) w'
    /\ id seg = wrap32 (id (activeSegment (wal m)) + 1)
    /\ io_trace w' = io_trace (env m)
                     ++ rotationEvents (id (activeSegment (wal m))).
Proof.
  unfold OpenNewActiveSegment. rewrite bind_get_wal. intros H.
  apply bind_Ok in H as (u1 & m2 & Hs & H).
  apply io_Ok in Hs as (w2 & Hs & ->).
  apply bind_Ok in H as (seg & m4 & Ho & H).
  apply io_Ok in Ho as (w4 & Ho & ->). simpl in Ho.
  apply Sync_Ok in Hs. apply openSegmentFile_Ok in Ho as (Hid & _ & Ht).
  exists seg, w4. split; [inversion H; reflexivity |]. split; [assumption |].
  unfold rotationEvents. rewrite Ht, Hs, <- app_assoc. reflexivity.
Qed.

(** The two rotations agree on everything but [bytesWrite], which
    [OpenNewActiveSegment] leaves alone. *)
Lemma OpenNewActiveSegment_against_rotate m m' :
  OpenNewActiveSegment m = (Ok tt, m') ->
  rotateActiveSegment m = (Ok tt, mkMachine (set_bytesWrite 0 (wal m')) (env m'))
  /\ bytesWrite (wal m') = bytesWrite (wal m).
Proof.
  unfold OpenNewActiveSegment, rotateActiveSegment.
  rewrite !bind_get_wal. unfold bind at 1 3.
  unfold io at 1 3.
  destruct (Segment.Sync (activeSegment (wal m)) (env m)) as [[[] | e |] w1];
    try discriminate.
  rewrite bind_update_wal. unfold bind, io. simpl.
  destruct (Segment.openSegmentFile _ w1) as [[seg | e |] w2]; try discriminate.
  unfold update_wal. simpl. intros H. inversion H; subst; clear H. simpl.
  split; reflexivity.
Qed.

(** C7 (code at the failing input).  After one write of 10 bytes that
    did not sync, [bytesWrite] is 17; [OpenNewActiveSegment] succeeds
    and leaves it at 17, where [rotateActiveSegment] resets it to 0. *)
Theorem OpenNewActiveSegment_keeps_bytesWrite :
  let m := Demo.exec (Write (Demo.payload 10)) (Demo.fresh Demo.opts) in
  bytesWrite (wal m) = 17
  /\ fst (OpenNewActiveSegment m) = Ok tt
  /\ bytesWrite (wal (snd (OpenNewActiveSegment m))) = 17
  /\ id (activeSegment (wal (snd (OpenNewActiveSegment m)))) = 2
  /\ fst (rotateActiveSegment m) = Ok tt
  /\ bytesWrite (wal (snd (rotateActiveSegment m))) = 0.
Proof. vm_compute. repeat split; reflexivity. Qed.

(** ** Validation of the options *)

(** C8 (code at the failing input).  With a valid extension, a
    [SegmentSize] of 2^32 + 5 and a [BlockCache] of 100 bytes, [Open]
    fails in its validation, before any system call: line 47 compares
    [BlockCache] with [SegmentSize] cut down to 32 bits, which is 5. *)
Theorem Open_rejects_BlockCache_below_SegmentSize (w : world) :
  let opts := mkOptions "/tmp/wal" 4294967301 100 ".SEG" false 0 in
  BlockCache opts <= SegmentSize opts
  /\ Open opts w = (Err ErrBlockCacheTooLarge, w).
Proof. split; [vm_compute; discriminate | reflexivity]. Qed.

(** The other way round, a negative [SegmentSize] lets any
    [BlockCache] through the validation. *)
Lemma Open_accepts_BlockCache_above_SegmentSize :
  let opts := mkOptions "/tmp/wal" (-1) 100 ".SEG" false 0 in
  SegmentSize opts < BlockCache opts
  /\ exists wal w', Open opts Demo.emptyDir = (Ok wal, w').
Proof. split; [reflexivity | eexists; eexists; vm_compute; reflexivity]. Qed.

(** What the validation of [Open] decides on. *)
Lemma Open_validation (opts : Options) (w : world) :
  (String.prefix "." (DiskFileExtension opts) = false ->
   Open opts w = (Err ErrInvalidExtension, w))
  /\ (String.prefix "." (DiskFileExtension opts) = true ->
      wrap32 (SegmentSize opts) < BlockCache opts ->
      Open opts w = (Err ErrBlockCacheTooLarge, w)).
Proof.
  unfold Open. split.
  - intros ->. reflexivity.
  - intros -> Hlt. simpl.
    replace (wrap32 (SegmentSize opts) <? BlockCache opts) with true
      by (symmetry; apply Z.ltb_lt; assumption).
    reflexivity.
Qed.

(** ** Sorting *)

Section SortByKey.
Context {A : Type} (key : A -> Z).

Let less (a b : A) : bool := key a <? key b.
Let ordered (a b : A) : Prop := key a <= key b.

Lemma insert_Permutation (x : A) (l : list A) :
  Permutation (Sort.insert less x l) (x :: l).
Proof.
  induction l as [| y l IH]; simpl; [reflexivity |].
  destruct (less y x); [| reflexivity].
  rewrite IH. apply perm_swap.
Qed.

Lemma sortBy_Permutation (l : list A) :
  Permutation (Sort.sortBy less l) l.
Proof.
  induction l as [| x l IH]; simpl; [reflexivity |].
  rewrite insert_Permutation, IH. reflexivity.
Qed.

Lemma insert_sorted (x : A) (l : list A) :
  StronglySorted ordered l -> StronglySorted ordered (Sort.insert less x l).
Proof.
  induction l as [| y l IH]; simpl; intros Hs.
  - repeat constructor.
  - inversion Hs as [| ? ? Hl Hy]; subst.
    unfold less at 1. destruct (key y <? key x) eqn:Hlt.
    + apply Z.ltb_lt in Hlt. constructor; [auto |].
      rewrite insert_Permutation. constructor; [unfold ordered; lia | assumption].
    + apply Z.ltb_ge in Hlt. constructor; [assumption |].
      constructor; [assumption |].
      eapply Forall_impl; [exact Hy |]. unfold ordered. intros; simpl in *; lia.
Qed.

Lemma sortBy_sorted (l : list A) :
  StronglySorted ordered (Sort.sortBy less l).
Proof.
  induction l as [| x l IH]; simpl; [constructor | apply insert_sorted, IH].
Qed.

End SortByKey.

(** ** Readers *)

Lemma index_Some {A} (l : list A) (i : Z) (x : A) :
  index l i = Some x <-> 0 <= i /\ l !! Z.to_nat i = Some x.
Proof.
  unfold index. destruct (i <? 0) eqn:Hi.
  - apply Z.ltb_lt in Hi. split; [discriminate | lia].
  - apply Z.ltb_ge in Hi. tauto.
Qed.

Lemma index_in_range {A} (l : list A) (i : Z) :
  0 <= i < len64 l -> exists x, index l i = Some x.
Proof.
  intros [H0 Hlt]. unfold len64 in Hlt.
  destruct (lookup_lt_is_Some_2 l (Z.to_nat i)) as [x Hx]; [lia |].
  exists x. apply index_Some. auto.
Qed.

Lemma index_Some_range {A} (l : list A) (i : Z) (x : A) :
  index l i = Some x -> 0 <= i < len64 l.
Proof.
  intros [H0 Hx]%index_Some. apply lookup_lt_Some in Hx. unfold len64. lia.
Qed.

Lemma weight_drop_lookup (l : list segmentReader) (n : nat) (sr : segmentReader) :
  l !! n = Some sr ->
  weight (drop n l) = (S (length (srPending sr)) + weight (drop (S n) l))%nat.
Proof. intros H. rewrite (drop_S _ _ _ H). reflexivity. Qed.

Lemma remaining_skip r sr :
  index (segmentReaders r) (currentReader r) = Some sr ->
  (remaining (SkipCurrentSegment r) < remaining r)%nat.
Proof.
  intros [H0 Hx]%index_Some. unfold remaining. simpl.
  rewrite (weight_drop_lookup _ _ _ Hx).
  replace (Z.to_nat (currentReader r + 1)) with (S (Z.to_nat (currentReader r)))
    by lia.
  lia.
Qed.

Lemma readerIds_skip r : readerIds (SkipCurrentSegment r) = readerIds r.
Proof. reflexivity. Qed.

Lemma SegmentReader_Next_cases sr :
  (exists chunk sr',
      SegmentReader.Next sr = (Ok chunk, sr')
      /\ srSegment sr' = srSegment sr
      /\ length (srPending sr) = S (length (srPending sr')))
  \/ (exists err, SegmentReader.Next sr = (Err err, sr)).
Proof.
  unfold SegmentReader.Next. destruct (closed (srSegment sr)); [eauto |].
  destruct (srPending sr) as [| rec rest] eqn:Hp; [eauto |].
  destruct (rec_intact rec); [| eauto].
  left. eexists. eexists. split; [reflexivity |]. simpl. auto.
Qed.

(** A successful [Next] stays inside the list, keeps the segments and
    consumes a record. *)
Lemma Next_depth_Ok n : forall r chunk r',
  Next_depth n r = (Ok chunk, r') ->
  0 <= currentReader r <= currentReader r'
  /\ currentReader r' < len64 (segmentReaders r')
  /\ readerIds r' = readerIds r
  /\ (remaining r' < remaining r)%nat.
Proof.
  induction n as [| n IH]; intros r chunk r'; simpl;
    (destruct (len64 (segmentReaders r) <=? currentReader r) eqn:Hlen;
     [discriminate |]);
    (destruct (index (segmentReaders r) (currentReader r)) as [sr |] eqn:Hidx;
     [| discriminate]);
    apply Z.leb_gt in Hlen;
    pose proof Hidx as [H0 Hx]%index_Some;
    (destruct (SegmentReader_Next_cases sr)
       as [(c & sr' & -> & Hseg & Hpend) | (err & ->)]).
  1, 3: intros H; inversion H; subst; clear H; simpl;
        unfold len64, readerIds, remaining; simpl;
        rewrite length_insert, list_fmap_insert, Hseg;
        rewrite list_insert_id by (rewrite list_lookup_fmap, Hx; reflexivity);
        (split; [lia |]); (split; [unfold len64 in Hlen; lia |]);
        (split; [reflexivity |]);
        rewrite (weight_drop_lookup _ _ sr Hx);
        rewrite (weight_drop_lookup _ _ sr')
          by (apply list_lookup_insert_eq; eapply lookup_lt_Some; eauto);
        rewrite drop_insert_lt by lia; lia.
  - destruct err; discriminate.
  - destruct err; try discriminate.
    intros H. apply IH in H as (Hc & Hl & Hids & Hrem). simpl in Hc.
    pose proof (remaining_skip r sr Hidx).
    rewrite readerIds_skip in Hids. repeat split; try lia; assumption.
Qed.

Lemma Next_depth_no_panic n : forall r r',
  0 <= currentReader r ->
  Next_depth n r <> (PanicIndexOutOfRange, r').
Proof.
  induction n as [| n IH]; intros r r' H0; simpl;
    (destruct (len64 (segmentReaders r) <=? currentReader r) eqn:Hlen;
     [discriminate |]);
    apply Z.leb_gt in Hlen;
    (destruct (index_in_range (segmentReaders r) (currentReader r)) as [sr ->];
     [lia |]);
    (destruct (SegmentReader_Next_cases sr)
       as [(c & sr' & -> & _) | (err & ->)]); try discriminate.
  - destruct err; discriminate.
  - destruct err; try discriminate. apply IH. simpl. lia.
Qed.

Lemma Next_Ok r chunk r' :
  Next r = (Ok chunk, r') ->
  0 <= currentReader r <= currentReader r'
  /\ currentReader r' < len64 (segmentReaders r')
  /\ readerIds r' = readerIds r
  /\ (remaining r' < remaining r)%nat.
Proof. apply Next_depth_Ok. Qed.

Lemma Next_no_panic r r' :
  0 <= currentReader r -> Next r <> (PanicIndexOutOfRange, r').
Proof. apply Next_depth_no_panic. Qed.

(** The bound on the depth of [Next] is never the reason it stops:
    any bound that covers the remaining segment readers gives the same
    result. *)
Lemma Next_depth_enough : forall n1 n2 r,
  0 <= currentReader r ->
  len64 (segmentReaders r) <= currentReader r + Z.of_nat n1 ->
  len64 (segmentReaders r) <= currentReader r + Z.of_nat n2 ->
  Next_depth n1 r = Next_depth n2 r.
Proof.
  induction n1 as [| n1 IH]; intros n2 r H0 H1 H2.
  - destruct n2; simpl;
      replace (len64 (segmentReaders r) <=? currentReader r) with true
        by (symmetry; apply Z.leb_le; lia); reflexivity.
  - destruct n2 as [| n2].
    + simpl.
      replace (len64 (segmentReaders r) <=? currentReader r) with true
        by (symmetry; apply Z.leb_le; lia). reflexivity.
    + simpl. destruct (len64 (segmentReaders r) <=? currentReader r); [reflexivity |].
      destruct (index (segmentReaders r) (currentReader r)) as [sr |];
        [| reflexivity].
      destruct (SegmentReader.Next sr) as [[chunk | err |] sr']; try reflexivity.
      destruct err; try reflexivity.
      apply IH; simpl; lia.
Qed.

(** [Next] satisfies the equation of the source (lines 231-242). *)
Lemma Next_unfold r :
  0 <= currentReader r ->
  Next r
  = if len64 (segmentReaders r) <=? currentReader r then (Err EOF, r)
    else
      match index (segmentReaders r) (currentReader r) with
      | None => (PanicIndexOutOfRange, r)
      | Some sr =>
          match SegmentReader.Next sr with
          | (Err EOF, _) => Next (SkipCurrentSegment r)
          | (res, sr') =>
              (res, mkReader (<[Z.to_nat (currentReader r) := sr']> (segmentReaders r))
                             (currentReader r))
          end
      end.
Proof.
  intros H0. unfold Next at 1.
  destruct (length (segmentReaders r)) as [| n] eqn:Hlen.
  - simpl. unfold len64. rewrite Hlen.
    replace (Z.of_nat 0 <=? currentReader r) with true
      by (symmetry; apply Z.leb_le; lia). reflexivity.
  - simpl. destruct (len64 (segmentReaders r) <=? currentReader r); [reflexivity |].
    destruct (index (segmentReaders r) (currentReader r)) as [sr |];
      [| reflexivity].
    destruct (SegmentReader.Next sr) as [[chunk | err |] sr']; try reflexivity.
    destruct err; try reflexivity.
    unfold Next. apply Next_depth_enough; simpl; unfold len64; lia.
Qed.

Lemma current_of_index r sr :
  index (segmentReaders r) (currentReader r) = Some sr ->
  CurrentSegmentId r = Ok (id (srSegment sr))
  /\ CurrentChunkPosition r
     = Ok (mkPos (id (srSegment sr)) (blockNumber sr) (chunkOffset sr) 0)
  /\ drop (Z.to_nat (currentReader r)) (readerIds r)
     = id (srSegment sr) :: drop (Z.to_nat (currentReader r + 1)) (readerIds r).
Proof.
  intros Hidx. unfold CurrentSegmentId, CurrentChunkPosition. rewrite Hidx.
  apply index_Some in Hidx as [H0 Hx]. repeat split.
  replace (Z.to_nat (currentReader r + 1)) with (S (Z.to_nat (currentReader r)))
    by lia.
  apply drop_S. unfold readerIds. rewrite list_lookup_fmap, Hx. reflexivity.
Qed.

Lemma drop_readerIds_mono (ids : list Z) (P : Z -> Prop) (a b : Z) :
  0 <= a <= b ->
  Forall P (drop (Z.to_nat a) ids) -> Forall P (drop (Z.to_nat b) ids).
Proof.
  intros Hab H.
  replace (Z.to_nat b) with (Z.to_nat a + (Z.to_nat b - Z.to_nat a))%nat by lia.
  rewrite <- drop_drop. apply Forall_drop, H.
Qed.

(** The loop of [NewReaderWithStart] always comes to an end within
    its budget. *)
Lemma seekStart_terminates startPos : forall fuel r,
  (remaining r < fuel)%nat ->
  exists res, seekStart fuel startPos r = Some res.
Proof.
  induction fuel as [| fuel IH]; intros r Hrem; [lia |]. simpl.
  unfold CurrentSegmentId, CurrentChunkPosition.
  destruct (index (segmentReaders r) (currentReader r)) as [sr |] eqn:Hidx;
    [| eauto].
  destruct (id (srSegment sr) <? SegmentId startPos).
  - apply IH. pose proof (remaining_skip r sr Hidx). lia.
  - destruct (_ && _); [eauto |].
    destruct (Next r) as [[chunk | err |] r'] eqn:HN; [| destruct err; eauto | eauto].
    apply IH. apply Next_Ok in HN as (_ & _ & _ & Hlt). lia.
Qed.

(** Second phase of the loop: every segment from the current one on
    has an id at or above the one asked for. *)
Lemma seekStart_advance startPos : forall fuel r,
  (remaining r < fuel)%nat ->
  0 <= currentReader r < len64 (segmentReaders r) ->
  Forall (fun i => SegmentId startPos <= i)
         (drop (Z.to_nat (currentReader r)) (readerIds r)) ->
  exists res,
    seekStart fuel startPos r = Some res
    /\ SpecAdvance startPos r res
    /\ res <> PanicIndexOutOfRange.
Proof.
  induction fuel as [| fuel IH]; intros r Hrem Hcur Hall; [lia |].
  destruct (index_in_range _ _ Hcur) as [sr Hidx].
  destruct (current_of_index r sr Hidx) as (Hsid & Hpos & Hdrop).
  simpl. rewrite Hsid, Hpos.
  rewrite Hdrop in Hall. inversion Hall as [| ? ? Hhead Htail]; subst.
  replace (id (srSegment sr) <? SegmentId startPos) with false
    by (symmetry; apply Z.ltb_ge; assumption).
  change (_ && _) with
    (reached startPos (mkPos (id (srSegment sr)) (blockNumber sr) (chunkOffset sr) 0)).
  destruct (reached startPos _) eqn:Hreached.
  - eexists. split; [reflexivity |]. split; [| discriminate].
    eapply advance_reached; eassumption.
  - destruct (Next r) as [[chunk | err |] r'] eqn:HN.
    + pose proof (Next_Ok _ _ _ HN) as (Hc & Hl & Hids & Hlt).
      destruct (IH r') as (res & Hres & Hspec & Hnp).
      * lia.
      * lia.
      * rewrite Hids. eapply drop_readerIds_mono; [exact Hc |].
        rewrite Hdrop. assumption.
      * exists res. split; [assumption |]. split; [| assumption].
        eapply advance_next; eassumption.
    + destruct err;
        (eexists; split; [reflexivity |]; split; [| discriminate]);
        first [ eapply advance_eof; eassumption
              | eapply advance_error; [eassumption .. | discriminate] ].
    + exfalso. eapply Next_no_panic; [| exact HN]. lia.
Qed.

(** The whole loop on a reader whose segments are in ascending order
    of id and hold one at or above the id asked for. *)
Lemma seekStart_refines startPos : forall fuel r,
  (remaining r < fuel)%nat ->
  0 <= currentReader r ->
  StronglySorted Z.le (drop (Z.to_nat (currentReader r)) (readerIds r)) ->
  Exists (fun i => SegmentId startPos <= i)
         (drop (Z.to_nat (currentReader r)) (readerIds r)) ->
  exists res,
    seekStart fuel startPos r = Some res
    /\ SpecSeek startPos r res
    /\ res <> PanicIndexOutOfRange.
Proof.
  induction fuel as [| fuel IH]; intros r Hrem Hcur Hsorted Hex; [lia |].
  assert (Hin : 0 <= currentReader r < len64 (segmentReaders r)).
  { split; [assumption |]. unfold len64.
    destruct (decide (Z.to_nat (currentReader r) < length (readerIds r))%nat)
      as [Hlt | Hge].
    - unfold readerIds in Hlt. rewrite length_fmap in Hlt. lia.
    - rewrite drop_ge in Hex by lia. inversion Hex. }
  destruct (index_in_range _ _ Hin) as [sr Hidx].
  destruct (current_of_index r sr Hidx) as (Hsid & Hpos & Hdrop).
  rewrite Hdrop in Hsorted, Hex.
  apply StronglySorted_inv in Hsorted as [Htail Hhead].
  destruct (Z.ltb_spec (id (srSegment sr)) (SegmentId startPos)) as [Hlt | Hge].
  - destruct (IH (SkipCurrentSegment r)) as (res & Hres & Hspec & Hnp).
    + pose proof (remaining_skip r sr Hidx). lia.
    + simpl. lia.
    + assumption.
    + inversion Hex; subst; [lia | assumption].
    + exists res. split; [| split; [| assumption]].
      * simpl. rewrite Hsid.
        replace (id (srSegment sr) <? SegmentId startPos) with true
          by (symmetry; apply Z.ltb_lt; assumption).
        exact Hres.
      * eapply seek_skip; eassumption.
  - destruct (seekStart_advance startPos (S fuel) r Hrem Hin)
      as (res & Hres & Hspec & Hnp).
    + rewrite Hdrop. constructor; [assumption |].
      eapply Forall_impl; [exact Hhead |]. simpl. intros; lia.
    + exists res. split; [assumption |]. split; [| assumption].
      eapply seek_advance; eassumption.
Qed.

Lemma weight_length l : (length l <= weight l)%nat.
Proof. induction l as [| sr l IH]; simpl; lia. Qed.

Lemma seekBudget_enough r :
  currentReader r = 0 -> (remaining r < seekBudget r)%nat.
Proof.
  intros H. unfold remaining, seekBudget. rewrite H.
  change (Z.to_nat 0) with O. rewrite drop_0. lia.
Qed.

(** The reader that [NewReader] builds: at the first segment reader,
    the segments in ascending order of id, every segment of the WAL
    among them. *)
Lemma NewReader_shape (w : WAL) (e : world) :
  currentReader (NewReader w e) = 0
  /\ StronglySorted Z.le (readerIds (NewReader w e))
  /\ forall i : Z,
       i ∈ readerIds (NewReader w e)
       <-> i = id (activeSegment w)
           \/ exists k seg, olderSegments w !! k = Some seg /\ i = id seg.
Proof.
  unfold NewReader, NewReaderWithMax, readerIds. simpl.
  set (key := fun sr : segmentReader => id (srSegment sr)).
  split; [reflexivity |]. split.
  - eapply StronglySorted_fmap; [| apply (sortBy_sorted key)].
    intros x y Hxy. exact Hxy.
  - intros i.
    match goal with
    | |- context [Sort.sortBy ?less ?l] =>
        assert (Hperm : Permutation (Sort.sortBy less l) l)
          by apply (sortBy_Permutation key)
    end.
    rewrite Hperm, list_elem_of_fmap. split.
    + intros (sr & -> & Hin). apply list_elem_of_In, in_app_or in Hin as [Hin | Hin].
      * right. apply in_map_iff in Hin as (seg & <- & Hin).
        apply filter_In in Hin as [Hin _].
        apply in_map_iff in Hin as ([k seg'] & <- & Hin).
        apply list_elem_of_In, elem_of_map_to_list in Hin. eauto.
      * left. destruct Hin as [<- | []]. reflexivity.
    + intros [-> | (k & seg & Hk & ->)].
      * exists (SegmentReader.NewReader (activeSegment w) e).
        split; [reflexivity |]. apply list_elem_of_In, in_or_app. right. left.
        reflexivity.
      * exists (SegmentReader.NewReader seg e). split; [reflexivity |].
        apply list_elem_of_In, in_or_app. left.
        apply in_map_iff. exists seg. split; [reflexivity |].
        apply filter_In. split; [| reflexivity].
        apply in_map_iff. exists (k, seg). split; [reflexivity |].
        apply list_elem_of_In, elem_of_map_to_list. assumption.
Qed.

(** [NewReaderWithStart] never runs out of its budget. *)
Lemma NewReaderWithStart_terminates startPos w e :
  exists res, NewReaderWithStart startPos w e = Some res.
Proof.
  destruct startPos as [startPos |]; unfold NewReaderWithStart; [| eauto].
  apply seekStart_terminates, seekBudget_enough.
  apply (NewReader_shape w e).
Qed.

(** C6, as amended.  When the WAL holds a segment whose id is at or
    above [SegmentId startPos], [NewReaderWithStart] ends within its
    budget and does what the specification says, on the reader that
    [NewReader] builds: it skips whole segment readers while the id of
    the current segment is below [SegmentId startPos], then calls
    [Next] until the cursor has [reached] the block number and the
    chunk offset of [startPos] or [Next] reports [EOF], and returns the
    reader as it then stands; an error of [Next] other than [EOF] is
    returned instead. *)
Theorem NewReaderWithStart_follows_spec
    (startPos : ChunkPosition) (w : WAL) (e : world) :
  (SegmentId startPos <= id (activeSegment w)
   \/ exists k seg, olderSegments w !! k = Some seg
                    /\ SegmentId startPos <= id seg) ->
  exists res,
    NewReaderWithStart (Some startPos) w e = Some res
    /\ SpecSeek startPos (NewReader w e) res
    /\ res <> PanicIndexOutOfRange.
Proof.
  intros Hseg. unfold NewReaderWithStart.
  destruct (NewReader_shape w e) as (Hcur & Hsorted & Hids).
  apply seekStart_refines.
  - apply seekBudget_enough, Hcur.
  - lia.
  - rewrite Hcur. exact Hsorted.
  - rewrite Hcur. simpl. apply Exists_exists.
    destruct Hseg as [Ha | (k & seg & Hk & Hs)].
    + exists (id (activeSegment w)). split; [apply Hids; auto | assumption].
    + exists (id seg). split; [apply Hids; eauto | assumption].
Qed.

Lemma NewReaderWithStart_follows_spec_witness :
  exists res,
    NewReaderWithStart (Some (mkPos 1 0 17 0))
      (wal (Demo.exec (Write (Demo.payload 10))
              (Demo.exec (Write (Demo.payload 10)) (Demo.fresh Demo.opts))))
      (env (Demo.exec (Write (Demo.payload 10))
              (Demo.exec (Write (Demo.payload 10)) (Demo.fresh Demo.opts))))
    = Some res
    /\ SpecSeek (mkPos 1 0 17 0)
         (NewReader
            (wal (Demo.exec (Write (Demo.payload 10))
                    (Demo.exec (Write (Demo.payload 10)) (Demo.fresh Demo.opts))))
            (env (Demo.exec (Write (Demo.payload 10))
                    (Demo.exec (Write (Demo.payload 10)) (Demo.fresh Demo.opts)))))
         res
    /\ res <> PanicIndexOutOfRange.
Proof.
  apply NewReaderWithStart_follows_spec. left. vm_compute. discriminate.
Defined.

(** C6, counterexample to the claim as it stands.  The only segment
    holds a record with a broken checksum; asked to start at block 1 of
    that segment, [NewReaderWithStart] calls [Next] once and returns
    its error: no reader is returned. *)
Lemma NewReaderWithStart_returns_error :
  Open Demo.opts Demo.corruptDir = (Ok Demo.corruptWAL, Demo.corruptWorld)
  /\ NewReaderWithStart (Some (mkPos 1 1 0 0)) Demo.corruptWAL Demo.corruptWorld
     = Some (Err ErrCorruptChunk)
  /\ ~ exists reader,
         NewReaderWithStart (Some (mkPos 1 1 0 0)) Demo.corruptWAL Demo.corruptWorld
         = Some (Ok reader).
Proof.
  split; [vm_compute; reflexivity |].
  assert (H : NewReaderWithStart (Some (mkPos 1 1 0 0))
                Demo.corruptWAL Demo.corruptWorld
              = Some (Err ErrCorruptChunk)) by (vm_compute; reflexivity).
  split; [exact H |]. intros [reader Hr]. rewrite H in Hr. discriminate.
Qed.

(** ** The index past the last segment reader *)

Lemma seekStart_below startPos : forall fuel r,
  (length (drop (Z.to_nat (currentReader r)) (segmentReaders r)) < fuel)%nat ->
  0 <= currentReader r ->
  Forall (fun i => i < SegmentId startPos)
         (drop (Z.to_nat (currentReader r)) (readerIds r)) ->
  seekStart fuel startPos r = Some PanicIndexOutOfRange.
Proof.
  induction fuel as [| fuel IH]; intros r Hfuel Hcur Hall; [lia |]. simpl.
  destruct (index (segmentReaders r) (currentReader r)) as [sr |] eqn:Hidx.
  - destruct (current_of_index r sr Hidx) as (Hsid & _ & Hdrop).
    rewrite Hsid. rewrite Hdrop in Hall.
    inversion Hall as [| ? ? Hhead Htail]; subst.
    replace (id (srSegment sr) <? SegmentId startPos) with true
      by (symmetry; apply Z.ltb_lt; assumption).
    apply IH; simpl; [| lia | assumption].
    apply index_Some in Hidx as [_ Hx]. rewrite (drop_S _ _ _ Hx) in Hfuel.
    replace (Z.to_nat (currentReader r + 1))
      with (S (Z.to_nat (currentReader r))) by lia.
    simpl in Hfuel. lia.
  - unfold CurrentSegmentId. rewrite Hidx. reflexivity.
Qed.

(** Whenever every segment of the WAL has an id below the one asked
    for, the loop skips them all and then reads the id of the segment
    reader at index [len(segmentReaders)]. *)
Lemma NewReaderWithStart_panics (startPos : ChunkPosition) (w : WAL) (e : world) :
  id (activeSegment w) < SegmentId startPos ->
  (forall k seg, olderSegments w !! k = Some seg -> id seg < SegmentId startPos) ->
  NewReaderWithStart (Some startPos) w e = Some PanicIndexOutOfRange.
Proof.
  intros Hact Hold. unfold NewReaderWithStart.
  destruct (NewReader_shape w e) as (Hcur & _ & Hids).
  apply seekStart_below; rewrite Hcur;
    change (Z.to_nat 0) with O; rewrite ?drop_0.
  - unfold seekBudget.
    pose proof (weight_length (segmentReaders (NewReader w e))). lia.
  - lia.
  - apply Forall_forall. intros i [-> | (k & seg & Hk & ->)]%Hids; eauto.
Qed.

(** C10 (code at the failing input).  On a WAL with the single segment
    1, holding one record, a start position in segment 2 makes
    [NewReaderWithStart] skip segment 1 and then index
    [segmentReaders] at its length: the call panics. *)
Theorem NewReaderWithStart_index_out_of_range :
  let m := Demo.exec (Write (Demo.payload 10)) (Demo.fresh Demo.opts) in
  id (activeSegment (wal m)) = 1
  /\ olderSegments (wal m) = ∅
  /\ NewReaderWithStart (Some (mkPos 2 0 0 0)) (wal m) (env m)
     = Some PanicIndexOutOfRange.
Proof. vm_compute. repeat split; reflexivity. Qed.

(** ** The ids of the segments along a run *)

Lemma rotateActiveSegment_segments m :
  keepsSegments (wal m) (wal (snd (rotateActiveSegment m)))
  \/ rotatesSegments (wal m) (wal (snd (rotateActiveSegment m))).
Proof.
  unfold rotateActiveSegment, bind, get_wal, io, update_wal.
  destruct (Segment.Sync (activeSegment (wal m)) (env m)) as [[u | e |] w1];
    simpl; try (left; split; reflexivity).
  destruct (Segment.openSegmentFile _ w1) as [[seg | e |] w2] eqn:Ho;
    simpl; try (left; split; reflexivity).
  apply openSegmentFile_Ok in Ho as (Hid & _). right. split; [exact Hid | reflexivity].
Qed.

Lemma OpenNewActiveSegment_segments m :
  keepsSegments (wal m) (wal (snd (OpenNewActiveSegment m)))
  \/ rotatesSegments (wal m) (wal (snd (OpenNewActiveSegment m))).
Proof.
  unfold OpenNewActiveSegment, bind, get_wal, io, update_wal.
  destruct (Segment.Sync (activeSegment (wal m)) (env m)) as [[u | e |] w1];
    simpl; try (left; split; reflexivity).
  destruct (Segment.openSegmentFile _ w1) as [[seg | e |] w2] eqn:Ho;
    simpl; try (left; split; reflexivity).
  apply openSegmentFile_Ok in Ho as (Hid & _). right. split; [exact Hid | reflexivity].
Qed.

Lemma keepsSegments_refl w : keepsSegments w w.
Proof. split; reflexivity. Qed.

Lemma segments_then_keeps w w1 w2 :
  keepsSegments w w1 \/ rotatesSegments w w1 ->
  keepsSegments w1 w2 ->
  keepsSegments w w2 \/ rotatesSegments w w2.
Proof.
  unfold keepsSegments, rotatesSegments.
  intros [[Ha Ho] | [Ha Ho]] [Ha' Ho']; [left | right]; split; congruence.
Qed.

(** What follows the rotation test in [Write]: the append, the
    counter, the sync.  None of it changes which segments there are. *)
Lemma Write_tail_keeps (data : list byte) (k : ChunkPosition -> M ChunkPosition)
    (m : machine) :
  (forall pos m1, wal (snd (k pos m1)) = wal m1
                  \/ wal (snd (k pos m1)) = set_bytesWrite 0 (wal m1)) ->
  keepsSegments (wal m)
    (wal (snd (bind (io (Segment.Write (activeSegment (wal m)) data))
                 (fun r =>
                    let* _ := update_wal (set_activeSegment (snd r)) in
                    let* _ := update_wal (fun w =>
                      set_bytesWrite (wrap32 (bytesWrite w + ChunkSize (fst r))) w) in
                    k (fst r)) m))).
Proof.
  intros Hk. unfold bind at 1. unfold io.
  destruct (Segment.Write (activeSegment (wal m)) data (env m))
    as [[r | e |] w1] eqn:Hw; simpl; try apply keepsSegments_refl.
  apply Segment_Write_Ok in Hw as (Hid & _).
  rewrite !bind_update_wal.
  match goal with
  | |- context [k (fst r) ?m1] => destruct (Hk (fst r) m1) as [-> | ->]
  end; simpl; split; auto.
Qed.

Lemma bind_cases {S A B} (c : ST S A) (k : A -> ST S B) (s : S) :
  (exists a s1, c s = (Ok a, s1) /\ bind c k s = k a s1)
  \/ snd (bind c k s) = snd (c s).
Proof.
  unfold bind. destruct (c s) as [[a | e |] s1]; [left; eauto | right .. ];
    reflexivity.
Qed.

Lemma when_rotate_segments (b : bool) m :
  keepsSegments (wal m) (wal (snd (when b rotateActiveSegment m)))
  \/ rotatesSegments (wal m) (wal (snd (when b rotateActiveSegment m))).
Proof.
  destruct b; [apply rotateActiveSegment_segments | left; apply keepsSegments_refl].
Qed.

Lemma Write_segments data m :
  keepsSegments (wal m) (wal (snd (Write data m)))
  \/ rotatesSegments (wal m) (wal (snd (Write data m))).
Proof.
  unfold Write. rewrite bind_get_wal.
  destruct (SegmentSize (options (wal m)) <? wrap64 (len64 data + chunkHeaderSize));
    [left; apply keepsSegments_refl |].
  pose proof (when_rotate_segments (isFull (wal m) (len64 data)) m) as Hrot.
  match goal with
  | |- context [bind ?c ?k m] =>
      destruct (bind_cases c k m) as [(u & m1 & Hc & ->) | ->]
  end; [| exact Hrot].
  rewrite Hc in Hrot. simpl in Hrot.
  rewrite bind_get_wal.
  eapply segments_then_keeps; [exact Hrot |].
  apply (Write_tail_keeps data
           (fun position =>
              let* w := get_wal in
              let needSync := DiskFlushSync (options w) in
              let needSync :=
                if negb needSync && (0 <? BytesPerSync (options w))
                then BytesPerSync (options w) <=? bytesWrite w
                else needSync in
              let* _ := when needSync
                (let* _ := io (Segment.Sync (activeSegment w)) in
                 update_wal (set_bytesWrite 0)) in
              ret position)).
  intros pos m2. rewrite bind_get_wal. simpl.
  destruct (if negb (DiskFlushSync (options (wal m2)))
               && (0 <? BytesPerSync (options (wal m2)))
            then BytesPerSync (options (wal m2)) <=? bytesWrite (wal m2)
            else DiskFlushSync (options (wal m2))); simpl; [| auto].
  unfold bind, io, update_wal.
  destruct (Segment.Sync (activeSegment (wal m2)) (env m2)) as [[u' | e |] w3];
    simpl; auto.
Qed.

Lemma WriteAll_segments m :
  keepsSegments (wal m) (wal (snd (WriteAll m)))
  \/ rotatesSegments (wal m) (wal (snd (WriteAll m))).
Proof.
  unfold WriteAll. rewrite bind_get_wal.
  destruct (length (pendingWrites (wal m)) =? 0)%nat;
    [left; apply keepsSegments_refl |].
  rewrite defer_eq.
  match goal with
  | |- context [ClearPendingWrites (snd (?body m))] =>
      apply (segments_then_keeps _ (wal (snd (body m)))); [| split; reflexivity]
  end.
  rewrite bind_get_wal.
  destruct (SegmentSize (options (wal m)) <? pendingSize (wal m));
    [left; apply keepsSegments_refl |].
  match goal with
  | |- context [bind (when ?b _) ?k m] =>
      pose proof (when_rotate_segments b m) as Hrot;
      destruct (bind_cases (when b rotateActiveSegment) k m)
        as [(u & m1 & Hc & ->) | ->]
  end; [| exact Hrot].
  rewrite Hc in Hrot. simpl in Hrot.
  rewrite bind_get_wal.
  eapply segments_then_keeps; [exact Hrot |].
  unfold bind at 1. unfold io.
  destruct (Segment.writeAll (activeSegment (wal m1)) (pendingWrites (wal m1)) (env m1))
    as [[r | e |] w1] eqn:Hw; simpl; try apply keepsSegments_refl.
  apply Segment_writeAll_Ok in Hw as (Hid & _). split; auto.
Qed.

Lemma step_segments m o :
  keepsSegments (wal m) (wal (step m o))
  \/ rotatesSegments (wal m) (wal (step m o)).
Proof.
  destruct o; simpl.
  - apply Write_segments.
  - apply WriteAll_segments.
  - left. split; reflexivity.
  - left. split; reflexivity.
  - apply OpenNewActiveSegment_segments.
Qed.

Lemma segmentsInOrder_highest w : segmentsInOrder w -> activeIsHighest w.
Proof.
  intros [_ H] k seg Hk. destruct (H k seg Hk) as [-> Hlt]. auto.
Qed.

Lemma step_in_order m o :
  segmentsInOrder (wal m) ->
  id (activeSegment (wal m)) < max_uint32 ->
  segmentsInOrder (wal (step m o))
  /\ id (activeSegment (wal (step m o))) <= id (activeSegment (wal m)) + 1.
Proof.
  intros [H0 Hold] Hmax.
  destruct (step_segments m o) as [[Ha Ho] | [Ha Ho]].
  - split; [| lia]. split; [lia |]. rewrite Ho, Ha. exact Hold.
  - rewrite wrap32_small in Ha by (unfold max_uint32 in *; lia).
    split; [| lia]. split; [lia |]. rewrite Ho, Ha. intros k seg Hk.
    destruct (decide (k = id (activeSegment (wal m)))) as [-> | Hne].
    + rewrite lookup_insert_eq in Hk. inversion Hk; subst. split; [reflexivity | lia].
    + rewrite lookup_insert_ne in Hk by congruence.
      destruct (Hold k seg Hk). split; [assumption | lia].
Qed.

Lemma run_in_order : forall ops m,
  segmentsInOrder (wal m) ->
  id (activeSegment (wal m)) + Z.of_nat (length ops) <= max_uint32 ->
  segmentsInOrder (wal (run ops m)).
Proof.
  induction ops as [| o ops IH]; intros m Hinv Hmax; [exact Hinv |].
  simpl in *. destruct (step_in_order m o Hinv) as [Hinv' Hid]; [lia |].
  apply IH; [assumption | lia].
Qed.

(** ** Scanning file names *)

Lemma decode_size_pos (s0 : Z) (tail : list Z) :
  (1 <= snd (Utf8.DecodeRuneInString (s0 :: tail)))%nat.
Proof.
  unfold Utf8.DecodeRuneInString.
  destruct (Utf8.first s0) as [| | size lo hi]; simpl; try lia.
  destruct (_ <? size)%nat; simpl; [lia |].
  destruct tail as [| s1 tail1]; simpl; [lia |].
  destruct (negb _); simpl; [lia |].
  destruct (size <=? 2)%nat; simpl; [lia |].
  destruct tail1 as [| s2 tail2]; simpl; [lia |].
  destruct (negb _); simpl; [lia |].
  destruct (size <=? 3)%nat; simpl; [lia |].
  destruct tail2 as [| s3 tail3]; simpl; [lia |].
  destruct (negb _); simpl; lia.
Qed.

Lemma dropBytes_length : forall n s,
  String.length (Scan.dropBytes n s) = (String.length s - n)%nat.
Proof.
  induction n as [| n IH]; intros s; simpl; [lia |].
  destruct s as [| c s]; simpl; [reflexivity | apply IH].
Qed.

(** The bound on the turns of the loop of [SkipSpace] is never what
    ends it. *)
Lemma skipSpaceLoop_fuel : forall n m s,
  (String.length s <= n)%nat -> (String.length s <= m)%nat ->
  Scan.skipSpaceLoop n s = Scan.skipSpaceLoop m s.
Proof.
  induction n as [| n IH]; intros m s Hn Hm.
  - destruct s; [destruct m; reflexivity | simpl in Hn; lia].
  - destruct s as [| c s]; [destruct m; reflexivity |].
    destruct m as [| m]; [simpl in Hm; lia |].
    cbn [Scan.skipSpaceLoop].
    pose proof (decode_size_pos (Z.of_nat (Scan.code c))
                  (Scan.bytes s)) as Hsize.
    change (Scan.bytes (String c s))
      with (Z.of_nat (Scan.code c) :: Scan.bytes s).
    destruct (Utf8.DecodeRuneInString (Z.of_nat (Scan.code c) :: Scan.bytes s))
      as [r size].
    simpl in Hsize.
    assert (Hrest : (String.length (Scan.dropBytes size (String c s))
                     <= String.length s)%nat)
      by (rewrite dropBytes_length; simpl; lia).
    simpl in Hn, Hm.
    rewrite (IH m (Scan.dropBytes size (String c s))) by lia.
    reflexivity.
Qed.

Lemma digit_is_plain c :
  Scan.isDigit c = true ->
  Scan.isSign c = false
  /\ forall s, Scan.skipSpace (String c s) = Some (String c s).
Proof.
  destruct c as [[] [] [] [] [] [] [] []]; intros H; try discriminate H;
    (split; [reflexivity | intros s; reflexivity]).
Qed.

Lemma scanNumber_digits : forall s tok rest,
  Scan.scanNumber s = (tok, rest) -> forallb Scan.isDigit tok = true.
Proof.
  induction s as [| c s IH]; simpl; intros tok rest H.
  - inversion H; reflexivity.
  - destruct (Scan.isDigit c) eqn:Hc.
    + destruct (Scan.scanNumber s) as [tok' rest'] eqn:Hs. inversion H; subst.
      simpl. rewrite Hc. eapply IH. reflexivity.
    + inversion H; reflexivity.
Qed.

Lemma digitsValue_nonneg : forall tok acc,
  0 <= acc ->
  0 <= fold_left (fun acc c => 10 * acc + (Z.of_nat (Scan.code c) - 48)) tok acc
  \/ forallb Scan.isDigit tok = false.
Proof.
  induction tok as [| c tok IH]; simpl; intros acc Hacc; [auto |].
  destruct (Scan.isDigit c) eqn:Hc; [| auto]. simpl. apply IH.
  unfold Scan.isDigit in Hc. apply andb_prop in Hc as [H1 _].
  apply Nat.leb_le in H1. lia.
Qed.

Lemma prefix_refl : forall s, String.prefix s s = true.
Proof.
  induction s as [| c s IH]; simpl; [reflexivity |].
  destruct (ascii_dec c c); [assumption | congruence].
Qed.

(** A name that matches the pattern of the specification, with a
    number that an [int64] holds, is scanned to that number. *)
Lemma Sscanf_d_on_pattern (ext name : string) (v : Z) :
  specSegmentId ext name = Some v ->
  v <= max_int64 ->
  Scan.Sscanf_d name ext = Some v.
Proof.
  unfold specSegmentId. intros Hspec Hmax.
  destruct (Scan.scanNumber name) as [tok rest] eqn:Hscan.
  destruct tok as [| d tok]; [discriminate |].
  destruct (String.eqb rest ext) eqn:Heq; [| discriminate].
  apply String.eqb_eq in Heq. subst rest. inversion Hspec; subst; clear Hspec.
  pose proof (scanNumber_digits _ _ _ Hscan) as Hdigits.
  destruct name as [| c name']; [discriminate |].
  assert (Hc : Scan.isDigit c = true /\ c = d).
  { simpl in Hscan. destruct (Scan.isDigit c); [| discriminate].
    destruct (Scan.scanNumber name'). inversion Hscan. auto. }
  destruct Hc as [Hc ->].
  destruct (digit_is_plain d Hc) as (Hsg & Hskip).
  unfold Scan.Sscanf_d. rewrite Hskip, Hsg, Hscan.
  unfold Scan.parseInt.
  destruct (digitsValue_nonneg (d :: tok) 0 ltac:(lia)) as [Hpos | Hno];
    [| congruence].
  fold (Scan.digitsValue (d :: tok)) in Hpos.
  replace ((min_int64 <=? Scan.digitsValue (d :: tok))
           && (Scan.digitsValue (d :: tok) <=? max_int64)) with true.
  - rewrite prefix_refl. reflexivity.
  - symmetry. apply andb_true_intro.
    split; apply Z.leb_le; [unfold min_int64; lia | assumption].
Qed.

(** ** Open *)

Lemma openSegments_eq segId rest older :
  openSegments segId rest older
  = (let* seg := Segment.openSegmentFile (wrap32 segId) in
     match rest with
     | [] => ret (seg, older)
     | next :: rest' => openSegments next rest' (<[id seg := seg]> older)
     end).
Proof. destruct rest; reflexivity. Qed.

Lemma last_cons {A} : forall (l : list A) (a d : A),
  List.last (a :: l) d = List.last l a.
Proof.
  induction l as [| b l IH]; intros a d; [reflexivity |].
  change (List.last (a :: b :: l) d) with (List.last (b :: l) d).
  rewrite !IH. reflexivity.
Qed.

(** The ids that go into the map: all but the last. *)
Lemma openSegments_Ok : forall rest segId older w r w',
  openSegments segId rest older w = (Ok r, w') ->
  id (fst r) = wrap32 (List.last rest segId)
  /\ (forall k seg, snd r !! k = Some seg ->
        older !! k = Some seg
        \/ (id seg = k /\ k ∈ wrap32 <$> removelast (segId :: rest)))
  /\ (forall k, k ∈ wrap32 <$> removelast (segId :: rest) -> is_Some (snd r !! k))
  /\ (forall k, is_Some (older !! k) -> is_Some (snd r !! k)).
Proof.
  induction rest as [| next rest IH]; intros segId older w r w' H;
    rewrite openSegments_eq in H;
    apply bind_Ok in H as (seg & w1 & Ho & H);
    apply openSegmentFile_Ok in Ho as (Hid & _).
  - inversion H; subst; clear H. simpl. repeat split; auto.
    intros k Hk. inversion Hk.
  - apply IH in H as (Hlast & Hfrom & Hnew & Hkeep).
    change (removelast (segId :: next :: rest))
      with (segId :: removelast (next :: rest)).
    rewrite fmap_cons. repeat split.
    + rewrite last_cons. exact Hlast.
    + intros k seg' Hk. destruct (Hfrom k seg' Hk) as [Hins | [Hk1 Hk2]].
      * destruct (decide (k = id seg)) as [-> | Hne].
        -- rewrite lookup_insert_eq in Hins. inversion Hins; subst.
           right. split; [reflexivity |]. rewrite Hid. left.
        -- rewrite lookup_insert_ne in Hins by congruence. auto.
      * right. split; [assumption | right; assumption].
    + intros k [-> | Hk]%elem_of_cons.
      * apply Hkeep. rewrite <- Hid, lookup_insert_eq. eauto.
      * apply Hnew, Hk.
    + intros k Hk. apply Hkeep.
      destruct (decide (k = id seg)) as [-> | Hne];
        [rewrite lookup_insert_eq; eauto | rewrite lookup_insert_ne by congruence; exact Hk].
Qed.

Lemma openSegmentFile_no_fault sid w :
  io_faults w = [] ->
  exists seg w', Segment.openSegmentFile sid w = (Ok seg, w') /\ io_faults w' = [].
Proof.
  intros Hf. unfold Segment.openSegmentFile. rewrite (take_fault_exhausted w Hf).
  eexists. eexists. split; [reflexivity | exact Hf].
Qed.

Lemma openSegments_no_fault : forall rest segId older w,
  io_faults w = [] ->
  exists r w', openSegments segId rest older w = (Ok r, w').
Proof.
  induction rest as [| next rest IH]; intros segId older w Hf;
    rewrite openSegments_eq;
    destruct (openSegmentFile_no_fault (wrap32 segId) w Hf) as (seg & w1 & Ho & Hf1);
    rewrite (bind_Ok_intro _ _ _ _ _ Ho).
  - eexists. eexists. reflexivity.
  - apply IH, Hf1.
Qed.

(** What [Open] has built when it returns a WAL. *)
Lemma Open_Ok opts w wal0 w0 :
  Open opts w = (Ok wal0, w0) ->
  options wal0 = opts
  /\ match Sort.Ints (segmentIDs (DiskFileExtension opts) (dir_entries w)) with
     | [] =>
         id (activeSegment wal0) = initialSegmentFileID
         /\ olderSegments wal0 = ∅
     | segId :: rest =>
         id (activeSegment wal0) = wrap32 (List.last rest segId)
         /\ (forall k seg, olderSegments wal0 !! k = Some seg -> id seg = k)
         /\ (forall k, is_Some (olderSegments wal0 !! k)
                       <-> k ∈ wrap32 <$> removelast (segId :: rest))
     end.
Proof.
  unfold Open.
  destruct (negb (String.prefix "." (DiskFileExtension opts))); [discriminate |].
  destruct (wrap32 (SegmentSize opts) <? BlockCache opts); [discriminate |].
  intros H. apply bind_Ok in H as (u & w1 & Hmk & H).
  apply bind_Ok in H as (entries & w2 & Hrd & H).
  assert (Hentries : entries = dir_entries w).
  { unfold syscall in Hmk. unfold readDir in Hrd.
    destruct (take_fault w) as [f1 w1'] eqn:Hf1.
    destruct f1; [discriminate |]. inversion Hmk; subst; clear Hmk.
    destruct (take_fault (log_event EvMkdirAll w1')) as [f2 w2'] eqn:Hf2.
    destruct f2; [discriminate |]. inversion Hrd; subst; clear Hrd.
    apply take_fault_frame in Hf1 as (_ & _ & Hd1).
    apply take_fault_frame in Hf2 as (_ & _ & Hd2).
    rewrite Hd2. simpl. exact Hd1. }
  subst entries.
  destruct (Sort.Ints (segmentIDs (DiskFileExtension opts) (dir_entries w)))
    as [| segId rest].
  - apply bind_Ok in H as (seg & w3 & Ho & H).
    apply openSegmentFile_Ok in Ho as (Hid & _).
    inversion H; subst; clear H. simpl. auto.
  - apply bind_Ok in H as (r & w3 & Ho & H).
    apply openSegments_Ok in Ho as (Hlast & Hfrom & Hnew & _).
    inversion H; subst; clear H. simpl. split; [reflexivity |].
    split; [exact Hlast |]. split.
    + intros k seg Hk. destruct (Hfrom k seg Hk) as [He | [Hk1 _]];
        [rewrite lookup_empty in He; discriminate | assumption].
    + intros k. split; [| apply Hnew].
      intros [seg Hk]. destruct (Hfrom k seg Hk) as [He | [_ Hk2]];
        [rewrite lookup_empty in He; discriminate | assumption].
Qed.

(** Without failing system calls, [Open] returns a WAL as soon as the
    options pass the validation. *)
Lemma Open_no_fault opts w :
  String.prefix "." (DiskFileExtension opts) = true ->
  BlockCache opts <= wrap32 (SegmentSize opts) ->
  io_faults w = [] ->
  exists wal0 w0, Open opts w = (Ok wal0, w0).
Proof.
  intros Hext Hcache Hf. unfold Open. rewrite Hext. cbn [negb].
  replace (wrap32 (SegmentSize opts) <? BlockCache opts) with false
    by (symmetry; apply Z.ltb_ge; assumption).
  unfold syscall, readDir, bind at 1 2. rewrite (take_fault_exhausted w Hf).
  assert (Hf1 : io_faults (log_event EvMkdirAll w) = []) by exact Hf.
  rewrite (take_fault_exhausted _ Hf1).
  assert (Hf2 : io_faults (log_event EvReadDir (log_event EvMkdirAll w)) = [])
    by exact Hf.
  destruct (Sort.Ints _) as [| segId rest].
  - destruct (openSegmentFile_no_fault initialSegmentFileID _ Hf2)
      as (seg & w3 & Ho & _).
    rewrite (bind_Ok_intro _ _ _ _ _ Ho). eexists. eexists. reflexivity.
  - destruct (openSegments_no_fault rest segId ∅ _ Hf2) as (r & w3 & Ho).
    rewrite (bind_Ok_intro _ _ _ _ _ Ho). eexists. eexists. reflexivity.
Qed.

(** ** The errors of Open *)

Lemma failsOnlyOnIO_ret {S A} (a : A) : failsOnlyOnIO (@ret S A a).
Proof. intros s. left. eexists. eexists. reflexivity. Qed.

Lemma failsOnlyOnIO_bind {S A B} (c : ST S A) (k : A -> ST S B) :
  failsOnlyOnIO c -> (forall a, failsOnlyOnIO (k a)) -> failsOnlyOnIO (bind c k).
Proof.
  intros Hc Hk s. destruct (Hc s) as [(a & s1 & Ha) | (s1 & He)].
  - rewrite (bind_Ok_intro _ _ _ _ _ Ha). apply Hk.
  - rewrite (bind_Err_intro _ _ _ _ _ He). eauto.
Qed.

Lemma failsOnlyOnIO_syscall e : failsOnlyOnIO (syscall e).
Proof. intros w. unfold syscall. destruct (take_fault w) as [[] w1]; eauto. Qed.

Lemma failsOnlyOnIO_readDir : failsOnlyOnIO readDir.
Proof. intros w. unfold readDir. destruct (take_fault w) as [[] w1]; eauto. Qed.

Lemma failsOnlyOnIO_openSegmentFile sid :
  failsOnlyOnIO (Segment.openSegmentFile sid).
Proof.
  intros w. unfold Segment.openSegmentFile.
  destruct (take_fault w) as [[] w1]; eauto.
Qed.

Lemma failsOnlyOnIO_openSegments : forall rest segId older,
  failsOnlyOnIO (openSegments segId rest older).
Proof.
  induction rest as [| next rest IH]; intros segId older;
    rewrite openSegments_eq;
    apply failsOnlyOnIO_bind; try apply failsOnlyOnIO_openSegmentFile; intros seg.
  - apply failsOnlyOnIO_ret.
  - apply IH.
Qed.

(** Past the validation, [Open] returns a WAL or the error of a
    system call. *)
Lemma Open_past_validation opts :
  String.prefix "." (DiskFileExtension opts) = true ->
  BlockCache opts <= wrap32 (SegmentSize opts) ->
  failsOnlyOnIO (Open opts).
Proof.
  intros Hext Hcache. unfold Open. rewrite Hext. cbn [negb].
  replace (wrap32 (SegmentSize opts) <? BlockCache opts) with false
    by (symmetry; apply Z.ltb_ge; assumption).
  apply failsOnlyOnIO_bind; [apply failsOnlyOnIO_syscall | intros _].
  apply failsOnlyOnIO_bind; [apply failsOnlyOnIO_readDir | intros entries].
  destruct (Sort.Ints _) as [| segId rest];
    (apply failsOnlyOnIO_bind;
     [first [apply failsOnlyOnIO_openSegmentFile | apply failsOnlyOnIO_openSegments]
     | intros r; apply failsOnlyOnIO_ret]).
Qed.

(** The validation of [Open] fails exactly on an extension without a
    leading dot or a [BlockCache] above [SegmentSize] cut to 32 bits. *)
Lemma Open_validation_iff opts w :
  (fst (Open opts w) = Err ErrInvalidExtension
   \/ fst (Open opts w) = Err ErrBlockCacheTooLarge)
  <-> (String.prefix "." (DiskFileExtension opts) = false
       \/ wrap32 (SegmentSize opts) < BlockCache opts).
Proof.
  destruct (Open_validation opts w) as [Hext Hcache]. split.
  - intros Hfail.
    destruct (String.prefix "." (DiskFileExtension opts)) eqn:Hdot; [| auto].
    destruct (Z.lt_ge_cases (wrap32 (SegmentSize opts)) (BlockCache opts))
      as [Hlt | Hge]; [auto |].
    destruct (Open_past_validation opts Hdot Hge w)
      as [(wal0 & w0 & Ho) | (w0 & Ho)];
      rewrite Ho in Hfail; simpl in Hfail; destruct Hfail; discriminate.
  - destruct (String.prefix "." (DiskFileExtension opts)) eqn:Hdot.
    + intros [Hno | Hlt]; [discriminate |]. right.
      rewrite (Hcache eq_refl Hlt). reflexivity.
    + intros _. left. rewrite (Hext eq_refl). reflexivity.
Qed.

Lemma elem_of_removelast {A} : forall (l : list A) (x : A),
  x ∈ removelast l -> x ∈ l.
Proof.
  induction l as [| a l IH]; intros x Hx; [inversion Hx |].
  destruct l as [| b l]; [inversion Hx |].
  change (removelast (a :: b :: l)) with (a :: removelast (b :: l)) in Hx.
  apply elem_of_cons in Hx as [-> | Hx]; [left | right; apply IH, Hx].
Qed.

Lemma last_elem_of {A} : forall (l : list A) (a : A), List.last l a ∈ a :: l.
Proof.
  induction l as [| b l IH]; intros a; [left |].
  rewrite (last_cons l b a). right. apply IH.
Qed.

(** In a sorted list the last element is the highest. *)
Lemma sorted_last_max : forall (rest : list Z) (segId k : Z),
  StronglySorted Z.le (segId :: rest) ->
  k ∈ segId :: rest ->
  k <= List.last rest segId.
Proof.
  induction rest as [| next rest IH]; intros segId k Hs Hk.
  - apply list_elem_of_singleton in Hk. subst. simpl. lia.
  - apply StronglySorted_inv in Hs as [Hs Hle]. rewrite last_cons.
    apply elem_of_cons in Hk as [-> | Hk]; [| apply IH; assumption].
    rewrite Forall_forall in Hle. apply Hle, last_elem_of.
Qed.

(** In a sorted list whose highest element occurs once, the last
    element is above all the others. *)
Lemma sorted_last_highest (rest : list Z) (segId k : Z) :
  StronglySorted Z.le (segId :: rest) ->
  highestOnce (segId :: rest) ->
  k ∈ removelast (segId :: rest) ->
  k < List.last rest segId.
Proof.
  intros Hs Honce Hk.
  pose proof (sorted_last_max rest segId k Hs (elem_of_removelast _ _ Hk)) as Hle.
  specialize (Honce (List.last rest segId) (last_elem_of rest segId)
                (fun v Hv => sorted_last_max rest segId v Hs Hv)).
  pose proof (app_removelast_last segId (l := segId :: rest) ltac:(discriminate))
    as Hsplit.
  rewrite last_cons in Hsplit.
  rewrite Hsplit, count_occ_app in Honce.
  assert (Hone : count_occ Z.eq_dec [List.last rest segId] (List.last rest segId)
                 = 1%nat)
    by (simpl; destruct (Z.eq_dec _ _); congruence).
  rewrite Hone in Honce.
  assert (Hnot : ~ In (List.last rest segId) (removelast (segId :: rest)))
    by (apply (count_occ_not_In Z.eq_dec); lia).
  assert (k <> List.last rest segId)
    by (intros ->; apply Hnot, list_elem_of_In, Hk).
  lia.
Qed.

Lemma Ints_sorted (l : list Z) :
  StronglySorted Z.le (Sort.Ints l) /\ Permutation (Sort.Ints l) l.
Proof.
  split.
  - exact (sortBy_sorted (fun z : Z => z) l).
  - exact (sortBy_Permutation (fun z : Z => z) l).
Qed.

Lemma highestOnce_Permutation (l1 l2 : list Z) :
  Permutation l1 l2 -> highestOnce l1 -> highestOnce l2.
Proof.
  intros Hp H hi Hin Hmax.
  rewrite <- (proj1 (Permutation_count_occ Z.eq_dec l1 l2) Hp hi).
  apply H; [rewrite Hp; exact Hin |].
  intros v Hv. apply Hmax. rewrite <- Hp. exact Hv.
Qed.

(** [Open] establishes the order of the ids when the names in the
    directory scan to ids that a [uint32] holds, the highest of them
    once. *)
Lemma Open_in_order opts w wal0 w0 :
  Open opts w = (Ok wal0, w0) ->
  highestOnce (segmentIDs (DiskFileExtension opts) (dir_entries w)) ->
  Forall (fun i => 0 <= i <= max_uint32)
         (segmentIDs (DiskFileExtension opts) (dir_entries w)) ->
  segmentsInOrder wal0.
Proof.
  intros Hopen Honce Hrange. apply Open_Ok in Hopen as [_ Hopen].
  destruct (Ints_sorted (segmentIDs (DiskFileExtension opts) (dir_entries w)))
    as [Hsorted Hperm].
  apply (highestOnce_Permutation _ _ (Permutation_sym Hperm)) in Honce.
  rewrite <- Hperm in Hrange.
  destruct (Sort.Ints _) as [| segId rest].
  - destruct Hopen as [Hact Hold]. unfold segmentsInOrder. rewrite Hact, Hold.
    split; [unfold initialSegmentFileID; lia |].
    intros k seg Hk. rewrite lookup_empty in Hk. discriminate.
  - destruct Hopen as (Hact & Hkeys & Hdom).
    rewrite Forall_forall in Hrange.
    rewrite wrap32_small in Hact by (apply Hrange, last_elem_of).
    unfold segmentsInOrder.
    split; [rewrite Hact; apply Hrange, last_elem_of |].
    intros k seg Hk. split; [eapply Hkeys, Hk |].
    assert (Hin : k ∈ wrap32 <$> removelast (segId :: rest))
      by (apply Hdom; eauto).
    apply list_elem_of_fmap in Hin as (i & -> & Hi).
    rewrite wrap32_small by (apply Hrange, elem_of_removelast, Hi).
    rewrite Hact. apply sorted_last_highest; assumption.
Qed.

(** ** The order of the segment ids *)

(** C4, as amended.  Let [Open] return a WAL on a directory whose
    names scan (with an extension that the format takes literally) to
    ids that a [uint32] holds, the highest of them scanned once, and
    let any operations follow, so few that the id of the active segment
    cannot pass the largest [uint32] (a call rotates at most once).
    Then the one active segment has an id strictly above the id of
    every segment in the map of older segments (and above every key of
    the map), whatever the calls returned. *)
Theorem active_segment_stays_highest
    (opts : Options) (w w0 : world) (wal0 : WAL) (ops : list operation) :
  Scan.plain (DiskFileExtension opts) = true ->
  Open opts w = (Ok wal0, w0) ->
  highestOnce (segmentIDs (DiskFileExtension opts) (dir_entries w)) ->
  Forall (fun i => 0 <= i <= max_uint32)
         (segmentIDs (DiskFileExtension opts) (dir_entries w)) ->
  id (activeSegment wal0) + Z.of_nat (length ops) <= max_uint32 ->
  activeIsHighest (wal (run ops (mkMachine wal0 w0))).
Proof.
  intros _ Hopen Honce Hrange Hroom.
  apply segmentsInOrder_highest, run_in_order; [| exact Hroom].
  eapply Open_in_order; eassumption.
Qed.

Lemma active_segment_stays_highest_witness :
  exists wal0 w0,
    Open Demo.opts Demo.mixedDir = (Ok wal0, w0)
    /\ activeIsHighest
         (wal (run [OpWrite (Demo.payload 40); OpWrite (Demo.payload 40);
                    OpWrite (Demo.payload 40); OpPendingWrites (Demo.payload 5);
                    OpWriteAll; OpOpenNewActiveSegment]
                   (mkMachine wal0 w0))).
Proof.
  eexists. eexists. split; [vm_compute; reflexivity |].
  apply (active_segment_stays_highest Demo.opts Demo.mixedDir).
  - reflexivity.
  - vm_compute. reflexivity.
  - change (segmentIDs (DiskFileExtension Demo.opts) (dir_entries Demo.mixedDir))
      with [2; 1].
    intros hi Hin Hmax. specialize (Hmax 2 ltac:(left)).
    apply elem_of_cons in Hin as [-> | Hin]; [reflexivity |].
    apply list_elem_of_singleton in Hin. lia.
  - apply (bool_decide_unpack _). vm_compute. exact I.
  - vm_compute. discriminate.
Defined.

(** C4, counterexample to the claim as it stands.  The names ["1.SEG"]
    and ["01.SEG"] both scan to the id 1: [Open] stores the first
    segment opened in the map under 1 and makes the second one, with
    the same id, the active segment. *)
Lemma Open_twin_names_break_order :
  exists wal0 w0 seg,
    Open Demo.opts Demo.twinDir = (Ok wal0, w0)
    /\ wal (run [] (mkMachine wal0 w0)) = wal0
    /\ olderSegments wal0 !! 1 = Some seg
    /\ id seg = 1
    /\ id (activeSegment wal0) = 1
    /\ ~ activeIsHighest wal0.
Proof.
  eexists. eexists. eexists. split; [vm_compute; reflexivity |].
  split; [reflexivity |]. split; [vm_compute; reflexivity |].
  split; [reflexivity |]. split; [reflexivity |].
  intros H. specialize (H 1 _ ltac:(vm_compute; reflexivity)).
  vm_compute in H. destruct H as [H _]. discriminate.
Qed.

(** The ids are cut to a [uint32] when the segments are opened: a name
    with a number above the largest [uint32] gives the active segment
    an id below the others. *)
Lemma Open_wide_id_breaks_order :
  exists wal0 w0,
    Open Demo.opts Demo.wideDir = (Ok wal0, w0)
    /\ id (activeSegment wal0) = 0
    /\ is_Some (olderSegments wal0 !! 1)
    /\ ~ activeIsHighest wal0.
Proof.
  eexists. eexists. split; [vm_compute; reflexivity |].
  split; [reflexivity |]. split; [vm_compute; eauto |].
  intros H. specialize (H 1 _ ltac:(vm_compute; reflexivity)).
  vm_compute in H. destruct H as [H _]. discriminate.
Qed.

(** The same claim also fails by wrap-around: after the segment with
    the largest [uint32] id, a rotation opens the segment 0. *)
Lemma rotation_wraps_segment_id :
  exists wal0 w0,
    Open Demo.opts Demo.lastIdDir = (Ok wal0, w0)
    /\ id (activeSegment wal0) = 4294967295
    /\ id (activeSegment (wal (run [OpOpenNewActiveSegment] (mkMachine wal0 w0)))) = 0
    /\ is_Some (olderSegments
                  (wal (run [OpOpenNewActiveSegment] (mkMachine wal0 w0)))
                !! 4294967295)
    /\ ~ activeIsHighest (wal (run [OpOpenNewActiveSegment] (mkMachine wal0 w0))).
Proof.
  eexists. eexists. split; [vm_compute; reflexivity |].
  split; [reflexivity |]. split; [vm_compute; reflexivity |].
  split; [vm_compute; eauto |].
  intros H. specialize (H 4294967295 _ ltac:(vm_compute; reflexivity)).
  vm_compute in H. destruct H as [H _]. discriminate.
Qed.

(** ** The directory listing *)

(** C5, as amended.  With options that pass the validation, an ASCII
    extension free of ['%'] and white space, and system calls that
    succeed: the entries [Open] treats as segments are exactly the
    non-directory entries whose name [Sscanf] accepts for the format
    ["%d" + ext] (white space as Unicode defines it, but no newline,
    then a number, then the extension, whatever follows); among them
    is every name that matches the pattern of the specification with
    a number an [int64] holds.  The ids are
    sorted in ascending order.  Without any, [Open] returns a WAL whose
    active segment is the fresh segment 1 and whose map is empty.
    Otherwise the segment of the last id is the active one, opened
    under that id cut to a [uint32], and the map holds the segments
    of all the other ids, each under its own [uint32] id. *)
Theorem Open_reads_segment_ids (opts : Options) (w : world) :
  String.prefix "." (DiskFileExtension opts) = true ->
  Scan.plain (DiskFileExtension opts) = true ->
  BlockCache opts <= wrap32 (SegmentSize opts) ->
  io_faults w = [] ->
  let ext := DiskFileExtension opts in
  let ids := Sort.Ints (segmentIDs ext (dir_entries w)) in
  (forall v, v ∈ ids <->
     exists entry, entry ∈ dir_entries w /\ IsDir entry = false
                   /\ Scan.Sscanf_d (Name entry) ext = Some v)
  /\ (forall entry v,
        entry ∈ dir_entries w -> IsDir entry = false ->
        specSegmentId ext (Name entry) = Some v -> v <= max_int64 ->
        v ∈ ids)
  /\ Permutation ids (segmentIDs ext (dir_entries w))
  /\ StronglySorted Z.le ids
  /\ exists wal0 w0,
       Open opts w = (Ok wal0, w0)
       /\ match ids with
          | [] =>
              id (activeSegment wal0) = initialSegmentFileID
              /\ olderSegments wal0 = ∅
          | segId :: rest =>
              id (activeSegment wal0) = wrap32 (List.last rest segId)
              /\ (forall k seg, olderSegments wal0 !! k = Some seg -> id seg = k)
              /\ (forall k, is_Some (olderSegments wal0 !! k)
                            <-> k ∈ wrap32 <$> removelast (segId :: rest))
          end.
Proof.
  intros Hdot _ Hcache Hfaults ext ids.
  destruct (Ints_sorted (segmentIDs ext (dir_entries w))) as [Hsorted Hperm].
  assert (Hmem : forall v, v ∈ ids <->
     exists entry, entry ∈ dir_entries w /\ IsDir entry = false
                   /\ Scan.Sscanf_d (Name entry) ext = Some v).
  { intros v. unfold ids. rewrite Hperm. unfold segmentIDs.
    rewrite list_elem_of_omap. split.
    - intros (entry & Hin & Hscan). exists entry.
      destruct (IsDir entry); [discriminate | auto].
    - intros (entry & Hin & Hdir & Hscan). exists entry.
      rewrite Hdir. auto. }
  split; [exact Hmem |]. split.
  { intros entry v Hin Hdir Hspec Hmax. apply Hmem. exists entry.
    repeat split; try assumption. apply Sscanf_d_on_pattern; assumption. }
  split; [exact Hperm |]. split; [exact Hsorted |].
  destruct (Open_no_fault opts w Hdot Hcache Hfaults) as (wal0 & w0 & Hopen).
  exists wal0, w0. split; [exact Hopen |].
  apply Open_Ok in Hopen as [_ Hopen]. exact Hopen.
Qed.

Lemma Open_reads_segment_ids_witness :
  exists wal0 w0,
    Open Demo.opts Demo.mixedDir = (Ok wal0, w0)
    /\ id (activeSegment wal0) = 2
    /\ is_Some (olderSegments wal0 !! 1).
Proof.
  destruct (Open_reads_segment_ids Demo.opts Demo.mixedDir)
    as (_ & _ & _ & _ & wal0 & w0 & Hopen & Hshape).
  - reflexivity.
  - reflexivity.
  - vm_compute. discriminate.
  - reflexivity.
  - exists wal0, w0. split; [exact Hopen |].
    assert (Hids : Sort.Ints (segmentIDs (DiskFileExtension Demo.opts)
                                (dir_entries Demo.mixedDir)) = [1; 2])
      by (vm_compute; reflexivity).
    rewrite Hids in Hshape. destruct Hshape as (Hact & _ & Hdom).
    split; [exact Hact |]. apply Hdom. left.
Defined.

(** C5, counterexample to the claim as it stands.  The name ["7.SEGx"]
    does not match the pattern of the specification, so that no name
    of the listing does and the claim has [Open] create the fresh
    segment 1; [Sscanf] leaves what follows the extension unread, and
    [Open] takes the entry for the segment 7. *)
Lemma Open_takes_stray_name :
  specSegmentId ".SEG" "7.SEGx" = None
  /\ Scan.Sscanf_d "7.SEGx" ".SEG" = Some 7
  /\ exists wal0 w0,
       Open Demo.opts Demo.strayDir = (Ok wal0, w0)
       /\ id (activeSegment wal0) = 7
       /\ id (activeSegment wal0) <> initialSegmentFileID.
Proof.
  split; [reflexivity |]. split; [reflexivity |].
  eexists. eexists. split; [vm_compute; reflexivity |].
  split; [reflexivity | discriminate].
Qed.

(** * Further properties *)

(** ** What every method keeps *)

Section Keeps.
Context (R : WAL -> WAL -> Prop) `{!PreOrder R}.

Lemma keepsWAL_ret {A} (a : A) : keepsWAL R (ret a).
Proof. intros m. simpl. reflexivity. Qed.

Lemma keepsWAL_fail {A} (e : error) : keepsWAL R (@fail machine A e).
Proof. intros m. simpl. reflexivity. Qed.

Lemma keepsWAL_io {A} (c : ST world A) : keepsWAL R (io c).
Proof. intros m. unfold io. destruct (c (env m)). simpl. reflexivity. Qed.

Lemma keepsWAL_update (f : WAL -> WAL) :
  (forall w, R w (f w)) -> keepsWAL R (update_wal f).
Proof. intros Hf m. simpl. apply Hf. Qed.

Lemma keepsWAL_bind {A B} (c : M A) (k : A -> M B) :
  keepsWAL R c -> (forall a, keepsWAL R (k a)) -> keepsWAL R (bind c k).
Proof.
  intros Hc Hk m. destruct (bind_cases c k m) as [(a & m1 & Ha & ->) | ->].
  - transitivity (wal m1).
    + specialize (Hc m). rewrite Ha in Hc. exact Hc.
    + apply Hk.
  - apply Hc.
Qed.

Lemma keepsWAL_get {B} (k : WAL -> M B) :
  (forall w, keepsWAL R (k w)) -> keepsWAL R (bind get_wal k).
Proof. intros Hk m. rewrite bind_get_wal. apply Hk. Qed.

Lemma keepsWAL_when (b : bool) (c : M unit) :
  keepsWAL R c -> keepsWAL R (when b c).
Proof. intros Hc. destruct b; [exact Hc | apply keepsWAL_ret]. Qed.

Lemma keepsWAL_defer {A} (cleanup : M unit) (body : M A) :
  keepsWAL R body -> keepsWAL R cleanup -> keepsWAL R (defer cleanup body).
Proof.
  intros Hb Hc m. rewrite defer_eq. simpl.
  transitivity (wal (snd (body m))); [apply Hb | apply Hc].
Qed.

(** The fields a rotation, an append and a sync write to. *)
Hypothesis R_active : forall s w, R w (set_activeSegment s w).
Hypothesis R_older : forall o w, R w (set_olderSegments o w).
Hypothesis R_bytes : forall b w, R w (set_bytesWrite b w).

Lemma keepsWAL_rotateActiveSegment : keepsWAL R rotateActiveSegment.
Proof.
  unfold rotateActiveSegment. apply keepsWAL_get. intros w.
  apply keepsWAL_bind; [apply keepsWAL_io | intros _].
  apply keepsWAL_bind; [apply keepsWAL_update, R_bytes | intros _].
  apply keepsWAL_bind; [apply keepsWAL_io | intros seg].
  apply keepsWAL_update. intros w'.
  transitivity (set_olderSegments
                  (<[id (activeSegment w') := activeSegment w']> (olderSegments w')) w');
    [apply R_older | apply R_active].
Qed.

Lemma keepsWAL_OpenNewActiveSegment : keepsWAL R OpenNewActiveSegment.
Proof.
  unfold OpenNewActiveSegment. apply keepsWAL_get. intros w.
  apply keepsWAL_bind; [apply keepsWAL_io | intros _].
  apply keepsWAL_bind; [apply keepsWAL_io | intros seg].
  apply keepsWAL_update. intros w'.
  transitivity (set_olderSegments
                  (<[id (activeSegment w') := activeSegment w']> (olderSegments w')) w');
    [apply R_older | apply R_active].
Qed.

Lemma keepsWAL_Write (data : list byte) : keepsWAL R (Write data).
Proof.
  unfold Write. apply keepsWAL_get. intros w.
  destruct (_ <? _); [apply keepsWAL_fail |].
  apply keepsWAL_bind;
    [apply keepsWAL_when, keepsWAL_rotateActiveSegment | intros _].
  apply keepsWAL_get. intros w1.
  apply keepsWAL_bind; [apply keepsWAL_io | intros r].
  apply keepsWAL_bind; [apply keepsWAL_update, R_active | intros _].
  apply keepsWAL_bind; [apply keepsWAL_update; intros; apply R_bytes | intros _].
  apply keepsWAL_get. intros w2.
  apply keepsWAL_bind; [| intros _; apply keepsWAL_ret].
  apply keepsWAL_when.
  apply keepsWAL_bind; [apply keepsWAL_io | intros _].
  apply keepsWAL_update, R_bytes.
Qed.

(** The locked part of [WriteAll], before the deferred clearing. *)
Lemma keepsWAL_WriteAll :
  (forall w, R w (set_pending [] 0 w)) -> keepsWAL R WriteAll.
Proof.
  intros R_clear. unfold WriteAll. apply keepsWAL_get. intros w.
  destruct (_ =? _)%nat; [apply keepsWAL_ret |].
  apply keepsWAL_defer; [| apply keepsWAL_update, R_clear].
  apply keepsWAL_get. intros w1.
  destruct (_ <? _); [apply keepsWAL_fail |].
  apply keepsWAL_bind;
    [apply keepsWAL_when, keepsWAL_rotateActiveSegment | intros _].
  apply keepsWAL_get. intros w2.
  apply keepsWAL_bind; [apply keepsWAL_io | intros r].
  apply keepsWAL_bind; [apply keepsWAL_update, R_active | intros _].
  apply keepsWAL_ret.
Qed.

End Keeps.

(** ** The staging list *)

Lemma samePending_preorder : PreOrder samePending.
Proof.
  split.
  - intros w. split; reflexivity.
  - intros w1 w2 w3 [H1 H2] [H3 H4]. split; congruence.
Qed.

Lemma Open_fields opts w wal0 w0 :
  Open opts w = (Ok wal0, w0) ->
  bytesWrite wal0 = 0 /\ renameIds wal0 = []
  /\ pendingWrites wal0 = [] /\ pendingSize wal0 = 0.
Proof.
  unfold Open.
  destruct (negb (String.prefix "." (DiskFileExtension opts))); [discriminate |].
  destruct (wrap32 (SegmentSize opts) <? BlockCache opts); [discriminate |].
  intros H. apply bind_Ok in H as (u & w1 & _ & H).
  apply bind_Ok in H as (entries & w2 & _ & H).
  destruct (Sort.Ints _) as [| segId rest];
    apply bind_Ok in H as (r & w3 & _ & H); inversion H; subst; simpl; auto.
Qed.

Lemma step_staging m o :
  stagingConsistent (wal m) ->
  pendingWrites (wal (step m o)) = stagedStep (pendingWrites (wal m)) o
  /\ stagingConsistent (wal (step m o)).
Proof.
  unfold stagingConsistent. intros Hinv. destruct o as [data | | data | |]; simpl.
  - destruct (@keepsWAL_Write samePending samePending_preorder) with (data := data) (m := m)
      as [-> ->]; try (intros; split; reflexivity). auto.
  - destruct (decide (pendingWrites (wal m) = [])) as [Hp | Hp].
    + rewrite (WriteAll_empty m Hp). simpl. rewrite Hinv, Hp. auto.
    + destruct (WriteAll_staged m Hp) as (body & -> & _).
      rewrite defer_eq. auto.
  - split; [reflexivity |]. unfold pendingBound. rewrite fold_left_app. simpl.
    fold (pendingBound (pendingWrites (wal m))). rewrite Hinv. reflexivity.
  - auto.
  - destruct (@keepsWAL_OpenNewActiveSegment samePending samePending_preorder) with (m := m)
      as [-> ->]; try (intros; split; reflexivity). auto.
Qed.

Lemma run_staging ops : forall m,
  stagingConsistent (wal m) ->
  pendingWrites (wal (run ops m)) = fold_left stagedStep ops (pendingWrites (wal m))
  /\ stagingConsistent (wal (run ops m)).
Proof.
  induction ops as [| o ops IH]; intros m Hinv; [simpl; auto |].
  simpl. destruct (step_staging m o Hinv) as [Hstep Hinv'].
  rewrite <- Hstep. apply IH, Hinv'.
Qed.

(** X1.  All along a run that starts with [Open], the payloads staged
    are those that [PendingWrites] has added since the last
    [ClearPendingWrites] or [WriteAll], in their order: [Write] and
    [OpenNewActiveSegment] do not touch the staging, whether they
    rotate, succeed or fail, and [WriteAll] leaves it empty whatever
    it returns.  [pendingSize] is the bound that [PendingWrites]
    accumulates over the payloads staged (0 without any). *)
Theorem staging_consistent_along_run
    (opts : Options) (w w0 : world) (wal0 : WAL) (ops : list operation) :
  Open opts w = (Ok wal0, w0) ->
  pendingWrites (wal (run ops (mkMachine wal0 w0))) = stagedAfter ops
  /\ pendingSize (wal (run ops (mkMachine wal0 w0)))
     = pendingBound (stagedAfter ops).
Proof.
  intros Hopen. apply Open_fields in Hopen as (_ & _ & Hp & Hs).
  assert (Hinv : stagingConsistent (wal (mkMachine wal0 w0)))
    by (unfold stagingConsistent; simpl; rewrite Hp, Hs; reflexivity).
  destruct (run_staging ops _ Hinv) as [Hlist Hsize].
  simpl in Hlist. rewrite Hp in Hlist. fold (stagedAfter ops) in Hlist.
  split; [exact Hlist |]. rewrite <- Hlist. exact Hsize.
Qed.

Lemma staging_consistent_along_run_witness :
  exists wal0 w0,
    Open Demo.opts Demo.mixedDir = (Ok wal0, w0)
    /\ pendingWrites
         (wal (run [OpPendingWrites (Demo.payload 7); OpWriteAll;
                    OpPendingWrites (Demo.payload 5); OpWrite (Demo.payload 40);
                    OpPendingWrites (Demo.payload 50)]
                   (mkMachine wal0 w0)))
       = [Demo.payload 5; Demo.payload 50]
    /\ pendingSize
         (wal (run [OpPendingWrites (Demo.payload 7); OpWriteAll;
                    OpPendingWrites (Demo.payload 5); OpWrite (Demo.payload 40);
                    OpPendingWrites (Demo.payload 50)]
                   (mkMachine wal0 w0)))
       = pendingBound [Demo.payload 5; Demo.payload 50].
Proof.
  eexists. eexists. split; [vm_compute; reflexivity |].
  by_instance
    (staging_consistent_along_run Demo.opts Demo.mixedDir _ _
       [OpPendingWrites (Demo.payload 7); OpWriteAll;
        OpPendingWrites (Demo.payload 5); OpWrite (Demo.payload 40);
        OpPendingWrites (Demo.payload 50)]
       ltac:(vm_compute; reflexivity)).
Defined.

(** ** The keys of the map of older segments *)

Lemma step_keys m o : keysAreIds (wal m) -> keysAreIds (wal (step m o)).
Proof.
  intros Hkeys. destruct (step_segments m o) as [[_ Ho] | [_ Ho]];
    intros k seg; rewrite Ho; [apply Hkeys |].
  destruct (decide (k = id (activeSegment (wal m)))) as [-> | Hne].
  - rewrite lookup_insert_eq. intros H. inversion H. reflexivity.
  - rewrite lookup_insert_ne by congruence. apply Hkeys.
Qed.

Lemma Open_keys opts w wal0 w0 :
  Open opts w = (Ok wal0, w0) -> keysAreIds wal0.
Proof.
  intros Hopen. apply Open_Ok in Hopen as [_ Hopen].
  destruct (Sort.Ints _) as [| segId rest].
  - destruct Hopen as [_ Hold]. intros k seg. rewrite Hold, lookup_empty.
    discriminate.
  - destruct Hopen as (_ & Hkeys & _). exact Hkeys.
Qed.

(** X2.  All along a run that starts with [Open], on any directory,
    every segment in the map of older segments is stored under its own
    id: [Read] with that id finds that segment. *)
Theorem older_segments_keyed_by_id
    (opts : Options) (w w0 : world) (wal0 : WAL) (ops : list operation) :
  Open opts w = (Ok wal0, w0) ->
  forall k seg,
    olderSegments (wal (run ops (mkMachine wal0 w0))) !! k = Some seg ->
    id seg = k.
Proof.
  intros Hopen. apply Open_keys in Hopen.
  change (keysAreIds (wal (run ops (mkMachine wal0 w0)))).
  assert (Hinv : keysAreIds (wal (mkMachine wal0 w0))) by exact Hopen.
  revert Hinv. generalize (mkMachine wal0 w0).
  induction ops as [| o ops IH]; intros m Hinv; [exact Hinv |].
  simpl. apply IH, step_keys, Hinv.
Qed.

Lemma older_segments_keyed_by_id_witness :
  Open Demo.opts Demo.twinDir = (Ok Demo2.twinWAL, Demo2.twinWorld)
  /\ olderSegments
       (wal (run [OpWrite (Demo.payload 90); OpOpenNewActiveSegment]
                 (mkMachine Demo2.twinWAL Demo2.twinWorld))) !! 2
     = Some (mkSegment 2 0 97 false)
  /\ id (mkSegment 2 0 97 false) = 2.
Proof.
  split; [vm_compute; reflexivity |]. split; [vm_compute; reflexivity |].
  apply (older_segments_keyed_by_id Demo.opts Demo.twinDir Demo2.twinWorld
           Demo2.twinWAL [OpWrite (Demo.payload 90); OpOpenNewActiveSegment]
           ltac:(vm_compute; reflexivity) 2 (mkSegment 2 0 97 false)
           ltac:(vm_compute; reflexivity)).
Defined.

(** ** The format of file names *)

Lemma digitsValue_app (l1 l2 : list ascii) :
  Scan.digitsValue (l1 ++ l2)
  = fold_left (fun acc c => 10 * acc + (Z.of_nat (Scan.code c) - 48)) l2
              (Scan.digitsValue l1).
Proof. unfold Scan.digitsValue. apply fold_left_app. Qed.

Lemma digitChar_code (d : Z) :
  0 <= d <= 9 ->
  Z.of_nat (Scan.code (Format.digitChar d)) - 48 = d
  /\ Scan.isDigit (Format.digitChar d) = true.
Proof.
  intros Hd. unfold Scan.isDigit, Scan.code, Format.digitChar.
  rewrite nat_ascii_embedding by lia. split; [lia |].
  apply andb_true_intro. split; apply Nat.leb_le; lia.
Qed.

(** The digits that [decimal] puts in front of [acc] are the decimal
    writing of [n]. *)
Lemma decimal_digits : forall fuel n acc,
  0 <= n < 10 ^ Z.of_nat fuel ->
  (0 < fuel)%nat ->
  exists ds,
    Format.decimal fuel n acc = ds ++ acc
    /\ ds <> []
    /\ forallb Scan.isDigit ds = true
    /\ Scan.digitsValue ds = n.
Proof.
  induction fuel as [| fuel IH]; intros n acc Hn Hfuel; [lia |].
  assert (Hd : 0 <= n mod 10 <= 9) by (pose proof (Z.mod_pos_bound n 10); lia).
  destruct (digitChar_code _ Hd) as [Hcode Hdigit].
  cbn [Format.decimal]. destruct (n / 10 =? 0) eqn:Hq.
  - apply Z.eqb_eq in Hq. exists [Format.digitChar (n mod 10)].
    split; [reflexivity |]. split; [discriminate |].
    split; [simpl; rewrite Hdigit; reflexivity |].
    unfold Scan.digitsValue. simpl. rewrite Hcode.
    pose proof (Z.div_mod n 10). lia.
  - apply Z.eqb_neq in Hq.
    assert (Hq10 : 0 <= n / 10 < 10 ^ Z.of_nat fuel).
    { split; [apply Z.div_pos; lia |].
      apply Z.div_lt_upper_bound; [lia |].
      replace (Z.of_nat (S fuel)) with (Z.of_nat fuel + 1) in Hn by lia.
      rewrite Z.pow_add_r, Z.pow_1_r in Hn by lia. lia. }
    assert (Hf : (0 < fuel)%nat).
    { destruct fuel; [| lia]. simpl in Hq10. lia. }
    destruct (IH (n / 10) (Format.digitChar (n mod 10) :: acc) Hq10 Hf)
      as (ds & Heq & Hne & Hall & Hval).
    exists (ds ++ [Format.digitChar (n mod 10)]).
    split; [rewrite Heq, <- app_assoc; reflexivity |].
    split; [destruct ds; discriminate |].
    split; [rewrite forallb_app, Hall; simpl; rewrite Hdigit; reflexivity |].
    rewrite digitsValue_app, Hval. simpl. rewrite Hcode.
    pose proof (Z.div_mod n 10). lia.
Qed.

Lemma zeros_value (k : nat) (ds : list ascii) :
  Scan.digitsValue (repeat "0"%char k ++ ds) = Scan.digitsValue ds
  /\ forallb Scan.isDigit (repeat "0"%char k) = true.
Proof.
  induction k as [| k [IHv IHd]]; [split; reflexivity |]. split.
  - rewrite digitsValue_app in *. unfold Scan.digitsValue in *.
    simpl repeat. cbn [fold_left]. simpl (10 * 0 + _).
    exact IHv.
  - simpl. exact IHd.
Qed.

Lemma prefix_dot s :
  String.prefix "." s = true -> exists s', s = String "."%char s'.
Proof.
  destruct s as [| c s]; [discriminate |]. cbn [String.prefix].
  destruct (ascii_dec "." c) as [<- | Hne]; [eauto | discriminate].
Qed.

Lemma scanNumber_digits_then_dot : forall (ds : list ascii) (rest : string),
  forallb Scan.isDigit ds = true ->
  String.prefix "." rest = true ->
  Scan.scanNumber (String.append (string_of_list_ascii ds) rest) = (ds, rest).
Proof.
  induction ds as [| d ds IH]; intros rest Hall Hdot.
  - destruct (prefix_dot _ Hdot) as [rest' ->]. reflexivity.
  - simpl in Hall. apply andb_prop in Hall as [Hd Hall].
    simpl. rewrite Hd, (IH rest Hall Hdot). reflexivity.
Qed.

Lemma plain_no_percent : forall ext,
  Scan.plain ext = true -> Format.hasPercent ext = false.
Proof.
  induction ext as [| c ext IH]; simpl; intros H; [reflexivity |].
  apply andb_prop in H as [H Hrest]. apply andb_prop in H as [H _].
  apply andb_prop in H as [_ H]. apply negb_true_iff in H.
  rewrite H, (IH Hrest). reflexivity.
Qed.

(** X3.  The string that line 121 formats for the segment [sid] with
    ["%09d" + ext] (nine digits at least, then the extension), for an
    extension that starts with a dot and that both formats take
    literally (ASCII, no ['%'], no white space): it matches the pattern
    of segment file names, and the scan of [Open], with ["%d" + ext],
    reads the same id back from it. *)
Theorem segment_name_format_scans_back (ext : string) (sid : Z) :
  String.prefix "." ext = true ->
  Scan.plain ext = true ->
  0 <= sid <= max_uint32 ->
  exists name,
    Format.Sprintf_09d ext sid = Some name
    /\ specSegmentId ext name = Some sid
    /\ Scan.Sscanf_d name ext = Some sid.
Proof.
  intros Hdot Hplain Hid. unfold Format.Sprintf_09d.
  rewrite (plain_no_percent ext Hplain). eexists. split; [reflexivity |].
  match goal with
  | |- specSegmentId ext ?name = _ /\ _ =>
      assert (Hspec : specSegmentId ext name = Some sid)
  end.
  { unfold Format.formatUint32, Format.zeroPad.
    destruct (decimal_digits 10 sid []) as (ds & Heq & Hne & Hall & Hval);
      [unfold max_uint32 in Hid; simpl; lia | lia |].
    rewrite Heq, app_nil_r.
    destruct (zeros_value (9 - length ds) ds) as [Hzv Hzd].
    unfold specSegmentId. rewrite scanNumber_digits_then_dot;
      [| rewrite forallb_app, Hzd, Hall; reflexivity | exact Hdot].
    rewrite String.eqb_refl, Hzv, Hval.
    destruct (repeat "0"%char (9 - length ds) ++ ds) eqn:Hz; [| reflexivity].
    apply app_eq_nil in Hz as [_ ->]. congruence. }
  split; [exact Hspec |].
  apply Sscanf_d_on_pattern; [exact Hspec |].
  unfold max_uint32, max_int64 in *. lia.
Qed.

Lemma segment_name_format_scans_back_witness :
  Format.Sprintf_09d ".SEG" 42 = Some "000000042.SEG"%string
  /\ exists name,
       Format.Sprintf_09d ".SEG" 42 = Some name
       /\ specSegmentId ".SEG" name = Some 42
       /\ Scan.Sscanf_d name ".SEG" = Some 42.
Proof.
  split; [reflexivity |].
  apply segment_name_format_scans_back; [reflexivity | reflexivity |].
  vm_compute. split; discriminate.
Defined.

(** ** Where Write and WriteAll put the records *)

Lemma place_position seg data :
  SegmentId (fst (fst (Segment.place seg data))) = id seg.
Proof.
  unfold Segment.place.
  destruct (Segment.layout _ _) as [[[[adv0 off] adv] bs'] size].
  destruct (Segment.next_cursor _ _). reflexivity.
Qed.

Lemma place_all_positions datas : forall seg,
  length (fst (fst (Segment.place_all seg datas))) = length datas
  /\ Forall (fun pos => SegmentId pos = id seg)
            (fst (fst (Segment.place_all seg datas))).
Proof.
  induction datas as [| d ds IH]; intros seg; simpl; [split; constructor |].
  pose proof (place_position seg d) as Hp. pose proof (place_id seg d) as Hi.
  destruct (Segment.place seg d) as [[pos rec] seg1]. simpl in Hp, Hi.
  destruct (IH seg1) as [Hlen Hall].
  destruct (Segment.place_all seg1 ds) as [[ps recs] seg2]. simpl in *.
  split; [congruence |]. constructor; [assumption |].
  eapply Forall_impl; [exact Hall |]. simpl. intros; congruence.
Qed.

Lemma Segment_Write_position seg data w r w' :
  Segment.Write seg data w = (Ok r, w') ->
  r = (fst (fst (Segment.place seg data)), snd (Segment.place seg data)).
Proof.
  unfold Segment.Write. destruct (closed seg); [discriminate |].
  destruct (take_fault w) as [[] w1]; [discriminate |].
  destruct (Segment.place seg data) as [[pos rec] seg1].
  intros H. inversion H. reflexivity.
Qed.

Lemma Segment_writeAll_positions seg datas w r w' :
  Segment.writeAll seg datas w = (Ok r, w') ->
  r = (fst (fst (Segment.place_all seg datas)), snd (Segment.place_all seg datas)).
Proof.
  unfold Segment.writeAll. destruct (closed seg); [discriminate |].
  destruct (take_fault w) as [[] w1]; [discriminate |].
  destruct (Segment.place_all seg datas) as [[ps recs] seg1].
  intros H. inversion H. reflexivity.
Qed.

(** A successful [Write], step by step: the machine [m1] after the
    rotation test, then the append to its active segment, the counter
    and the sync. *)
Lemma Write_Ok data m pos m' :
  Write data m = (Ok pos, m') ->
  exists m1,
    (if isFull (wal m) (len64 data)
     then rotateActiveSegment m = (Ok tt, m1) else m1 = m)
    /\ pos = fst (fst (Segment.place (activeSegment (wal m1)) data))
    /\ activeSegment (wal m') = snd (Segment.place (activeSegment (wal m1)) data)
    /\ olderSegments (wal m') = olderSegments (wal m1).
Proof.
  unfold Write. rewrite bind_get_wal.
  destruct (SegmentSize (options (wal m)) <? wrap64 (len64 data + chunkHeaderSize));
    [discriminate |].
  intros H. apply bind_Ok in H as (u & m1 & Hrot & H).
  rewrite bind_get_wal in H.
  apply bind_Ok in H as (r & m2 & Hw & H).
  apply io_Ok in Hw as (w2 & Hw & ->).
  apply Segment_Write_position in Hw. subst r.
  rewrite !bind_update_wal, bind_get_wal in H. cbn [fst snd wal] in H.
  exists m1. split.
  { apply when_Ok in Hrot. destruct (isFull (wal m) (len64 data));
      [destruct u |]; exact Hrot. }
  apply bind_Ok in H as (u' & m5 & Hsync & H).
  assert (Hpos : pos = fst (fst (Segment.place (activeSegment (wal m1)) data))
                 /\ m' = m5) by (inversion H; auto).
  destruct Hpos as [-> ->]. split; [reflexivity |].
  apply when_Ok in Hsync.
  match type of Hsync with
  | if ?b then _ else _ => destruct b
  end.
  - apply bind_Ok in Hsync as (u'' & m6 & Hs & Hsync).
    apply io_Ok in Hs as (w6 & _ & ->).
    inversion Hsync; subst. split; reflexivity.
  - subst m5. split; reflexivity.
Qed.

(** X4.  The position that a successful [Write] returns lies in the
    segment that is active after the call, and that segment is the
    one active before it unless the call rotated first ([isFull]):
    then [ActiveSegmentID] has gone up by one, and the previous active
    segment is among the older ones under its id. *)
Theorem Write_position_in_active_segment
    (data : list byte) (m m' : machine) (pos : ChunkPosition) :
  Write data m = (Ok pos, m') ->
  fst (ActiveSegmentID m') = Ok (SegmentId pos)
  /\ (if isFull (wal m) (len64 data)
      then SegmentId pos = wrap32 (id (activeSegment (wal m)) + 1)
           /\ olderSegments (wal m') !! id (activeSegment (wal m))
              = Some (activeSegment (wal m))
      else SegmentId pos = id (activeSegment (wal m))
           /\ olderSegments (wal m') = olderSegments (wal m)).
Proof.
  intros H. apply Write_Ok in H as (m1 & Hrot & -> & Hact & Hold).
  unfold ActiveSegmentID. rewrite bind_get_wal. simpl.
  rewrite Hact, place_id, place_position. split; [reflexivity |].
  rewrite Hold. destruct (isFull (wal m) (len64 data)).
  - apply rotateActiveSegment_Ok in Hrot as (seg & w' & -> & Hid & _).
    simpl. rewrite lookup_insert_eq. auto.
  - subst m1. auto.
Qed.

Lemma Write_position_in_active_segment_witness :
  exists pos m',
    Write (Demo.payload 90) (Demo.fresh Demo.opts) = (Ok pos, m')
    /\ fst (ActiveSegmentID m') = Ok (SegmentId pos)
    /\ SegmentId pos = 2
    /\ olderSegments (wal m') !! 1 = Some (mkSegment 1 0 0 false).
Proof.
  eexists. eexists. split; [vm_compute; reflexivity |].
  by_instance
    (Write_position_in_active_segment (Demo.payload 90) (Demo.fresh Demo.opts) _ _
       ltac:(vm_compute; reflexivity)).
Defined.

(** X5.  A payload that passes the size test of [Write] but whose
    bound [maxDataWriteSize] exceeds [SegmentSize] makes every
    successful [Write] rotate first, also when the active segment is
    empty: each such record gets a segment of its own. *)
Theorem Write_rotates_for_large_payload
    (data : list byte) (m m' : machine) (pos : ChunkPosition) :
  SegmentSize (options (wal m)) < maxDataWriteSize (len64 data) ->
  0 <= Segment.Size (activeSegment (wal m)) ->
  Segment.Size (activeSegment (wal m)) + maxDataWriteSize (len64 data)
  <= max_int64 ->
  Write data m = (Ok pos, m') ->
  SegmentId pos = wrap32 (id (activeSegment (wal m)) + 1)
  /\ id (activeSegment (wal m')) = wrap32 (id (activeSegment (wal m)) + 1)
  /\ olderSegments (wal m') !! id (activeSegment (wal m))
     = Some (activeSegment (wal m)).
Proof.
  intros Hbig Hsize Hfit H.
  assert (Hfull : isFull (wal m) (len64 data) = true).
  { unfold isFull. apply Z.ltb_lt. rewrite wrap64_small; [lia |].
    unfold min_int64. pose proof (wrap64_range (chunkHeaderSize + len64 data
      + (len64 data ÷ blockSize + 1) * chunkHeaderSize)) as Hr.
    fold (maxDataWriteSize (len64 data)) in Hr. unfold min_int64 in Hr. lia. }
  apply Write_Ok in H as (m1 & Hrot & -> & Hact & Hold).
  rewrite Hfull in Hrot.
  apply rotateActiveSegment_Ok in Hrot as (seg & w' & -> & Hid & _).
  rewrite Hact, Hold, place_id, place_position. simpl.
  rewrite lookup_insert_eq. auto.
Qed.

Lemma Write_rotates_for_large_payload_witness :
  exists pos m',
    Write (Demo.payload 90) (Demo.fresh Demo.opts) = (Ok pos, m')
    /\ Segment.Size (activeSegment (wal (Demo.fresh Demo.opts))) = 0
    /\ SegmentId pos = 2
    /\ id (activeSegment (wal m')) = 2
    /\ olderSegments (wal m') !! 1 = Some (mkSegment 1 0 0 false).
Proof.
  eexists. eexists. split; [vm_compute; reflexivity |].
  split; [reflexivity |].
  by_instance
    (Write_rotates_for_large_payload (Demo.payload 90) (Demo.fresh Demo.opts) _ _
       ltac:(vm_compute; reflexivity) ltac:(vm_compute; discriminate)
       ltac:(vm_compute; discriminate) ltac:(vm_compute; reflexivity)).
Defined.

(** X6.  A successful [WriteAll] of a staged batch returns one
    position for each staged payload, all of them in the segment that
    is active after the call. *)
Theorem WriteAll_positions (m m' : machine) (ps : list ChunkPosition) :
  pendingWrites (wal m) <> [] ->
  WriteAll m = (Ok ps, m') ->
  length ps = length (pendingWrites (wal m))
  /\ Forall (fun pos => fst (ActiveSegmentID m') = Ok (SegmentId pos)) ps.
Proof.
  intros Hne. unfold WriteAll. rewrite bind_get_wal.
  destruct (pendingWrites (wal m)) as [| d ds] eqn:Hp; [congruence |].
  change ((length (d :: ds) =? 0)%nat) with false. cbv iota. rewrite defer_eq.
  match goal with
  | |- (fst (?body m), _) = _ -> _ => destruct (body m) as [r m1] eqn:Hbody
  end.
  cbn [fst snd]. intros H.
  assert (Hr : r = Ok ps /\ activeSegment (wal m') = activeSegment (wal m1))
    by (inversion H; auto).
  destruct Hr as [-> Hact]. clear H.
  rewrite bind_get_wal in Hbody.
  destruct (SegmentSize (options (wal m)) <? pendingSize (wal m)); [discriminate |].
  apply bind_Ok in Hbody as (u & m2 & Hrot & Hbody).
  rewrite bind_get_wal in Hbody.
  apply bind_Ok in Hbody as (r & m3 & Hw & Hbody).
  apply io_Ok in Hw as (w3 & Hw & ->).
  apply Segment_writeAll_positions in Hw. subst r.
  rewrite bind_update_wal in Hbody. cbn [fst snd wal] in Hbody.
  assert (Hps : ps = fst (fst (Segment.place_all (activeSegment (wal m2))
                                 (pendingWrites (wal m2))))
                /\ activeSegment (wal m1)
                   = snd (Segment.place_all (activeSegment (wal m2))
                            (pendingWrites (wal m2))))
    by (inversion Hbody; auto).
  destruct Hps as [-> Hact1].
  assert (Hpend : pendingWrites (wal m2) = d :: ds).
  { apply when_Ok in Hrot.
    match type of Hrot with
    | if ?b then _ else _ => destruct b
    end.
    - apply rotateActiveSegment_Ok in Hrot as (seg & w' & -> & _). simpl.
      exact Hp.
    - subst m2. exact Hp. }
  destruct (place_all_positions (pendingWrites (wal m2)) (activeSegment (wal m2)))
    as [Hlen Hall].
  split; [rewrite Hlen, Hpend; reflexivity |].
  eapply Forall_impl; [exact Hall |]. intros pos Hpos. cbv beta in Hpos.
  unfold ActiveSegmentID. rewrite bind_get_wal. simpl.
  rewrite Hact, Hact1, place_all_id, Hpos. reflexivity.
Qed.

Lemma WriteAll_positions_witness :
  exists ps m',
    WriteAll (Demo.exec (PendingWrites (Demo.payload 3))
                (Demo.staged Demo.opts 10)) = (Ok ps, m')
    /\ length ps = 2%nat
    /\ Forall (fun pos => fst (ActiveSegmentID m') = Ok (SegmentId pos)) ps.
Proof.
  eexists. eexists. split; [vm_compute; reflexivity |].
  apply (WriteAll_positions
           (Demo.exec (PendingWrites (Demo.payload 3)) (Demo.staged Demo.opts 10)));
    [vm_compute; discriminate | vm_compute; reflexivity].
Defined.

(** ** IsEmpty *)

Lemma openSegmentFile_segment sid w seg w' :
  Segment.openSegmentFile sid w = (Ok seg, w') ->
  seg = mkSegment sid
          (wrap32 (Segment.file_length (file_of sid w) / blockSize))
          (Segment.file_length (file_of sid w) mod blockSize) false.
Proof.
  unfold Segment.openSegmentFile.
  destruct (take_fault w) as [failed w1] eqn:Hf.
  destruct failed; [discriminate |]. intros H. inversion H; subst.
  apply take_fault_frame in Hf as (_ & Hfiles & _).
  unfold file_of. rewrite Hfiles. reflexivity.
Qed.

(** X7.  On a directory in which no name scans to a segment id (with
    an extension that the format takes literally) and that holds no
    file for the segment 1, the WAL that [Open] returns is empty. *)
Theorem IsEmpty_after_Open (opts : Options) (w w0 : world) (wal0 : WAL) :
  Scan.plain (DiskFileExtension opts) = true ->
  Open opts w = (Ok wal0, w0) ->
  segmentIDs (DiskFileExtension opts) (dir_entries w) = [] ->
  file_of initialSegmentFileID w = [] ->
  fst (IsEmpty (mkMachine wal0 w0)) = Ok true.
Proof.
  intros _. unfold Open.
  destruct (negb (String.prefix "." (DiskFileExtension opts))); [discriminate |].
  destruct (wrap32 (SegmentSize opts) <? BlockCache opts); [discriminate |].
  intros H Hids Hfile. apply bind_Ok in H as (u & w1 & Hmk & H).
  apply bind_Ok in H as (entries & w2 & Hrd & H).
  assert (Hw2 : entries = dir_entries w /\ seg_files w2 = seg_files w).
  { unfold syscall in Hmk. unfold readDir in Hrd.
    destruct (take_fault w) as [f1 w1'] eqn:Hf1.
    destruct f1; [discriminate |]. inversion Hmk; subst; clear Hmk.
    destruct (take_fault (log_event EvMkdirAll w1')) as [f2 w2'] eqn:Hf2.
    destruct f2; [discriminate |]. inversion Hrd; subst; clear Hrd.
    apply take_fault_frame in Hf1 as (_ & Hs1 & Hd1).
    apply take_fault_frame in Hf2 as (_ & Hs2 & Hd2).
    simpl in *. split; congruence. }
  destruct Hw2 as [-> Hfiles]. rewrite Hids in H. simpl in H.
  apply bind_Ok in H as (seg & w3 & Ho & H).
  apply openSegmentFile_segment in Ho.
  unfold file_of in Ho, Hfile. rewrite Hfiles, Hfile in Ho. subst seg.
  inversion H; subst. reflexivity.
Qed.

Lemma IsEmpty_after_Open_witness :
  exists wal0 w0,
    Open Demo.opts Demo2.strangersDir = (Ok wal0, w0)
    /\ fst (IsEmpty (mkMachine wal0 w0)) = Ok true.
Proof.
  eexists. eexists. split; [vm_compute; reflexivity |].
  apply (IsEmpty_after_Open Demo.opts Demo2.strangersDir); reflexivity.
Defined.

(** The block cursor after an append: inside a block, past a header. *)
Lemma place_cursor seg data :
  0 <= currentBlockSize seg ->
  0 < currentBlockSize (snd (Segment.place seg data)) <= blockSize
  /\ 0 <= currentBlockNumber (snd (Segment.place seg data)) <= max_uint32.
Proof.
  intros Hbs. unfold Segment.place, Segment.layout.
  set (bs := currentBlockSize seg) in *. set (n := len64 data).
  assert (Hn : 0 <= n) by (unfold n, len64; lia).
  unfold blockSize, chunkHeaderSize in *.
  destruct (32768 - bs <? 7) eqn:Hpad;
    [apply Z.ltb_lt in Hpad | apply Z.ltb_ge in Hpad];
    match goal with
    | |- context [?a <=? ?b] => destruct (a <=? b) eqn:Hfit
    end;
    try apply Z.leb_le in Hfit; try apply Z.leb_gt in Hfit;
    match goal with
    | |- context [Segment.next_cursor ?a ?b] => destruct (Segment.next_cursor a b)
    end; cbn [snd currentBlockSize currentBlockNumber];
    (split; [| apply wrap32_range]).
  1, 3: lia.
  - pose proof (Z.div_mod (n - (32768 - 0 - 7) + (32768 - 7) - 1) (32768 - 7)
                  ltac:(lia)).
    pose proof (Z.mod_pos_bound (n - (32768 - 0 - 7) + (32768 - 7) - 1) (32768 - 7)
                  ltac:(lia)).
    lia.
  - pose proof (Z.div_mod (n - (32768 - bs - 7) + (32768 - 7) - 1) (32768 - 7)
                  ltac:(lia)).
    pose proof (Z.mod_pos_bound (n - (32768 - bs - 7) + (32768 - 7) - 1) (32768 - 7)
                  ltac:(lia)).
    lia.
Qed.

(** X8.  After a successful [Write] the WAL is not empty: the call
    rotated, or the active segment has grown. *)
Theorem IsEmpty_after_Write
    (data : list byte) (m m' : machine) (pos : ChunkPosition) :
  0 <= currentBlockSize (activeSegment (wal m)) ->
  Write data m = (Ok pos, m') ->
  fst (IsEmpty m') = Ok false.
Proof.
  intros Hbs H. apply Write_Ok in H as (m1 & Hrot & _ & Hact & Hold).
  unfold IsEmpty. rewrite bind_get_wal. simpl. f_equal.
  destruct (isFull (wal m) (len64 data)).
  - apply rotateActiveSegment_Ok in Hrot as (seg & w' & -> & _).
    rewrite Hold. simpl.
    match goal with
    | |- context [size ?o] => destruct (size o) eqn:Hsize; [| reflexivity]
    end.
    apply map_size_empty_iff in Hsize. apply insert_non_empty in Hsize.
    destruct Hsize.
  - subst m1. apply andb_false_intro2. apply Z.eqb_neq.
    rewrite Hact. destruct (place_cursor (activeSegment (wal m)) data Hbs)
      as [Hs Hn].
    unfold Segment.Size. rewrite wrap64_small;
      unfold min_int64, max_int64, max_uint32, blockSize in *; nia.
Qed.

Lemma IsEmpty_after_Write_witness :
  exists pos m',
    Write (Demo.payload 10) (Demo.fresh Demo.opts) = (Ok pos, m')
    /\ fst (IsEmpty (Demo.fresh Demo.opts)) = Ok true
    /\ fst (IsEmpty m') = Ok false.
Proof.
  eexists. eexists. split; [vm_compute; reflexivity |].
  split; [reflexivity |].
  by_instance
    (IsEmpty_after_Write (Demo.payload 10) (Demo.fresh Demo.opts) _ _
       ltac:(vm_compute; discriminate) ltac:(vm_compute; reflexivity)).
Defined.

(** ** Readers *)

(** X9.  The reader of [NewReaderWithMax]: the cursor at the first
    segment reader, the segments in ascending order of id, and among
    them exactly the segments of the WAL whose id is at most [segId];
    [segId = 0] selects every segment. *)
Theorem NewReaderWithMax_selects (segId : Z) (w : WAL) (e : world) :
  currentReader (NewReaderWithMax segId w e) = 0
  /\ StronglySorted Z.le (readerIds (NewReaderWithMax segId w e))
  /\ forall i : Z,
       i ∈ readerIds (NewReaderWithMax segId w e)
       <-> (segId = 0 \/ i <= segId)
           /\ (i = id (activeSegment w)
               \/ exists k seg, olderSegments w !! k = Some seg /\ i = id seg).
Proof.
  unfold NewReaderWithMax, readerIds. simpl.
  set (key := fun sr : segmentReader => id (srSegment sr)).
  set (keep := fun i : Z => (segId =? 0) || (i <=? segId)).
  assert (Hkeep : forall i, keep i = true <-> segId = 0 \/ i <= segId).
  { intros i. unfold keep. rewrite orb_true_iff, Z.eqb_eq, Z.leb_le. tauto. }
  split; [reflexivity |]. split.
  - eapply StronglySorted_fmap; [| apply (sortBy_sorted key)].
    intros x y Hxy. exact Hxy.
  - intros i.
    match goal with
    | |- context [Sort.sortBy ?less ?l] =>
        assert (Hperm : Permutation (Sort.sortBy less l) l)
          by apply (sortBy_Permutation key)
    end.
    rewrite Hperm, list_elem_of_fmap. clear Hperm.
    fold (keep (id (activeSegment w))).
    assert (Holder : forall sr,
      In sr (List.map (fun seg => SegmentReader.NewReader seg e)
               (List.filter (fun seg => keep (id seg))
                  (List.map snd (map_to_list (olderSegments w)))))
      <-> exists k seg, olderSegments w !! k = Some seg
                        /\ keep (id seg) = true
                        /\ sr = SegmentReader.NewReader seg e).
    { intros sr. rewrite in_map_iff. split.
      - intros (seg & <- & Hin). apply filter_In in Hin as [Hin Hk].
        apply in_map_iff in Hin as ([k seg'] & <- & Hin).
        apply list_elem_of_In, elem_of_map_to_list in Hin. eauto.
      - intros (k & seg & Hl & Hk & ->). exists seg. split; [reflexivity |].
        apply filter_In. split; [| exact Hk].
        apply in_map_iff. exists (k, seg). split; [reflexivity |].
        apply list_elem_of_In, elem_of_map_to_list. exact Hl. }
    split.
    + intros (sr & -> & Hin). apply list_elem_of_In in Hin.
      destruct (keep (id (activeSegment w))) eqn:Hact.
      * apply in_app_or in Hin as [Hin | [<- | []]].
        -- apply Holder in Hin as (k & seg & Hl & Hk & ->).
           split; [apply Hkeep, Hk | right; eauto].
        -- split; [apply Hkeep, Hact | left; reflexivity].
      * apply Holder in Hin as (k & seg & Hl & Hk & ->).
        split; [apply Hkeep, Hk | right; eauto].
    + intros [Hsel [-> | (k & seg & Hl & ->)]]; apply Hkeep in Hsel.
      * exists (SegmentReader.NewReader (activeSegment w) e).
        split; [reflexivity |]. rewrite Hsel.
        apply list_elem_of_In, in_or_app. right. left. reflexivity.
      * exists (SegmentReader.NewReader seg e). split; [reflexivity |].
        apply list_elem_of_In.
        assert (In (SegmentReader.NewReader seg e)
                  (List.map (fun seg => SegmentReader.NewReader seg e)
                     (List.filter (fun seg => keep (id seg))
                        (List.map snd (map_to_list (olderSegments w))))))
          by (apply Holder; eauto).
        destruct (keep (id (activeSegment w)));
          [apply in_or_app; left |]; assumption.
Qed.

Lemma drop_current r sr :
  index (segmentReaders r) (currentReader r) = Some sr ->
  drop (Z.to_nat (currentReader r)) (segmentReaders r)
  = sr :: drop (Z.to_nat (currentReader r + 1)) (segmentReaders r).
Proof.
  intros H. apply index_Some in H as [Hc Hl].
  replace (Z.to_nat (currentReader r + 1)) with (S (Z.to_nat (currentReader r)))
    by lia.
  apply drop_S. exact Hl.
Qed.

(** One call of [Next] on a readable reader: the end of the records,
    or the first of the records ahead. *)
Lemma Next_readable : forall (k : nat) (r : Reader),
  (length (segmentReaders r) - Z.to_nat (currentReader r) = k)%nat ->
  0 <= currentReader r ->
  readable r ->
  match ahead r with
  | [] =>
      exists r', Next r = (Err EOF, r')
                 /\ len64 (segmentReaders r') <= currentReader r'
                 /\ 0 <= currentReader r'
  | (sid, data) :: rest =>
      exists pos r', Next r = (Ok (data, pos), r')
                     /\ SegmentId pos = sid
                     /\ ahead r' = rest
                     /\ readable r'
                     /\ 0 <= currentReader r'
  end.
Proof.
  induction k as [| k IH]; intros r Hk Hc Hr; rewrite (Next_unfold r Hc).
  - assert (Hlen : len64 (segmentReaders r) <= currentReader r)
      by (unfold len64; lia).
    apply Z.leb_le in Hlen as Hb. rewrite Hb.
    unfold ahead. rewrite drop_ge by (unfold len64 in Hlen; lia). simpl.
    exists r. apply Z.leb_le in Hb. auto.
  - assert (Hlen : currentReader r < len64 (segmentReaders r))
      by (unfold len64; lia).
    apply Z.leb_gt in Hlen as Hb. rewrite Hb.
    destruct (index_in_range (segmentReaders r) (currentReader r)) as [sr Hsr];
      [lia |].
    rewrite Hsr. pose proof (drop_current r sr Hsr) as Hdrop.
    unfold readable in Hr. rewrite Hdrop in Hr.
    apply Forall_cons in Hr as [[Hopen Hintact] Htail].
    unfold SegmentReader.Next. rewrite Hopen.
    destruct (srPending sr) as [| rec rest] eqn:Hpend.
    + assert (Hahead : ahead (SkipCurrentSegment r) = ahead r).
      { unfold ahead. rewrite Hdrop. simpl. rewrite Hpend. reflexivity. }
      rewrite <- Hahead. apply IH; simpl; [lia | lia | exact Htail].
    + apply Forall_cons in Hintact as [Hrec Hrest]. rewrite Hrec.
      apply index_Some in Hsr as [_ Hl].
      assert (Hins : drop (Z.to_nat (currentReader r))
                       (<[Z.to_nat (currentReader r) :=
                            mkSegmentReader (srSegment sr) (rec_next_block rec)
                              (rec_next_offset rec) rest]> (segmentReaders r))
                     = mkSegmentReader (srSegment sr) (rec_next_block rec)
                         (rec_next_offset rec) rest
                       :: drop (Z.to_nat (currentReader r + 1)) (segmentReaders r)).
      { replace (Z.to_nat (currentReader r + 1))
          with (S (Z.to_nat (currentReader r))) by lia.
        rewrite <- (drop_insert_lt (segmentReaders r)
                      (S (Z.to_nat (currentReader r)))
                      (Z.to_nat (currentReader r))
                      (mkSegmentReader (srSegment sr) (rec_next_block rec)
                         (rec_next_offset rec) rest)) by lia.
        apply drop_S. apply list_lookup_insert_eq.
        apply lookup_lt_Some in Hl. exact Hl. }
      unfold ahead at 1. rewrite Hdrop. simpl. rewrite Hpend. simpl.
      eexists. eexists. split; [reflexivity |]. split; [reflexivity |].
      split; [| split].
      * unfold ahead. simpl. rewrite Hins. reflexivity.
      * unfold readable. simpl. rewrite Hins.
        apply Forall_cons. split; [split; assumption | exact Htail].
      * simpl. exact Hc.
Qed.

(** X10.  Calling [Next] until it reports [EOF], on a reader whose
    remaining segments are open and hold intact records, returns every
    record ahead of the reader, in the order of the segment readers
    and then of the file, each with the id of its segment in its
    position; [EOF] comes after the last record, with the cursor past
    the last segment reader. *)
Theorem Next_yields_every_record (r : Reader) :
  0 <= currentReader r ->
  readable r ->
  exists chunks r',
    drain (S (length (ahead r))) r = (chunks, Some EOF, r')
    /\ List.map (fun c => (SegmentId (snd c), fst c)) chunks = ahead r
    /\ len64 (segmentReaders r') <= currentReader r'.
Proof.
  remember (ahead r) as l eqn:Hl. revert r Hl.
  induction l as [| [sid data] l IH]; intros r Hl Hc Hr;
    pose proof (Next_readable _ r eq_refl Hc Hr) as Hn; rewrite <- Hl in Hn.
  - destruct Hn as (r' & Hn & Hend & _). simpl. rewrite Hn.
    exists [], r'. auto.
  - destruct Hn as (pos & r1 & Hn & Hsid & Hrest & Hr1 & Hc1).
    destruct (IH r1 (eq_sym Hrest) Hc1 Hr1) as (chunks & r' & Hd & Hm & Hend).
    change (drain (S (length ((sid, data) :: l))) r)
      with (match Next r with
            | (Ok chunk, r') =>
                let '(chunks, stop, r'') := drain (S (length l)) r' in
                (chunk :: chunks, stop, r'')
            | (Err err, r') => ([], Some err, r')
            | (PanicIndexOutOfRange, r') => ([], None, r')
            end).
    rewrite Hn, Hd. exists ((data, pos) :: chunks), r'.
    split; [reflexivity |]. split; [| exact Hend].
    simpl. rewrite Hsid, Hm. reflexivity.
Qed.

Lemma Next_yields_every_record_witness :
  ahead Demo2.reader
  = [(1, Demo.payload 50); (2, Demo.payload 60); (2, Demo.payload 10)]
  /\ exists chunks r',
       drain 4 Demo2.reader = (chunks, Some EOF, r')
       /\ List.map (fun c => (SegmentId (snd c), fst c)) chunks = ahead Demo2.reader
       /\ len64 (segmentReaders r') <= currentReader r'.
Proof.
  split; [vm_compute; reflexivity |].
  apply (Next_yields_every_record Demo2.reader).
  - vm_compute. discriminate.
  - apply (bool_decide_unpack _). vm_compute. exact I.
Defined.

Lemma Next_depth_EOF : forall (n : nat) (r r' : Reader),
  0 <= currentReader r ->
  len64 (segmentReaders r) <= currentReader r + Z.of_nat n ->
  Next_depth n r = (Err EOF, r') ->
  len64 (segmentReaders r') <= currentReader r'.
Proof.
  induction n as [| n IH]; intros r r' Hc Hn; simpl;
    destruct (len64 (segmentReaders r) <=? currentReader r) eqn:Hb;
    try (intros H; inversion H; subst; apply Z.leb_le; exact Hb);
    apply Z.leb_gt in Hb; try lia.
  destruct (index (segmentReaders r) (currentReader r)) as [sr |];
    [| discriminate].
  destruct (SegmentReader_Next_cases sr)
    as [(chunk & sr' & -> & _) | (err & ->)]; [discriminate |].
  destruct err; try discriminate.
  apply IH; simpl; lia.
Qed.

(** X11.  Once [Next] has reported [EOF] the reader is past its last
    segment reader: [Next] reports [EOF] again and leaves the reader
    as it is, while [CurrentSegmentId] and [CurrentChunkPosition],
    which index the slice unguarded, panic. *)
Theorem Next_EOF_is_final (r r' : Reader) :
  0 <= currentReader r ->
  Next r = (Err EOF, r') ->
  Next r' = (Err EOF, r')
  /\ CurrentSegmentId r' = PanicIndexOutOfRange
  /\ CurrentChunkPosition r' = PanicIndexOutOfRange.
Proof.
  intros Hc H. apply Next_depth_EOF in H; [| exact Hc | unfold len64; lia].
  assert (Hidx : index (segmentReaders r') (currentReader r') = None).
  { unfold index. destruct (currentReader r' <? 0); [reflexivity |].
    apply lookup_ge_None. unfold len64 in H. lia. }
  unfold CurrentSegmentId, CurrentChunkPosition. rewrite Hidx.
  split; [| split; reflexivity].
  unfold Next. apply Z.leb_le in H.
  destruct (length (segmentReaders r')); simpl; rewrite H; reflexivity.
Qed.

Lemma Next_EOF_is_final_witness :
  exists r',
    Next (snd (drain 3 Demo2.reader)) = (Err EOF, r')
    /\ Next r' = (Err EOF, r')
    /\ CurrentSegmentId r' = PanicIndexOutOfRange
    /\ CurrentChunkPosition r' = PanicIndexOutOfRange.
Proof.
  eexists. split; [vm_compute; reflexivity |].
  by_instance
    (Next_EOF_is_final (snd (drain 3 Demo2.reader)) _
       ltac:(vm_compute; discriminate) ltac:(vm_compute; reflexivity)).
Defined.

(** ** Close, Delete and Sync *)

Lemma SegmentIO_Close_Ok seg w seg' w' :
  SegmentIO.Close seg w = (Ok seg', w') ->
  id seg' = id seg /\ closed seg' = true
  /\ seg_files w' = seg_files w /\ io_trace w' = io_trace w.
Proof.
  unfold SegmentIO.Close. destruct (closed seg); [discriminate |].
  destruct (take_fault w) as [failed w1] eqn:Hf.
  destruct failed; [discriminate |]. intros H. inversion H; subst. simpl.
  apply take_fault_frame in Hf as (Ht & Hs & _). auto.
Qed.

Lemma closeOlderSegments_Ok : forall entries m u m',
  closeOlderSegments entries m = (Ok u, m') ->
  renameIds (wal m')
  = renameIds (wal m) ++ List.map (fun entry => id (snd entry)) entries
  /\ activeSegment (wal m') = activeSegment (wal m)
  /\ seg_files (env m') = seg_files (env m)
  /\ io_trace (env m') = io_trace (env m).
Proof.
  induction entries as [| entry rest IH]; intros m u m' H; simpl in H.
  - inversion H; subst. rewrite app_nil_r. auto.
  - apply bind_Ok in H as (seg & m1 & Hc & H).
    apply io_Ok in Hc as (w1 & Hc & ->).
    apply SegmentIO_Close_Ok in Hc as (Hid & _ & Hs & Ht).
    rewrite bind_update_wal in H. apply IH in H as (Hr & Ha & Hs' & Ht').
    simpl in *. rewrite Hr, Ha, Hs', Ht', Hid, <- app_assoc. auto.
Qed.

(** A successful [Close], field by field. *)
Lemma Close_Ok m u m' :
  Close m = (Ok u, m') ->
  olderSegments (wal m') = ∅
  /\ closed (activeSegment (wal m')) = true
  /\ id (activeSegment (wal m')) = id (activeSegment (wal m))
  /\ renameIds (wal m')
     = renameIds (wal m)
       ++ List.map (fun entry => id (snd entry))
            (map_to_list (olderSegments (wal m)))
       ++ [id (activeSegment (wal m))]
  /\ seg_files (env m') = seg_files (env m)
  /\ io_trace (env m') = io_trace (env m).
Proof.
  unfold Close. rewrite bind_get_wal. intros H.
  apply bind_Ok in H as (u1 & m1 & Hold & H).
  apply closeOlderSegments_Ok in Hold as (Hr & Ha & Hs & Ht).
  rewrite !bind_update_wal in H.
  apply bind_Ok in H as (seg & m2 & Hc & H).
  apply io_Ok in Hc as (w2 & Hc & ->). simpl in Hc.
  apply SegmentIO_Close_Ok in Hc as (Hid & Hcl & Hs2 & Ht2).
  inversion H; subst; clear H. simpl.
  rewrite Hr, Ha, Hs2, Hs, Ht2, Ht, <- app_assoc. repeat split; assumption.
Qed.

(** X12.  A successful [Close] closes the active segment, empties the
    map of older segments and appends to [renameIds] the id of every
    older segment (in the order of the loop, which Go leaves open)
    and then, last, the id of the active segment; no segment file
    changes and no system call is recorded as a write or a sync. *)
Theorem Close_records_every_segment (m m' : machine) (u : unit) :
  Close m = (Ok u, m') ->
  olderSegments (wal m') = ∅
  /\ closed (activeSegment (wal m')) = true
  /\ (exists ids,
        renameIds (wal m')
        = renameIds (wal m) ++ ids ++ [id (activeSegment (wal m))]
        /\ Permutation ids
             (List.map (fun entry => id (snd entry))
                (map_to_list (olderSegments (wal m)))))
  /\ seg_files (env m') = seg_files (env m)
  /\ io_trace (env m') = io_trace (env m).
Proof.
  intros H. apply Close_Ok in H as (Ho & Hc & _ & Hr & Hs & Ht).
  split; [exact Ho |]. split; [exact Hc |]. split; [| auto].
  eexists. split; [exact Hr | reflexivity].
Qed.

Lemma Close_records_every_segment_witness :
  exists m',
    Close Demo2.filled = (Ok tt, m')
    /\ renameIds (wal m') = [1; 2]
    /\ olderSegments (wal m') = ∅
    /\ closed (activeSegment (wal m')) = true.
Proof.
  eexists. split; [vm_compute; reflexivity |].
  destruct (Close_records_every_segment Demo2.filled _ tt
              ltac:(vm_compute; reflexivity))
    as (Ho & Hc & _ & _).
  split; [vm_compute; reflexivity |]. split; [exact Ho | exact Hc].
Defined.

(** With a closed active segment nothing goes through any more. *)
Lemma closed_active_rejects m :
  closed (activeSegment (wal m)) = true ->
  (forall data, exists e,
      Write data m = (Err e, m)
      /\ (e = ErrDataSizeTooLarge \/ e = ErrClosed))
  /\ Sync m = (Err ErrClosed, m)
  /\ OpenNewActiveSegment m = (Err ErrClosed, m).
Proof.
  intros Hc. destruct m as [w e]. simpl in Hc. split; [| split].
  - intros data. unfold Write. rewrite bind_get_wal. simpl.
    destruct (SegmentSize (options w) <? wrap64 (len64 data + chunkHeaderSize)).
    + exists ErrDataSizeTooLarge. auto.
    + exists ErrClosed. split; [| auto].
      destruct (isFull w (len64 data));
        unfold bind, when, rotateActiveSegment, bind, get_wal, io, Segment.Sync,
          Segment.Write, fail, ret; simpl; rewrite Hc; reflexivity.
  - unfold Sync, bind, get_wal, io, Segment.Sync, fail. simpl. rewrite Hc.
    reflexivity.
  - unfold OpenNewActiveSegment, bind, get_wal, io, Segment.Sync, fail. simpl.
    rewrite Hc. reflexivity.
Qed.

(** X13.  After a successful [Close] the WAL takes no more writes:
    [Write] returns an error ([ErrClosed], or the size error when the
    payload is too large), [Sync] and [OpenNewActiveSegment] return
    [ErrClosed], and none of them changes the WAL object, a segment
    file or the trace of system calls.  A second [Close] returns
    [ErrClosed] as well, yet it records the id of the active segment
    in [renameIds] once more. *)
Theorem Close_ends_writing (m m' : machine) (u : unit) :
  Close m = (Ok u, m') ->
  (forall data, exists e,
      Write data m' = (Err e, m')
      /\ (e = ErrDataSizeTooLarge \/ e = ErrClosed))
  /\ Sync m' = (Err ErrClosed, m')
  /\ OpenNewActiveSegment m' = (Err ErrClosed, m')
  /\ fst (Close m') = Err ErrClosed
  /\ renameIds (wal (snd (Close m')))
     = renameIds (wal m') ++ [id (activeSegment (wal m'))].
Proof.
  intros H. apply Close_Ok in H as (Ho & Hc & _).
  destruct (closed_active_rejects m' Hc) as (Hw & Hs & Hn).
  split; [exact Hw |]. split; [exact Hs |]. split; [exact Hn |].
  unfold Close. rewrite bind_get_wal, Ho, map_to_list_empty. simpl.
  unfold bind, ret, update_wal, io, SegmentIO.Close. simpl. rewrite Hc. simpl.
  auto.
Qed.

Lemma Close_ends_writing_witness :
  exists m',
    Close Demo2.filled = (Ok tt, m')
    /\ Write (Demo.payload 3) m' = (Err ErrClosed, m')
    /\ renameIds (wal (snd (Close m'))) = [1; 2; 2].
Proof.
  eexists. split; [vm_compute; reflexivity |].
  destruct (Close_ends_writing Demo2.filled _ tt ltac:(vm_compute; reflexivity))
    as (Hw & _ & _ & _ & Hr).
  split; [| vm_compute in Hr; vm_compute; exact Hr].
  vm_compute. reflexivity.
Defined.

Lemma SegmentIO_Remove_Ok seg w seg' w' :
  SegmentIO.Remove seg w = (Ok seg', w') ->
  closed seg' = true
  /\ seg_files w' = delete (id seg) (seg_files w)
  /\ io_trace w' = io_trace w.
Proof.
  unfold SegmentIO.Remove. destruct (closed seg); [discriminate |].
  destruct (take_fault w) as [failed w1] eqn:Hf.
  destruct failed; [discriminate |].
  destruct (seg_files w1 !! id seg); [| discriminate].
  intros H. inversion H; subst. simpl.
  apply take_fault_frame in Hf as (-> & -> & _). auto.
Qed.

Lemma removeOlderSegments_Ok : forall entries m u m',
  removeOlderSegments entries m = (Ok u, m') ->
  let ids := List.map (fun entry => id (snd entry)) entries in
  (forall sid, In sid ids -> seg_files (env m') !! sid = None)
  /\ (forall sid, ~ In sid ids ->
        seg_files (env m') !! sid = seg_files (env m) !! sid)
  /\ (forall sid, seg_files (env m) !! sid = None ->
        seg_files (env m') !! sid = None)
  /\ activeSegment (wal m') = activeSegment (wal m)
  /\ io_trace (env m') = io_trace (env m).
Proof.
  induction entries as [| entry rest IH]; intros m u m' H; simpl in H.
  - inversion H; subst. simpl. tauto.
  - apply bind_Ok in H as (seg & m1 & Hr & H).
    apply io_Ok in Hr as (w1 & Hr & ->).
    apply SegmentIO_Remove_Ok in Hr as (_ & Hfiles & Ht).
    rewrite bind_update_wal in H.
    apply IH in H as (Hin & Hout & Hgone & Ha & Ht'). simpl in *.
    rewrite Hfiles in Hout, Hgone.
    split; [| split; [| split; [| split]]].
    + intros sid [<- | Hsid]; [| apply Hin, Hsid].
      apply Hgone, lookup_delete_eq.
    + intros sid Hsid. rewrite Hout by tauto.
      apply lookup_delete_ne. intros Heq. apply Hsid. left. exact Heq.
    + intros sid Hsid. apply Hgone.
      destruct (decide (id (snd entry) = sid)) as [-> | Hne];
        [apply lookup_delete_eq | rewrite lookup_delete_ne by exact Hne; exact Hsid].
    + exact Ha.
    + congruence.
Qed.

(** X14.  A successful [Delete] removes the file of every segment of
    the WAL, the active one and the older ones, and no other file; it
    leaves the map of older segments empty and the active segment
    closed. *)
Theorem Delete_removes_every_file (m m' : machine) (u : unit) :
  Delete m = (Ok u, m') ->
  olderSegments (wal m') = ∅
  /\ closed (activeSegment (wal m')) = true
  /\ seg_files (env m') !! id (activeSegment (wal m)) = None
  /\ (forall k seg, olderSegments (wal m) !! k = Some seg ->
        seg_files (env m') !! id seg = None)
  /\ (forall sid,
        sid <> id (activeSegment (wal m)) ->
        (forall k seg, olderSegments (wal m) !! k = Some seg -> id seg <> sid) ->
        seg_files (env m') !! sid = seg_files (env m) !! sid).
Proof.
  unfold Delete. rewrite bind_get_wal. intros H.
  apply bind_Ok in H as (u1 & m1 & Hold & H).
  apply removeOlderSegments_Ok in Hold as (Hin & Hout & Hgone & Ha & _).
  rewrite bind_update_wal in H.
  apply bind_Ok in H as (act & m2 & Hr & H).
  apply io_Ok in Hr as (w2 & Hr & ->). simpl in Hr.
  apply SegmentIO_Remove_Ok in Hr as (Hcl & Hfiles & _).
  inversion H; subst; clear H. simpl. rewrite Hfiles.
  split; [reflexivity |]. split; [exact Hcl |].
  split; [apply lookup_delete_eq |]. split.
  - intros k seg Hk.
    destruct (decide (id (activeSegment (wal m)) = id seg)) as [-> | Hne];
      [apply lookup_delete_eq |].
    rewrite lookup_delete_ne by exact Hne. apply Hin.
    apply in_map_iff. exists (k, seg). split; [reflexivity |].
    apply list_elem_of_In, elem_of_map_to_list. exact Hk.
  - intros sid Hact Hother. rewrite lookup_delete_ne by congruence.
    apply Hout. intros Hsid. apply in_map_iff in Hsid as ([k seg] & Hid & Hk).
    apply list_elem_of_In, elem_of_map_to_list in Hk.
    exact (Hother k seg Hk Hid).
Qed.

Lemma Delete_removes_every_file_witness :
  exists m',
    Delete Demo2.filled = (Ok tt, m')
    /\ seg_files (env m') !! 2 = None
    /\ seg_files (env m') !! 1 = None.
Proof.
  eexists. split; [vm_compute; reflexivity |].
  destruct (Delete_removes_every_file Demo2.filled _ tt
              ltac:(vm_compute; reflexivity))
    as (_ & _ & Hact & Hold & _).
  split; [exact Hact |].
  apply (Hold 1 (mkSegment 1 0 57 false)). vm_compute. reflexivity.
Defined.

(** ** Read *)

Lemma run_keys ops : forall m,
  keysAreIds (wal m) -> keysAreIds (wal (run ops m)).
Proof.
  induction ops as [| o ops IH]; intros m Hinv; [exact Hinv |].
  simpl. apply IH, step_keys, Hinv.
Qed.

(** X15.  All along a run that starts with [Open], [Read] finds a
    segment for a position exactly when [NewReader] walks a segment
    with the id of the position; otherwise it returns the error that
    names the id and the extension, and touches nothing. *)
Theorem Read_finds_segments_of_NewReader
    (opts : Options) (w w0 : world) (wal0 : WAL) (ops : list operation)
    (pos : ChunkPosition) :
  Open opts w = (Ok wal0, w0) ->
  let m := run ops (mkMachine wal0 w0) in
  ((exists r, fst (Read pos m) = FromSegment r)
   <-> SegmentId pos ∈ readerIds (NewReader (wal m) (env m)))
  /\ (SegmentId pos ∉ readerIds (NewReader (wal m) (env m)) ->
      Read pos m
      = (SegmentNotFound (SegmentId pos) (DiskFileExtension (options (wal m))), m)).
Proof.
  intros Hopen m. apply Open_keys in Hopen.
  assert (Hkeys : keysAreIds (wal m)) by (apply run_keys; exact Hopen).
  destruct (NewReader_shape (wal m) (env m)) as (_ & _ & Hin).
  clearbody m. clear Hopen.
  assert (Hcases :
    (exists r, fst (Read pos m) = FromSegment r)
    /\ SegmentId pos ∈ readerIds (NewReader (wal m) (env m))
    \/ Read pos m
       = (SegmentNotFound (SegmentId pos) (DiskFileExtension (options (wal m))), m)
       /\ SegmentId pos ∉ readerIds (NewReader (wal m) (env m))).
  { unfold Read.
    destruct (SegmentId pos =? id (activeSegment (wal m))) eqn:Hact.
    - apply Z.eqb_eq in Hact. left. split; [| apply Hin; left; exact Hact].
      destruct (SegmentIO.Read _ _ _ _) as [r w1]. eauto.
    - apply Z.eqb_neq in Hact.
      destruct (olderSegments (wal m) !! SegmentId pos) as [seg |] eqn:Hold.
      + left. split; [destruct (SegmentIO.Read _ _ _ _) as [r w1]; eauto |].
        apply Hin. right. exists (SegmentId pos), seg. split; [exact Hold |].
        symmetry. exact (Hkeys _ _ Hold).
      + right. split; [reflexivity |].
        intros Hmem. apply Hin in Hmem as [Heq | (k & seg & Hk & Heq)];
          [contradiction |].
        pose proof (Hkeys _ _ Hk) as Hid. congruence. }
  destruct Hcases as [[Hfound Hmem] | [Hnone Hmem]].
  - split; [tauto | contradiction].
  - split; [| intros _; exact Hnone].
    split; [| contradiction]. intros [r Hr]. rewrite Hnone in Hr. discriminate.
Qed.

Lemma Read_finds_segments_of_NewReader_witness :
  Open Demo.opts Demo.twinDir = (Ok Demo2.twinWAL, Demo2.twinWorld)
  /\ Read (mkPos 3 0 0 0)
          (run [OpWrite (Demo.payload 90)] (mkMachine Demo2.twinWAL Demo2.twinWorld))
     = (SegmentNotFound 3 ".SEG",
        run [OpWrite (Demo.payload 90)] (mkMachine Demo2.twinWAL Demo2.twinWorld)).
Proof.
  split; [vm_compute; reflexivity |].
  apply (Read_finds_segments_of_NewReader Demo.opts Demo.twinDir Demo2.twinWorld
           Demo2.twinWAL [OpWrite (Demo.payload 90)] (mkPos 3 0 0 0)
           ltac:(vm_compute; reflexivity)).
  apply (bool_decide_unpack _). vm_compute. exact I.
Defined.

Lemma find_record_at_end rec : forall recs bn off block offset,
  SegmentIO.find_record recs bn off block offset = None ->
  chain_end recs bn off = (block, offset) ->
  SegmentIO.find_record (recs ++ [rec]) bn off block offset = Some rec.
Proof.
  induction recs as [| r recs IH]; simpl; intros bn off block offset Hnone Hend.
  - inversion Hend; subst. rewrite !Z.eqb_refl. reflexivity.
  - destruct ((bn =? block) && (off =? offset)); [discriminate |].
    apply IH; assumption.
Qed.

Lemma place_record seg data :
  0 <= currentBlockNumber seg <= max_uint32 ->
  let pos := fst (fst (Segment.place seg data)) in
  let rec := snd (fst (Segment.place seg data)) in
  (BlockNumber pos, ChunkOffset pos)
  = Segment.next_cursor (currentBlockNumber seg) (currentBlockSize seg)
  /\ rec_data rec = data /\ rec_intact rec = true
  /\ closed (snd (Segment.place seg data)) = closed seg.
Proof.
  intros Hbn. unfold Segment.place, Segment.layout, Segment.next_cursor.
  destruct (blockSize - currentBlockSize seg <? chunkHeaderSize);
    match goal with
    | |- context [?a <=? ?b] => destruct (a <=? b)
    end;
    match goal with
    | |- context [if ?c then (wrap32 ?x, 0) else (?y, ?z)] =>
        destruct (if c then (wrap32 x, 0) else (y, z))
    end; cbn [fst snd BlockNumber ChunkOffset rec_data rec_intact closed];
    rewrite ?Z.add_0_r, ?(wrap32_small (currentBlockNumber seg)) by exact Hbn;
    auto.
Qed.

Lemma Sync_files seg w u w' :
  Segment.Sync seg w = (Ok u, w') -> seg_files w' = seg_files w.
Proof.
  unfold Segment.Sync, fail, syscall. destruct (closed seg); [discriminate |].
  destruct (take_fault w) as [failed w1] eqn:Hf.
  destruct failed; intros H; [discriminate |]. inversion H; subst; simpl.
  apply take_fault_frame in Hf as (_ & -> & _). reflexivity.
Qed.

Lemma Segment_Write_files seg data w r w' :
  Segment.Write seg data w = (Ok r, w') ->
  closed seg = false
  /\ seg_files w'
     = <[id seg := file_of (id seg) w ++ [snd (fst (Segment.place seg data))]]>
         (seg_files w).
Proof.
  unfold Segment.Write. destruct (closed seg); [discriminate |].
  destruct (take_fault w) as [failed w1] eqn:Hf.
  destruct failed; [discriminate |].
  destruct (Segment.place seg data) as [[pos rec] seg1].
  intros H. inversion H; subst. simpl.
  apply take_fault_frame in Hf as (_ & Hs & _).
  unfold file_of. rewrite Hs. auto.
Qed.

Lemma rotateActiveSegment_files m u m1 :
  rotateActiveSegment m = (Ok u, m1) ->
  let sid := wrap32 (id (activeSegment (wal m)) + 1) in
  activeSegment (wal m1)
  = mkSegment sid
      (wrap32 (Segment.file_length (file_of sid (env m)) / blockSize))
      (Segment.file_length (file_of sid (env m)) mod blockSize) false
  /\ forall k, file_of k (env m1) = file_of k (env m).
Proof.
  unfold rotateActiveSegment. rewrite bind_get_wal. intros H.
  apply bind_Ok in H as (u1 & m2 & Hs & H).
  apply io_Ok in Hs as (w2 & Hs & ->). apply Sync_files in Hs.
  rewrite bind_update_wal in H.
  apply bind_Ok in H as (seg & m3 & Ho & H).
  apply io_Ok in Ho as (w3 & Ho & ->). cbn [env wal] in Ho.
  pose proof (openSegmentFile_segment _ _ _ _ Ho) as Hseg.
  assert (Hfiles : forall k, file_of k w3 = file_of k w2).
  { revert Ho. unfold Segment.openSegmentFile.
    destruct (take_fault w2) as [failed w] eqn:Hf.
    destruct failed; [discriminate |]. intros Ho. inversion Ho; subst.
    apply take_fault_frame in Hf as (_ & Hsf & _).
    intros k. unfold file_of. simpl. rewrite <- Hsf.
    destruct (decide (k = wrap32 (id (activeSegment (wal m)) + 1))) as [-> | Hne];
      [rewrite lookup_insert_eq | rewrite lookup_insert_ne by congruence];
      reflexivity. }
  inversion H; subst; clear H. cbn [wal env activeSegment set_activeSegment].
  unfold file_of in *. rewrite Hs. split; [reflexivity |].
  intros k. rewrite Hfiles, Hs. reflexivity.
Qed.

(** A successful [Write] and the segment files. *)
Lemma Write_Ok_files data m pos m' :
  Write data m = (Ok pos, m') ->
  exists m1,
    (if isFull (wal m) (len64 data)
     then rotateActiveSegment m = (Ok tt, m1) else m1 = m)
    /\ closed (activeSegment (wal m1)) = false
    /\ seg_files (env m')
       = <[id (activeSegment (wal m1)) :=
             file_of (id (activeSegment (wal m1))) (env m1)
             ++ [snd (fst (Segment.place (activeSegment (wal m1)) data))]]>
           (seg_files (env m1)).
Proof.
  unfold Write. rewrite bind_get_wal.
  destruct (SegmentSize (options (wal m)) <? wrap64 (len64 data + chunkHeaderSize));
    [discriminate |].
  intros H. apply bind_Ok in H as (u & m1 & Hrot & H).
  rewrite bind_get_wal in H.
  apply bind_Ok in H as (r & m2 & Hw & H).
  apply io_Ok in Hw as (w2 & Hw & ->).
  apply Segment_Write_files in Hw as (Hcl & Hfiles).
  rewrite !bind_update_wal, bind_get_wal in H. cbn [fst snd wal env] in H.
  exists m1. split.
  { apply when_Ok in Hrot. destruct (isFull (wal m) (len64 data));
      [destruct u |]; exact Hrot. }
  split; [exact Hcl |].
  apply bind_Ok in H as (u' & m5 & Hsync & H).
  assert (m' = m5) by (inversion H; auto). subst m5.
  apply when_Ok in Hsync.
  match type of Hsync with
  | if ?b then _ else _ => destruct b
  end.
  - apply bind_Ok in Hsync as (u'' & m6 & Hs & Hsync).
    apply io_Ok in Hs as (w6 & Hs & ->). apply Sync_files in Hs.
    inversion Hsync; subst. simpl in *. congruence.
  - subst m'. exact Hfiles.
Qed.

(** X16.  What [Write] has written, [Read] returns: when the cursor
    of the active segment is at the end of its file (or, when the
    call rotates, no file of the next id exists yet), [Read] at the
    position returned by a successful [Write] yields the payload. *)
Theorem Write_then_Read
    (data : list byte) (m m' : machine) (pos : ChunkPosition) :
  0 <= currentBlockNumber (activeSegment (wal m)) <= max_uint32 ->
  (if isFull (wal m) (len64 data)
   then file_of (wrap32 (id (activeSegment (wal m)) + 1)) (env m) = []
   else cursorAtEnd (activeSegment (wal m))
          (file_of (id (activeSegment (wal m))) (env m))) ->
  Write data m = (Ok pos, m') ->
  fst (take_fault (env m')) = false ->
  fst (Read pos m') = FromSegment (Ok data).
Proof.
  intros Hbn Hpre Hw Hfault.
  pose proof (Write_Ok _ _ _ _ Hw) as (m1 & Hrot & Hpos & Hact & _).
  pose proof (Write_Ok_files _ _ _ _ Hw) as (m1' & Hrot' & Hcl & Hfiles).
  assert (m1' = m1).
  { destruct (isFull (wal m) (len64 data)); congruence. }
  subst m1'. clear Hrot'.
  assert (Hm1 : 0 <= currentBlockNumber (activeSegment (wal m1)) <= max_uint32
                /\ cursorAtEnd (activeSegment (wal m1))
                     (file_of (id (activeSegment (wal m1))) (env m1))).
  { destruct (isFull (wal m) (len64 data)).
    - apply rotateActiveSegment_files in Hrot as [Hseg Hf].
      rewrite Hf, Hseg. cbn [id currentBlockNumber]. rewrite Hpre.
      split; [vm_compute; split; discriminate |].
      split; reflexivity.
    - subst m1. auto. }
  destruct Hm1 as [Hbn1 [Hend Hfree]].
  destruct (place_record (activeSegment (wal m1)) data Hbn1)
    as (Hcur & Hdata & Hintact & Hclosed).
  rewrite <- Hpos in Hcur.
  unfold Read. rewrite Hact, place_id.
  replace (SegmentId pos) with (id (activeSegment (wal m1)))
    by (rewrite Hpos, place_position; reflexivity).
  rewrite Z.eqb_refl. unfold SegmentIO.Read. rewrite Hclosed, Hcl, place_id.
  destruct (take_fault (env m')) as [failed w1] eqn:Hf. simpl in Hfault.
  subst failed. apply take_fault_frame in Hf as (_ & Hsf & _).
  unfold file_of at 1. rewrite Hsf, Hfiles, lookup_insert_eq. simpl.
  rewrite <- Hcur in Hend, Hfree. simpl in Hend, Hfree.
  rewrite (find_record_at_end _ _ _ _ _ _ Hfree Hend), Hintact, Hdata.
  reflexivity.
Qed.

Lemma Write_then_Read_witness :
  exists pos m',
    Write (Demo.payload 10) (Demo.exec (Write (Demo.payload 50)) (Demo.fresh Demo.opts))
    = (Ok pos, m')
    /\ pos = mkPos 1 0 57 17
    /\ fst (Read pos m') = FromSegment (Ok (Demo.payload 10)).
Proof.
  eexists. eexists. split; [vm_compute; reflexivity |].
  split; [reflexivity |].
  apply (Write_then_Read (Demo.payload 10)
           (Demo.exec (Write (Demo.payload 50)) (Demo.fresh Demo.opts))).
  - vm_compute. split; discriminate.
  - vm_compute. split; reflexivity.
  - vm_compute. reflexivity.
  - vm_compute. reflexivity.
Defined.

(** ** Segment files only grow *)

Lemma appendOnly_preorder : PreOrder appendOnly.
Proof.
  split.
  - intros w sid. reflexivity.
  - intros w1 w2 w3 H12 H23 sid. transitivity (file_of sid w2); auto.
Qed.

Lemma appendOnly_same_files w w' :
  seg_files w' = seg_files w -> appendOnly w w'.
Proof. intros H sid. unfold file_of. rewrite H. reflexivity. Qed.

Lemma appendOnly_Sync seg : keepsWorld appendOnly (Segment.Sync seg).
Proof.
  intros w. unfold Segment.Sync, fail, syscall.
  destruct (closed seg); [apply appendOnly_same_files; reflexivity |].
  destruct (take_fault w) as [failed w1] eqn:Hf.
  apply take_fault_frame in Hf as (_ & Hs & _).
  destruct failed; apply appendOnly_same_files; simpl; exact Hs.
Qed.

Lemma appendOnly_openSegmentFile sid :
  keepsWorld appendOnly (Segment.openSegmentFile sid).
Proof.
  intros w. unfold Segment.openSegmentFile.
  destruct (take_fault w) as [failed w1] eqn:Hf.
  apply take_fault_frame in Hf as (_ & Hs & _).
  destruct failed; [apply appendOnly_same_files; exact Hs |].
  intros k. unfold file_of. simpl. rewrite Hs.
  destruct (decide (k = sid)) as [-> | Hne];
    [rewrite lookup_insert_eq | rewrite lookup_insert_ne by congruence];
    reflexivity.
Qed.

Lemma appendOnly_append sid recs w w1 e :
  seg_files w1 = seg_files w ->
  appendOnly w (log_event e (put_file sid (file_of sid w1 ++ recs) w1)).
Proof.
  intros Hs k. unfold file_of. simpl. rewrite Hs.
  destruct (decide (k = sid)) as [-> | Hne];
    [rewrite lookup_insert_eq | rewrite lookup_insert_ne by congruence];
    simpl; [apply prefix_app_r |]; reflexivity.
Qed.

Lemma appendOnly_Write seg data : keepsWorld appendOnly (Segment.Write seg data).
Proof.
  intros w. unfold Segment.Write.
  destruct (closed seg); [apply appendOnly_same_files; reflexivity |].
  destruct (take_fault w) as [failed w1] eqn:Hf.
  apply take_fault_frame in Hf as (_ & Hs & _).
  destruct failed; [apply appendOnly_same_files; exact Hs |].
  destruct (Segment.place seg data) as [[pos rec] seg1]. simpl.
  apply appendOnly_append, Hs.
Qed.

Lemma appendOnly_writeAll seg datas :
  keepsWorld appendOnly (Segment.writeAll seg datas).
Proof.
  intros w. unfold Segment.writeAll.
  destruct (closed seg); [apply appendOnly_same_files; reflexivity |].
  destruct (take_fault w) as [failed w1] eqn:Hf.
  apply take_fault_frame in Hf as (_ & Hs & _).
  destruct failed; [apply appendOnly_same_files; exact Hs |].
  destruct (Segment.place_all seg datas) as [[ps recs] seg1]. simpl.
  apply appendOnly_append, Hs.
Qed.

Section KeepsEnv.
Context (R : world -> world -> Prop) (R_pre : PreOrder R).

Let keepsEnv {A} (c : M A) : Prop :=
  keepsWorld (fun m m' => R (env m) (env m')) c.

Lemma keepsEnv_ret {A} (a : A) : keepsEnv (ret a).
Proof. intros m. simpl. reflexivity. Qed.

Lemma keepsEnv_fail {A} (e : error) : keepsEnv (@fail machine A e).
Proof. intros m. simpl. reflexivity. Qed.

Lemma keepsEnv_update (f : WAL -> WAL) : keepsEnv (update_wal f).
Proof. intros m. simpl. reflexivity. Qed.

Lemma keepsEnv_io {A} (c : ST world A) : keepsWorld R c -> keepsEnv (io c).
Proof.
  intros Hc m. unfold io. specialize (Hc (env m)).
  destruct (c (env m)). simpl in *. exact Hc.
Qed.

Lemma keepsEnv_bind {A B} (c : M A) (k : A -> M B) :
  keepsEnv c -> (forall a, keepsEnv (k a)) -> keepsEnv (bind c k).
Proof.
  intros Hc Hk m. destruct (bind_cases c k m) as [(a & m1 & Ha & ->) | ->].
  - transitivity (env m1).
    + specialize (Hc m). rewrite Ha in Hc. exact Hc.
    + apply Hk.
  - apply Hc.
Qed.

Lemma keepsEnv_get {B} (k : WAL -> M B) :
  (forall w, keepsEnv (k w)) -> keepsEnv (bind get_wal k).
Proof. intros Hk m. rewrite bind_get_wal. apply Hk. Qed.

Lemma keepsEnv_when (b : bool) (c : M unit) : keepsEnv c -> keepsEnv (when b c).
Proof. intros Hc. destruct b; [exact Hc | apply keepsEnv_ret]. Qed.

Lemma keepsEnv_defer {A} (cleanup : M unit) (body : M A) :
  keepsEnv body -> keepsEnv cleanup -> keepsEnv (defer cleanup body).
Proof.
  intros Hb Hc m. rewrite defer_eq. simpl.
  transitivity (env (snd (body m))); [apply Hb | apply Hc].
Qed.

End KeepsEnv.

Ltac keeps_env L :=
  first [apply (L appendOnly appendOnly_preorder) | apply (L appendOnly)].

Lemma appendOnly_rotateActiveSegment m :
  appendOnly (env m) (env (snd (rotateActiveSegment m))).
Proof.
  revert m. unfold rotateActiveSegment.
  keeps_env @keepsEnv_get. intros w.
  keeps_env @keepsEnv_bind;
    [keeps_env @keepsEnv_io; apply appendOnly_Sync | intros _].
  keeps_env @keepsEnv_bind;
    [keeps_env @keepsEnv_update | intros _].
  keeps_env @keepsEnv_bind;
    [keeps_env @keepsEnv_io; apply appendOnly_openSegmentFile | intros seg].
  keeps_env @keepsEnv_update.
Qed.

Lemma appendOnly_step m o : appendOnly (env m) (env (step m o)).
Proof.
  destruct o as [data | | data | |]; simpl; revert m.
  - unfold Write. keeps_env @keepsEnv_get. intros w.
    destruct (SegmentSize (options w) <? wrap64 (len64 data + chunkHeaderSize));
      [keeps_env @keepsEnv_fail |].
    keeps_env @keepsEnv_bind;
      [keeps_env @keepsEnv_when;
       exact appendOnly_rotateActiveSegment | intros _].
    keeps_env @keepsEnv_get. intros w1.
    keeps_env @keepsEnv_bind;
      [keeps_env @keepsEnv_io; apply appendOnly_Write | intros r].
    cbv zeta.
    keeps_env @keepsEnv_bind;
      [keeps_env @keepsEnv_update | intros _].
    keeps_env @keepsEnv_bind;
      [keeps_env @keepsEnv_update | intros _].
    keeps_env @keepsEnv_get. intros w2.
    keeps_env @keepsEnv_bind;
      [| intros _; keeps_env @keepsEnv_ret].
    keeps_env @keepsEnv_when.
    keeps_env @keepsEnv_bind;
      [keeps_env @keepsEnv_io; apply appendOnly_Sync | intros _].
    keeps_env @keepsEnv_update.
  - unfold WriteAll. keeps_env @keepsEnv_get. intros w.
    destruct (length (pendingWrites w) =? 0)%nat;
      [keeps_env @keepsEnv_ret |].
    keeps_env @keepsEnv_defer;
      [| keeps_env @keepsEnv_update].
    keeps_env @keepsEnv_get. intros w1.
    destruct (SegmentSize (options w1) <? pendingSize w1);
      [keeps_env @keepsEnv_fail |].
    keeps_env @keepsEnv_bind;
      [keeps_env @keepsEnv_when;
       exact appendOnly_rotateActiveSegment | intros _].
    keeps_env @keepsEnv_get. intros w2.
    keeps_env @keepsEnv_bind;
      [keeps_env @keepsEnv_io; apply appendOnly_writeAll | intros r].
    keeps_env @keepsEnv_bind;
      [keeps_env @keepsEnv_update | intros _].
    keeps_env @keepsEnv_ret.
  - intros m sid. reflexivity.
  - intros m sid. reflexivity.
  - unfold OpenNewActiveSegment.
    keeps_env @keepsEnv_get. intros w.
    keeps_env @keepsEnv_bind;
      [keeps_env @keepsEnv_io; apply appendOnly_Sync | intros _].
    keeps_env @keepsEnv_bind;
      [keeps_env @keepsEnv_io; apply appendOnly_openSegmentFile | intros seg].
    keeps_env @keepsEnv_update.
Qed.

Lemma appendOnly_run ops : forall m, appendOnly (env m) (env (run ops m)).
Proof.
  induction ops as [| o ops IH]; intros m; simpl.
  - intros sid. reflexivity.
  - intros sid. transitivity (file_of sid (env (step m o)));
      [apply appendOnly_step | apply IH].
Qed.

(** X17.  A run of [Write], [WriteAll], [PendingWrites],
    [ClearPendingWrites] and [OpenNewActiveSegment] calls, failed
    calls included, never rewrites, truncates or removes what a
    segment file holds: every file afterwards starts with the records
    it held before. *)
Theorem segment_files_only_grow
    (ops : list operation) (m : machine) (sid : SegSerialID) :
  file_of sid (env m) `prefix_of` file_of sid (env (run ops m)).
Proof. apply appendOnly_run. Qed.

(** ** Records stay readable *)

Lemma sameActive_preorder : PreOrder sameActive.
Proof.
  split; [intros w; reflexivity |].
  intros w1 w2 w3. unfold sameActive. congruence.
Qed.

Lemma openOrSame_preorder : PreOrder openOrSame.
Proof.
  split; [intros w; right; reflexivity |].
  intros w1 w2 w3 [H12 | H12] [H23 | H23]; unfold openOrSame;
    try (left; congruence); right; congruence.
Qed.

Lemma place_closed seg data :
  closed (snd (Segment.place seg data)) = closed seg.
Proof.
  unfold Segment.place.
  destruct (Segment.layout _ _) as [[[[adv0 off] adv] bs'] size].
  destruct (Segment.next_cursor _ _). reflexivity.
Qed.

Lemma place_all_closed datas : forall seg,
  closed (snd (Segment.place_all seg datas)) = closed seg.
Proof.
  induction datas as [| d ds IH]; intros seg; simpl; [reflexivity |].
  pose proof (place_closed seg d) as Hc.
  destruct (Segment.place seg d) as [[pos rec] seg1].
  specialize (IH seg1).
  destruct (Segment.place_all seg1 ds) as [[ps recs] seg2]. simpl in *.
  congruence.
Qed.

(** Opening a segment and making it the active one. *)
Lemma open_then_install sid (g : WAL -> WAL) m :
  openOrSame (wal m)
    (wal (snd (bind (io (Segment.openSegmentFile sid))
                 (fun seg => update_wal (fun w => set_activeSegment seg (g w)))
                 m))).
Proof.
  unfold bind, io, update_wal.
  destruct (Segment.openSegmentFile sid (env m)) as [[seg | e |] w1] eqn:Ho;
    simpl; try (right; reflexivity).
  apply openSegmentFile_Ok in Ho as (_ & Hc & _). left. exact Hc.
Qed.

Lemma openOrSame_rotateActiveSegment : keepsWAL openOrSame rotateActiveSegment.
Proof.
  unfold rotateActiveSegment.
  apply (@keepsWAL_get openOrSame). intros w.
  apply (@keepsWAL_bind openOrSame openOrSame_preorder);
    [apply (@keepsWAL_io openOrSame openOrSame_preorder) | intros _].
  apply (@keepsWAL_bind openOrSame openOrSame_preorder);
    [apply (@keepsWAL_update openOrSame); intros w1; right; reflexivity
    | intros _].
  intros m. apply open_then_install.
Qed.

Lemma openOrSame_OpenNewActiveSegment : keepsWAL openOrSame OpenNewActiveSegment.
Proof.
  unfold OpenNewActiveSegment.
  apply (@keepsWAL_get openOrSame). intros w.
  apply (@keepsWAL_bind openOrSame openOrSame_preorder);
    [apply (@keepsWAL_io openOrSame openOrSame_preorder) | intros _].
  intros m. apply open_then_install.
Qed.

Lemma openOrSame_Write data : keepsWAL openOrSame (Write data).
Proof.
  unfold Write. apply (@keepsWAL_get openOrSame). intros w.
  destruct (SegmentSize (options w) <? wrap64 (len64 data + chunkHeaderSize));
    [apply (@keepsWAL_fail openOrSame openOrSame_preorder) |].
  apply (@keepsWAL_bind openOrSame openOrSame_preorder);
    [apply (@keepsWAL_when openOrSame openOrSame_preorder),
       openOrSame_rotateActiveSegment | intros _].
  intros m. rewrite bind_get_wal.
  match goal with
  | |- context [bind ?c ?k m] =>
      destruct (bind_cases c k m) as [(r & m2 & Hw & ->) | ->]
  end.
  - apply io_Ok in Hw as (w2 & Hw & ->).
    pose proof (Segment_Write_files _ _ _ _ _ Hw) as [Hcl _].
    apply Segment_Write_position in Hw. subst r. cbn [fst snd].
    rewrite bind_update_wal. left.
    match goal with
    | |- context [snd (?rest ?m3)] =>
        assert (Hsame : keepsWAL sameActive rest)
    end.
    { apply (@keepsWAL_bind sameActive sameActive_preorder);
        [apply (@keepsWAL_update sameActive); intros w1; reflexivity | intros _].
      apply (@keepsWAL_get sameActive). intros w1.
      apply (@keepsWAL_bind sameActive sameActive_preorder);
        [| intros _; apply (@keepsWAL_ret sameActive sameActive_preorder)].
      apply (@keepsWAL_when sameActive sameActive_preorder).
      apply (@keepsWAL_bind sameActive sameActive_preorder);
        [apply (@keepsWAL_io sameActive sameActive_preorder) | intros _].
      apply (@keepsWAL_update sameActive). intros w2'. reflexivity. }
    rewrite (Hsame _). simpl. rewrite place_closed. exact Hcl.
  - unfold io. destruct (Segment.Write _ _ _). right. reflexivity.
Qed.

Lemma openOrSame_WriteAll : keepsWAL openOrSame WriteAll.
Proof.
  unfold WriteAll. apply (@keepsWAL_get openOrSame). intros w.
  destruct (length (pendingWrites w) =? 0)%nat;
    [apply (@keepsWAL_ret openOrSame openOrSame_preorder) |].
  apply (@keepsWAL_defer openOrSame openOrSame_preorder);
    [| apply (@keepsWAL_update openOrSame); intros w1; right; reflexivity].
  apply (@keepsWAL_get openOrSame). intros w1.
  destruct (SegmentSize (options w1) <? pendingSize w1);
    [apply (@keepsWAL_fail openOrSame openOrSame_preorder) |].
  apply (@keepsWAL_bind openOrSame openOrSame_preorder);
    [apply (@keepsWAL_when openOrSame openOrSame_preorder),
       openOrSame_rotateActiveSegment | intros _].
  intros m. rewrite bind_get_wal.
  match goal with
  | |- context [bind ?c ?k m] =>
      destruct (bind_cases c k m) as [(r & m2 & Hw & ->) | ->]
  end.
  - apply io_Ok in Hw as (w2 & Hw & ->).
    assert (Hcl : closed (activeSegment (wal m)) = false).
    { revert Hw. unfold Segment.writeAll.
      destruct (closed (activeSegment (wal m))); [discriminate | reflexivity]. }
    apply Segment_writeAll_positions in Hw. subst r. cbn [fst snd].
    rewrite bind_update_wal. left. simpl. rewrite place_all_closed. exact Hcl.
  - unfold io. destruct (Segment.writeAll _ _ _). right. reflexivity.
Qed.

Lemma step_active_open m o : openOrSame (wal m) (wal (step m o)).
Proof.
  destruct o as [data | | data | |]; simpl.
  - apply openOrSame_Write.
  - apply openOrSame_WriteAll.
  - right. reflexivity.
  - right. reflexivity.
  - apply openOrSame_OpenNewActiveSegment.
Qed.

Lemma wrap32_succ_neq (a : Z) : wrap32 (a + 1) <> a.
Proof.
  unfold wrap32. intros H.
  pose proof (Z.mod_pos_bound (a + 1) (2 ^ 32) ltac:(lia)) as Hb.
  assert (Ha : 0 <= a < 2 ^ 32) by lia.
  destruct (Z.eq_dec a (2 ^ 32 - 1)) as [-> | Hne].
  - vm_compute in H. discriminate.
  - rewrite Z.mod_small in H by lia. lia.
Qed.

Lemma step_served m o sid : served (wal m) sid -> served (wal (step m o)) sid.
Proof.
  intros (seg & Hseg & Hcl & Hid). unfold served, segmentOf in *.
  pose proof (step_active_open m o) as Hopen.
  destruct (step_segments m o) as [[Ha Ho] | [Ha Ho]]; rewrite Ha, Ho.
  - destruct (sid =? id (activeSegment (wal m))) eqn:Hact; [| eauto].
    apply Z.eqb_eq in Hact. inversion Hseg; subst seg; clear Hseg.
    exists (activeSegment (wal (step m o))). split; [reflexivity |].
    split; [| congruence].
    destruct Hopen as [Hopen | Hopen]; [exact Hopen | congruence].
  - destruct (sid =? wrap32 (id (activeSegment (wal m)) + 1)) eqn:Hnew.
    + apply Z.eqb_eq in Hnew.
      exists (activeSegment (wal (step m o))). split; [reflexivity |].
      split; [| congruence].
      destruct Hopen as [Hopen | Hopen]; [exact Hopen |].
      exfalso. apply (wrap32_succ_neq (id (activeSegment (wal m)))). congruence.
    + destruct (sid =? id (activeSegment (wal m))) eqn:Hact.
      * apply Z.eqb_eq in Hact. inversion Hseg; subst seg; clear Hseg.
        exists (activeSegment (wal m)). rewrite Hact, lookup_insert_eq. auto.
      * apply Z.eqb_neq in Hact. exists seg.
        rewrite lookup_insert_ne by congruence. auto.
Qed.

Lemma run_served ops sid : forall m,
  served (wal m) sid -> served (wal (run ops m)) sid.
Proof.
  induction ops as [| o ops IH]; intros m H; [exact H |].
  simpl. apply IH, step_served, H.
Qed.

Lemma find_record_prefix recs more block offset rec : forall bn off,
  SegmentIO.find_record recs bn off block offset = Some rec ->
  SegmentIO.find_record (recs ++ more) bn off block offset = Some rec.
Proof.
  induction recs as [| r recs IH]; simpl; intros bn off H; [discriminate |].
  destruct ((bn =? block) && (off =? offset)); [exact H | apply IH, H].
Qed.

(** What a successful [SegmentIO.Read] has found. *)
Lemma SegmentIO_Read_Ok seg block offset w data w' :
  SegmentIO.Read seg block offset w = (Ok data, w') ->
  closed seg = false
  /\ exists rec,
       SegmentIO.find_record (file_of (id seg) w) 0 0 block offset = Some rec
       /\ rec_intact rec = true /\ rec_data rec = data.
Proof.
  unfold SegmentIO.Read. destruct (closed seg); [discriminate |].
  destruct (take_fault w) as [failed w1] eqn:Hf.
  destruct failed; [discriminate |].
  apply take_fault_frame in Hf as (_ & Hs & _).
  unfold file_of. rewrite Hs.
  destruct (SegmentIO.find_record _ 0 0 block offset) as [rec |]; [| discriminate].
  destruct (rec_intact rec) eqn:Hi; [| discriminate].
  intros H. inversion H; subst. eauto.
Qed.

(** X18.  What [Read] returns for a position, it returns after any
    further run of [Write], [WriteAll], [PendingWrites],
    [ClearPendingWrites] and [OpenNewActiveSegment] calls as well
    (failed calls included, and rotations that move the segment of
    the position to the older ones), as long as the read system call
    itself does not fail. *)
Theorem records_stay_readable
    (opts : Options) (w w0 : world) (wal0 : WAL) (ops1 ops2 : list operation)
    (pos : ChunkPosition) (data : list byte) :
  Open opts w = (Ok wal0, w0) ->
  let m := run ops1 (mkMachine wal0 w0) in
  fst (Read pos m) = FromSegment (Ok data) ->
  fst (take_fault (env (run ops2 m))) = false ->
  fst (Read pos (run ops2 m)) = FromSegment (Ok data).
Proof.
  intros Hopen m Hread Hfault. apply Open_keys in Hopen.
  assert (Hkeys : keysAreIds (wal m)) by (apply run_keys; exact Hopen).
  clearbody m. clear Hopen.
  assert (Hm : served (wal m) (SegmentId pos)
               /\ exists rec,
                    SegmentIO.find_record (file_of (SegmentId pos) (env m)) 0 0
                      (BlockNumber pos) (ChunkOffset pos) = Some rec
                    /\ rec_intact rec = true /\ rec_data rec = data).
  { revert Hread. unfold Read, served.
    fold (segmentOf (wal m) (SegmentId pos)).
    destruct (segmentOf (wal m) (SegmentId pos)) as [seg |] eqn:Hseg;
      [| discriminate].
    destruct (SegmentIO.Read seg _ _ (env m)) as [r w1] eqn:Hr. simpl.
    intros H. inversion H; subst r; clear H.
    apply SegmentIO_Read_Ok in Hr as (Hcl & Hrec).
    assert (Hid : id seg = SegmentId pos).
    { revert Hseg. unfold segmentOf.
      destruct (SegmentId pos =? id (activeSegment (wal m))) eqn:Hact.
      - apply Z.eqb_eq in Hact. intros H. inversion H; subst. auto.
      - apply Hkeys. }
    rewrite Hid in Hrec. split; [exists seg; auto | exact Hrec]. }
  destruct Hm as (Hserved & rec & Hfind & Hintact & Hdata).
  apply (run_served ops2) in Hserved as (seg' & Hseg' & Hcl' & Hid').
  destruct (appendOnly_run ops2 m (SegmentId pos)) as [more Hmore].
  unfold Read. fold (segmentOf (wal (run ops2 m)) (SegmentId pos)).
  rewrite Hseg'. unfold SegmentIO.Read. rewrite Hcl'.
  destruct (take_fault (env (run ops2 m))) as [failed w1] eqn:Hf.
  simpl in Hfault. subst failed.
  apply take_fault_frame in Hf as (_ & Hs & _).
  unfold file_of at 1. rewrite Hs, Hid'.
  fold (file_of (SegmentId pos) (env (run ops2 m))). rewrite Hmore.
  rewrite (find_record_prefix _ more _ _ _ _ _ Hfind), Hintact, Hdata.
  reflexivity.
Qed.

Lemma records_stay_readable_witness :
  Open Demo.opts Demo.emptyDir
  = (Ok (wal (Demo.fresh Demo.opts)), env (Demo.fresh Demo.opts))
  /\ fst (Read (mkPos 1 0 0 57)
            (run [OpWrite (Demo.payload 60); OpWrite (Demo.payload 10)]
               (run [OpWrite (Demo.payload 50)]
                  (mkMachine (wal (Demo.fresh Demo.opts))
                             (env (Demo.fresh Demo.opts))))))
     = FromSegment (Ok (Demo.payload 50)).
Proof.
  split; [vm_compute; reflexivity |].
  apply (records_stay_readable Demo.opts Demo.emptyDir
           (env (Demo.fresh Demo.opts)) (wal (Demo.fresh Demo.opts))
           [OpWrite (Demo.payload 50)]
           [OpWrite (Demo.payload 60); OpWrite (Demo.payload 10)]
           (mkPos 1 0 0 57) (Demo.payload 50));
    vm_compute; reflexivity.
Defined.

(** ** A batch is written as a whole or not at all *)

Lemma sameFiles_preorder : PreOrder sameFiles.
Proof.
  split; [intros w sid; reflexivity |].
  intros w1 w2 w3 H12 H23 sid. rewrite H23, H12. reflexivity.
Qed.

Lemma sameFiles_same_map w w' : seg_files w' = seg_files w -> sameFiles w w'.
Proof. intros H sid. unfold file_of. rewrite H. reflexivity. Qed.

Lemma sameFiles_Sync seg : keepsWorld sameFiles (Segment.Sync seg).
Proof.
  intros w. unfold Segment.Sync, fail, syscall.
  destruct (closed seg); [apply sameFiles_same_map; reflexivity |].
  destruct (take_fault w) as [failed w1] eqn:Hf.
  apply take_fault_frame in Hf as (_ & Hs & _).
  destruct failed; apply sameFiles_same_map; simpl; exact Hs.
Qed.

Lemma sameFiles_openSegmentFile sid :
  keepsWorld sameFiles (Segment.openSegmentFile sid).
Proof.
  intros w. unfold Segment.openSegmentFile.
  destruct (take_fault w) as [failed w1] eqn:Hf.
  apply take_fault_frame in Hf as (_ & Hs & _).
  destruct failed; [apply sameFiles_same_map; exact Hs |].
  intros k. unfold file_of. simpl. rewrite Hs.
  destruct (decide (k = sid)) as [-> | Hne];
    [rewrite lookup_insert_eq | rewrite lookup_insert_ne by congruence];
    reflexivity.
Qed.

Lemma sameFiles_rotateActiveSegment m :
  sameFiles (env m) (env (snd (rotateActiveSegment m))).
Proof.
  revert m. unfold rotateActiveSegment.
  apply (@keepsEnv_get sameFiles). intros w.
  apply (@keepsEnv_bind sameFiles sameFiles_preorder);
    [apply (@keepsEnv_io sameFiles), sameFiles_Sync | intros _].
  apply (@keepsEnv_bind sameFiles sameFiles_preorder);
    [apply (@keepsEnv_update sameFiles sameFiles_preorder) | intros _].
  apply (@keepsEnv_bind sameFiles sameFiles_preorder);
    [apply (@keepsEnv_io sameFiles), sameFiles_openSegmentFile | intros seg].
  apply (@keepsEnv_update sameFiles sameFiles_preorder).
Qed.

Lemma io_bind_Ok {A B} (c : ST world A) (k : A -> M B) m a w' :
  c (env m) = (Ok a, w') -> bind (io c) k m = k a (mkMachine (wal m) w').
Proof. intros H. unfold bind, io. rewrite H. reflexivity. Qed.

Lemma io_bind_Err {A B} (c : ST world A) (k : A -> M B) m e w' :
  c (env m) = (Err e, w') -> bind (io c) k m = (Err e, mkMachine (wal m) w').
Proof. intros H. unfold bind, io. rewrite H. reflexivity. Qed.

Lemma writeAll_cases seg datas w :
  (exists r w', Segment.writeAll seg datas w = (Ok r, w'))
  \/ (exists e w', Segment.writeAll seg datas w = (Err e, w')
                   /\ seg_files w' = seg_files w).
Proof.
  unfold Segment.writeAll. destruct (closed seg); [right; eauto |].
  destruct (take_fault w) as [failed w1] eqn:Hf.
  apply take_fault_frame in Hf as (_ & Hs & _).
  destruct failed; [right; eauto |].
  destruct (Segment.place_all seg datas) as [[ps recs] seg1]. left. eauto.
Qed.

(** X19.  [WriteAll] writes its batch as a whole or not at all:
    whenever it returns an error (the batch is too large, or the
    rotation or the append fails), no segment file holds a record
    more than before, although the staged batch is gone. *)
Theorem WriteAll_all_or_nothing (m : machine) (e : error) :
  fst (WriteAll m) = Err e ->
  (forall sid, file_of sid (env (snd (WriteAll m))) = file_of sid (env m))
  /\ pendingWrites (wal (snd (WriteAll m))) = [].
Proof.
  unfold WriteAll. rewrite bind_get_wal.
  destruct (length (pendingWrites (wal m)) =? 0)%nat; [discriminate |].
  rewrite defer_eq. cbn [fst snd].
  match goal with
  | |- fst (?body m) = _ -> _ => set (locked := body)
  end.
  intros Herr. split; [| reflexivity].
  change (sameFiles (env m) (env (snd (locked m)))).
  revert Herr. subst locked. cbv beta. rewrite bind_get_wal.
  destruct (SegmentSize (options (wal m)) <? pendingSize (wal m));
    [intros _ sid; reflexivity |].
  match goal with
  | |- context [bind (when ?b rotateActiveSegment) ?k m] =>
      assert (Hrot : sameFiles (env m) (env (snd (when b rotateActiveSegment m))))
        by (destruct b; [apply sameFiles_rotateActiveSegment
                        | intros sid; reflexivity]);
      destruct (bind_cases (when b rotateActiveSegment) k m)
        as [(u & m1 & Hc & ->) | ->]
  end; [| intros _; exact Hrot].
  rewrite Hc in Hrot. cbn [snd] in Hrot. rewrite bind_get_wal.
  destruct (writeAll_cases (activeSegment (wal m1)) (pendingWrites (wal m1))
              (env m1)) as [(r & w1 & Hw) | (e' & w1 & Hw & Hs)].
  - rewrite (io_bind_Ok _ _ _ _ _ Hw). discriminate.
  - rewrite (io_bind_Err _ _ _ _ _ Hw). intros _. cbn [snd env].
    destruct sameFiles_preorder as [_ Htrans]. apply (Htrans _ _ _ Hrot).
    apply sameFiles_same_map, Hs.
Qed.

Lemma WriteAll_all_or_nothing_witness :
  fst (WriteAll Demo2.stagedFaulty) = Err ErrIO
  /\ file_of 1 (env (snd (WriteAll Demo2.stagedFaulty))) = []
  /\ pendingWrites (wal (snd (WriteAll Demo2.stagedFaulty))) = [].
Proof.
  split; [vm_compute; reflexivity |].
  destruct (WriteAll_all_or_nothing Demo2.stagedFaulty ErrIO
              ltac:(vm_compute; reflexivity)) as [Hfiles Hpending].
  split; [rewrite Hfiles; vm_compute; reflexivity | exact Hpending].
Defined.

(** ** The block cache *)

(** X20.  The block cache that [Open] sets up holds the least number
    of blocks that cover [BlockCache] bytes; with [BlockCache = 0]
    there is no cache. *)
Theorem Open_blockCache_capacity (opts : Options) (w w0 : world) (wal0 : WAL) :
  0 <= BlockCache opts <= max_uint32 ->
  Open opts w = (Ok wal0, w0) ->
  match blockCache wal0 with
  | None => BlockCache opts = 0
  | Some capacity =>
      0 < BlockCache opts
      /\ (capacity - 1) * blockSize < BlockCache opts <= capacity * blockSize
  end.
Proof.
  intros Hrange Hopen.
  assert (Hcache : blockCache wal0 = blockCacheCapacity opts).
  { revert Hopen. unfold Open.
    destruct (negb (String.prefix "." (DiskFileExtension opts))); [discriminate |].
    destruct (wrap32 (SegmentSize opts) <? BlockCache opts); [discriminate |].
    intros H. apply bind_Ok in H as (u & w1 & _ & H).
    apply bind_Ok in H as (entries & w2 & _ & H).
    destruct (Sort.Ints _) as [| segId rest];
      apply bind_Ok in H as (r & w3 & _ & H); inversion H; subst; reflexivity. }
  rewrite Hcache. unfold blockCacheCapacity, blockSize, max_uint32 in *.
  destruct (0 <? BlockCache opts) eqn:Hpos;
    [apply Z.ltb_lt in Hpos | apply Z.ltb_ge in Hpos; lia].
  pose proof (Z.div_mod (BlockCache opts) 32768 ltac:(lia)) as Hdm.
  pose proof (Z.mod_pos_bound (BlockCache opts) 32768 ltac:(lia)) as Hmod.
  destruct (BlockCache opts mod 32768 =? 0) eqn:Hz; simpl;
    [apply Z.eqb_eq in Hz | apply Z.eqb_neq in Hz].
  - lia.
  - rewrite wrap32_small; [lia |].
    assert (BlockCache opts / 32768 <= 4294967295 / 32768)
      by (apply Z.div_le_mono; lia).
    assert (0 <= BlockCache opts / 32768) by (apply Z.div_pos; lia).
    change (4294967295 / 32768) with 131071 in *. unfold max_uint32. lia.
Qed.

Lemma Open_blockCache_capacity_witness :
  exists wal0 w0,
    Open (mkOptions "/tmp/wal" 100000 40000 ".SEG" false 0) Demo.emptyDir
    = (Ok wal0, w0)
    /\ blockCache wal0 = Some 2
    /\ (2 - 1) * blockSize < 40000 <= 2 * blockSize.
Proof.
  eexists. eexists. split; [vm_compute; reflexivity |].
  split; [vm_compute; reflexivity |].
  apply (Open_blockCache_capacity
           (mkOptions "/tmp/wal" 100000 40000 ".SEG" false 0)
           Demo.emptyDir _ _
           ltac:(vm_compute; split; discriminate)
           ltac:(vm_compute; reflexivity)).
Defined.

(** ** What a reader sees after a Write *)

Section SortUnique.
Context {A : Type} (key : A -> Z).

Let less (a b : A) : bool := key a <? key b.
Let ordered (a b : A) : Prop := key a <= key b.

Lemma insert_app_last (x a : A) (l : list A) :
  key x < key a ->
  Sort.insert less x (l ++ [a]) = Sort.insert less x l ++ [a].
Proof.
  intros Hlt. induction l as [| y l IH]; simpl.
  - unfold less. replace (key a <? key x) with false
      by (symmetry; apply Z.ltb_ge; lia). reflexivity.
  - destruct (less y x); [rewrite IH |]; reflexivity.
Qed.

Lemma sortBy_app_last (a : A) (l : list A) :
  Forall (fun x => key x < key a) l ->
  Sort.sortBy less (l ++ [a]) = Sort.sortBy less l ++ [a].
Proof.
  induction 1 as [| x l Hx Hl IH]; simpl; [reflexivity |].
  unfold Sort.sortBy in *. rewrite IH. apply insert_app_last, Hx.
Qed.

Lemma sorted_unique (l1 : list A) : forall l2,
  StronglySorted ordered l1 -> StronglySorted ordered l2 ->
  Permutation l1 l2 -> NoDup (List.map key l1) -> l1 = l2.
Proof.
  induction l1 as [| x l1 IH]; intros l2 H1 H2 Hp Hnd.
  - apply Permutation_nil in Hp. auto.
  - destruct l2 as [| y l2];
      [apply Permutation_sym, Permutation_nil in Hp; discriminate |].
    inversion H1 as [| ? ? Hs1 Hx]; subst.
    inversion H2 as [| ? ? Hs2 Hy]; subst.
    simpl in Hnd. apply NoDup_cons in Hnd as [Hnotin Hnd].
    assert (Hyin : In y (x :: l1))
      by (apply (Permutation_in y (Permutation_sym Hp)); left; reflexivity).
    assert (Hxin : In x (y :: l2))
      by (apply (Permutation_in x Hp); left; reflexivity).
    assert (Hxy : y = x).
    { destruct Hyin as [Heq | Hyin]; [auto |]. exfalso.
      assert (Hle1 : key x <= key y)
        by (rewrite Forall_forall in Hx; apply Hx, list_elem_of_In, Hyin).
      assert (Hle2 : key y <= key x).
      { destruct Hxin as [<- | Hxin]; [lia |].
        rewrite Forall_forall in Hy. apply Hy, list_elem_of_In, Hxin. }
      apply Hnotin. replace (key x) with (key y) by lia.
      apply list_elem_of_In, in_map, Hyin. }
    subst y. f_equal. apply IH; try assumption.
    apply Permutation_cons_inv in Hp. exact Hp.
Qed.

Lemma sortBy_perm (l1 l2 : list A) :
  Permutation l1 l2 -> NoDup (List.map key l1) ->
  Sort.sortBy less l1 = Sort.sortBy less l2.
Proof.
  intros Hp Hnd. apply sorted_unique.
  - apply (sortBy_sorted key).
  - apply (sortBy_sorted key).
  - transitivity l1; [apply (sortBy_Permutation key) |].
    transitivity l2; [exact Hp | symmetry; apply (sortBy_Permutation key)].
  - assert (Hq : Permutation (List.map key (Sort.sortBy less l1)) (List.map key l1))
      by apply Permutation_map, (sortBy_Permutation key).
    rewrite Hq. exact Hnd.
Qed.

End SortUnique.

Lemma NewReader_readers w e :
  segmentReaders (NewReader w e)
  = Sort.sortBy (fun a b => id (srSegment a) <? id (srSegment b))
      (List.map (fun seg => SegmentReader.NewReader seg e)
         (List.map snd (map_to_list (olderSegments w)))
       ++ [SegmentReader.NewReader (activeSegment w) e]).
Proof.
  unfold NewReader, NewReaderWithMax. cbn [segmentReaders].
  assert (Hall : forall l : list segment,
            List.filter (fun seg => (0 =? 0) || (id seg <=? 0)) l = l)
    by (induction l as [| s l IH]; [reflexivity |];
        change (s :: List.filter (fun seg => (0 =? 0) || (id seg <=? 0)) l = s :: l);
        rewrite IH; reflexivity).
  rewrite Hall. reflexivity.
Qed.

Lemma ahead_NewReader w e :
  ahead (NewReader w e)
  = flat_map (fun sr => List.map (fun r => (id (srSegment sr), rec_data r))
                          (srPending sr))
      (Sort.sortBy (fun a b => id (srSegment a) <? id (srSegment b))
         (List.map (fun seg => SegmentReader.NewReader seg e)
            (List.map snd (map_to_list (olderSegments w)))
          ++ [SegmentReader.NewReader (activeSegment w) e])).
Proof. unfold ahead. rewrite NewReader_readers. reflexivity. Qed.

Lemma flat_map_single {A B} (f : A -> list B) (x : A) : flat_map f [x] = f x.
Proof. simpl. apply app_nil_r. Qed.

Lemma place_rec_data seg data :
  rec_data (snd (fst (Segment.place seg data))) = data.
Proof.
  unfold Segment.place.
  destruct (Segment.layout _ _) as [[[[adv0 off] adv] bs'] size].
  destruct (Segment.next_cursor _ _). reflexivity.
Qed.

(** The readers of the older segments, below the active one and
    with keys that differ. *)
Lemma older_readers w e :
  segmentsInOrder w ->
  let older := List.map (fun seg => SegmentReader.NewReader seg e)
                 (List.map snd (map_to_list (olderSegments w))) in
  Forall (fun sr => id (srSegment sr) < id (activeSegment w)) older
  /\ NoDup (List.map (fun sr => id (srSegment sr)) older).
Proof.
  intros [_ Hord]. cbv zeta. split.
  - apply Forall_forall. intros sr Hin.
    apply list_elem_of_In, in_map_iff in Hin as (seg & <- & Hin).
    apply in_map_iff in Hin as ([k seg'] & <- & Hin).
    apply list_elem_of_In, elem_of_map_to_list in Hin.
    destruct (Hord _ _ Hin) as [Hid Hlt]. simpl. lia.
  - rewrite !map_map.
    rewrite (map_ext_in _ fst); [apply (NoDup_fst_map_to_list (olderSegments w)) |].
    intros [k seg] Hin. apply list_elem_of_In, elem_of_map_to_list in Hin.
    destruct (Hord _ _ Hin) as [Hid _]. exact Hid.
Qed.

(** Readers over segments whose files are the same. *)
Lemma same_readers (segs : list segment) e e' :
  (forall seg, In seg segs -> file_of (id seg) e' = file_of (id seg) e) ->
  List.map (fun seg => SegmentReader.NewReader seg e') segs
  = List.map (fun seg => SegmentReader.NewReader seg e) segs.
Proof.
  intros H. apply map_ext_in. intros seg Hin.
  unfold SegmentReader.NewReader. rewrite (H seg Hin). reflexivity.
Qed.

Section Appended.
Context (w w' : WAL) (e e' : world) (recs : list chunkRec).
Hypothesis in_order : segmentsInOrder w.

Let key (sr : segmentReader) : Z := id (srSegment sr).
Let recsOf (sr : segmentReader) : list (Z * list byte) :=
  List.map (fun r => (id (srSegment sr), rec_data r)) (srPending sr).
Let older (o : gmap Z segment) (env0 : world) : list segmentReader :=
  List.map (fun seg => SegmentReader.NewReader seg env0)
    (List.map snd (map_to_list o)).

Lemma ahead_as_sorted (w0 : WAL) (e0 : world) :
  ahead (NewReader w0 e0)
  = flat_map recsOf
      (Sort.sortBy (fun a b => key a <? key b)
         (older (olderSegments w0) e0
          ++ [SegmentReader.NewReader (activeSegment w0) e0])).
Proof. apply ahead_NewReader. Qed.

Lemma ahead_sorted :
  ahead (NewReader w e)
  = flat_map recsOf (Sort.sortBy (fun a b => key a <? key b) (older (olderSegments w) e))
    ++ List.map (fun r => (id (activeSegment w), rec_data r))
         (file_of (id (activeSegment w)) e).
Proof.
  rewrite ahead_as_sorted.
  destruct (older_readers w e in_order) as [Hbelow _].
  rewrite (sortBy_app_last key (SegmentReader.NewReader (activeSegment w) e)
             (older (olderSegments w) e) Hbelow).
  rewrite flat_map_app, flat_map_single. reflexivity.
Qed.

(** Records appended to the file of the active segment. *)
Lemma ahead_append_active :
  id (activeSegment w') = id (activeSegment w) ->
  olderSegments w' = olderSegments w ->
  (forall k, k <> id (activeSegment w) -> file_of k e' = file_of k e) ->
  file_of (id (activeSegment w)) e' = file_of (id (activeSegment w)) e ++ recs ->
  ahead (NewReader w' e')
  = ahead (NewReader w e)
    ++ List.map (fun r => (id (activeSegment w), rec_data r)) recs.
Proof.
  intros Hid Hold Hother Hnew. rewrite ahead_sorted, ahead_as_sorted.
  destruct (older_readers w e in_order) as [Hbelow _].
  destruct in_order as [_ Hord].
  assert (Holder : older (olderSegments w') e' = older (olderSegments w) e).
  { rewrite Hold. apply same_readers. intros seg Hin.
    apply in_map_iff in Hin as ([k seg'] & <- & Hin).
    apply list_elem_of_In, elem_of_map_to_list in Hin.
    destruct (Hord _ _ Hin) as [Hk Hlt]. simpl. apply Hother. lia. }
  rewrite Holder.
  assert (Hbelow' : Forall (fun sr => key sr
                              < key (SegmentReader.NewReader (activeSegment w') e'))
                      (older (olderSegments w) e))
    by (unfold key; simpl; rewrite Hid; exact Hbelow).
  rewrite (sortBy_app_last key _ _ Hbelow'), flat_map_app, flat_map_single.
  rewrite <- app_assoc. f_equal.
  unfold recsOf. simpl. rewrite Hid, Hnew, map_app. reflexivity.
Qed.

(** Records in the file of the segment that a rotation has opened. *)
Lemma ahead_append_rotated :
  id (activeSegment w') = id (activeSegment w) + 1 ->
  olderSegments w'
  = <[id (activeSegment w) := activeSegment w]> (olderSegments w) ->
  (forall k, k <= id (activeSegment w) -> file_of k e' = file_of k e) ->
  file_of (id (activeSegment w) + 1) e' = recs ->
  ahead (NewReader w' e')
  = ahead (NewReader w e)
    ++ List.map (fun r => (id (activeSegment w) + 1, rec_data r)) recs.
Proof.
  intros Hid Hold Hsame Hnew. rewrite (ahead_as_sorted w' e').
  destruct (older_readers w e in_order) as [Hbelow Hnodup].
  pose proof in_order as [_ Hord].
  assert (Hfresh : olderSegments w !! id (activeSegment w) = None).
  { destruct (olderSegments w !! id (activeSegment w)) as [s |] eqn:Hl;
      [| reflexivity].
    destruct (Hord _ _ Hl). lia. }
  assert (Hperm : Permutation (older (olderSegments w') e')
                    (older (olderSegments w) e
                     ++ [SegmentReader.NewReader (activeSegment w) e])).
  { unfold older. rewrite Hold.
    rewrite (Permutation_map _ (Permutation_map snd
               (map_to_list_insert (olderSegments w) _ (activeSegment w) Hfresh))).
    simpl. rewrite <- Permutation_cons_append.
    unfold SegmentReader.NewReader at 1. rewrite Hsame by lia.
    apply Permutation_cons; [reflexivity |].
    rewrite (same_readers _ e e'); [reflexivity |].
    intros s Hin. apply in_map_iff in Hin as ([k s'] & <- & Hin).
    apply list_elem_of_In, elem_of_map_to_list in Hin.
    destruct (Hord _ _ Hin) as [Hk Hlt]. simpl. apply Hsame. lia. }
  assert (Hbelow' : Forall (fun sr => key sr
                              < key (SegmentReader.NewReader (activeSegment w') e'))
                      (older (olderSegments w') e')).
  { rewrite Hperm. apply Forall_app. unfold key. simpl. rewrite Hid. split.
    - eapply Forall_impl; [exact Hbelow |]. simpl. intros; lia.
    - repeat constructor. simpl. lia. }
  rewrite (sortBy_app_last key _ _ Hbelow'), flat_map_app, flat_map_single.
  rewrite (sortBy_perm key _ _ Hperm).
  - rewrite <- (ahead_as_sorted w e). f_equal.
    unfold recsOf. simpl. rewrite Hid, Hnew. reflexivity.
  - rewrite (Permutation_map key Hperm).
    rewrite map_app. simpl. apply NoDup_app. split; [exact Hnodup |].
    split; [| repeat constructor; intros H; inversion H].
    intros k Hk Hin. apply list_elem_of_singleton in Hin. subst k.
    apply list_elem_of_In, in_map_iff in Hk as (sr & Hkey & Hin).
    rewrite Forall_forall in Hbelow.
    specialize (Hbelow sr (proj2 (list_elem_of_In _ _) Hin)).
    unfold key in Hkey. simpl in Hkey. lia.
Qed.

End Appended.

(** X21.  A successful [Write] adds its payload, and nothing else, at
    the end of what a new reader sees.  With the segments in order (the
    active one above the older ones, each older one under its id), the
    id of the active segment below the largest [uint32] (so that the
    next id does not wrap to 0) and no file yet for the next id when
    the call rotates: the records ahead of [NewReader] after the call
    are those ahead of it before, followed by the payload under the
    segment id of the returned position. *)
Theorem Write_appends_for_readers
    (data : list byte) (m m' : machine) (pos : ChunkPosition) :
  segmentsInOrder (wal m) ->
  id (activeSegment (wal m)) < max_uint32 ->
  (isFull (wal m) (len64 data) = true ->
   file_of (id (activeSegment (wal m)) + 1) (env m) = []) ->
  Write data m = (Ok pos, m') ->
  ahead (NewReader (wal m') (env m'))
  = ahead (NewReader (wal m) (env m)) ++ [(SegmentId pos, data)].
Proof.
  intros Hord Hmax Hfile Hw.
  pose proof (Write_Ok _ _ _ _ Hw) as (m1 & Hrot & Hpos & Hact & Hold).
  pose proof (Write_Ok_files _ _ _ _ Hw) as (m1' & Hrot' & _ & Hfiles).
  assert (m1' = m1) by (destruct (isFull (wal m) (len64 data)); congruence).
  subst m1'. clear Hrot'.
  assert (Hsid : SegmentId pos = id (activeSegment (wal m1)))
    by (rewrite Hpos; apply place_position).
  assert (Hid' : id (activeSegment (wal m')) = id (activeSegment (wal m1)))
    by (rewrite Hact; apply place_id).
  destruct (isFull (wal m) (len64 data)) eqn:Hfull.
  - pose proof (rotateActiveSegment_files _ _ _ Hrot) as [_ Hsame].
    apply rotateActiveSegment_Ok in Hrot as (seg & w1 & Hm1 & Hid & _).
    destruct Hord as [Hpos0 Hord'].
    rewrite wrap32_small in Hid by (unfold max_uint32 in *; lia).
    assert (Ha1 : id (activeSegment (wal m1)) = id (activeSegment (wal m)) + 1)
      by (rewrite Hm1; exact Hid).
    replace [(SegmentId pos, data)]
      with (List.map (fun r => (id (activeSegment (wal m)) + 1, rec_data r))
              [snd (fst (Segment.place (activeSegment (wal m1)) data))])
      by (simpl; rewrite place_rec_data, Hsid, Ha1; reflexivity).
    apply (ahead_append_rotated (wal m) (wal m') (env m) (env m')
             [snd (fst (Segment.place (activeSegment (wal m1)) data))]
             (conj Hpos0 Hord')).
    + congruence.
    + rewrite Hold, Hm1. reflexivity.
    + intros k Hk. unfold file_of at 1.
      rewrite Hfiles, lookup_insert_ne by lia. apply Hsame.
    + unfold file_of at 1. rewrite Hfiles, <- Ha1, lookup_insert_eq. simpl.
      rewrite Ha1, Hsame, Hfile by reflexivity. reflexivity.
  - subst m1.
    replace [(SegmentId pos, data)]
      with (List.map (fun r => (id (activeSegment (wal m)), rec_data r))
              [snd (fst (Segment.place (activeSegment (wal m)) data))])
      by (simpl; rewrite place_rec_data, Hsid; reflexivity).
    apply (ahead_append_active (wal m) (wal m') (env m) (env m')
             [snd (fst (Segment.place (activeSegment (wal m)) data))] Hord).
    + exact Hid'.
    + exact Hold.
    + intros k Hk. unfold file_of at 1.
      rewrite Hfiles, lookup_insert_ne by congruence. reflexivity.
    + unfold file_of at 1. rewrite Hfiles, lookup_insert_eq. reflexivity.
Qed.

Lemma Write_appends_for_readers_witness :
  exists pos m',
    Write (Demo.payload 60) (Demo.exec (Write (Demo.payload 50)) (Demo.fresh Demo.opts))
    = (Ok pos, m')
    /\ ahead (NewReader (wal m') (env m'))
       = [(1, Demo.payload 50); (2, Demo.payload 60)].
Proof.
  eexists. eexists. split; [vm_compute; reflexivity |].
  assert (Hord : segmentsInOrder
            (wal (Demo.exec (Write (Demo.payload 50)) (Demo.fresh Demo.opts)))).
  { split; [vm_compute; discriminate |].
    intros k seg H. vm_compute in H. discriminate. }
  by_instance
    (Write_appends_for_readers (Demo.payload 60)
       (Demo.exec (Write (Demo.payload 50)) (Demo.fresh Demo.opts)) _ _
       Hord ltac:(vm_compute; reflexivity)
       ltac:(intros _; vm_compute; reflexivity)
       ltac:(vm_compute; reflexivity)).
Defined.

Lemma place_all_rec_data datas : forall seg,
  List.map rec_data (snd (fst (Segment.place_all seg datas))) = datas.
Proof.
  induction datas as [| d ds IH]; intros seg; simpl; [reflexivity |].
  pose proof (place_rec_data seg d) as Hd.
  destruct (Segment.place seg d) as [[pos rec] seg1].
  specialize (IH seg1).
  destruct (Segment.place_all seg1 ds) as [[ps recs] seg2]. simpl in *.
  congruence.
Qed.

Lemma Segment_writeAll_files seg datas w r w' :
  Segment.writeAll seg datas w = (Ok r, w') ->
  seg_files w'
  = <[id seg := file_of (id seg) w ++ snd (fst (Segment.place_all seg datas))]>
      (seg_files w).
Proof.
  unfold Segment.writeAll. destruct (closed seg); [discriminate |].
  destruct (take_fault w) as [failed w1] eqn:Hf.
  destruct failed; [discriminate |].
  destruct (Segment.place_all seg datas) as [[ps recs] seg1].
  intros H. inversion H; subst. simpl.
  apply take_fault_frame in Hf as (_ & Hs & _).
  unfold file_of. rewrite Hs. reflexivity.
Qed.

(** A successful [WriteAll] of a staged batch, step by step. *)
Lemma WriteAll_Ok_files m ps m' :
  pendingWrites (wal m) <> [] ->
  WriteAll m = (Ok ps, m') ->
  exists m1,
    (if SegmentSize (options (wal m))
        <? wrap64 (Segment.Size (activeSegment (wal m)) + pendingSize (wal m))
     then rotateActiveSegment m = (Ok tt, m1) else m1 = m)
    /\ id (activeSegment (wal m')) = id (activeSegment (wal m1))
    /\ olderSegments (wal m') = olderSegments (wal m1)
    /\ seg_files (env m')
       = <[id (activeSegment (wal m1)) :=
             file_of (id (activeSegment (wal m1))) (env m1)
             ++ snd (fst (Segment.place_all (activeSegment (wal m1))
                            (pendingWrites (wal m))))]>
           (seg_files (env m1)).
Proof.
  intros Hne. unfold WriteAll. rewrite bind_get_wal.
  destruct (pendingWrites (wal m)) as [| d ds] eqn:Hp; [congruence |].
  change ((length (d :: ds) =? 0)%nat) with false. cbv iota. rewrite defer_eq.
  match goal with
  | |- (fst (?body m), _) = _ -> _ => destruct (body m) as [r m1] eqn:Hbody
  end.
  cbn [fst snd]. intros H.
  assert (Hr : r = Ok ps
               /\ activeSegment (wal m') = activeSegment (wal m1)
               /\ olderSegments (wal m') = olderSegments (wal m1)
               /\ env m' = env m1)
    by (inversion H; auto).
  destruct Hr as (-> & Hact & Hold & Henv). clear H.
  rewrite bind_get_wal in Hbody.
  destruct (SegmentSize (options (wal m)) <? pendingSize (wal m)); [discriminate |].
  apply bind_Ok in Hbody as (u & m2 & Hrot & Hbody).
  rewrite bind_get_wal in Hbody.
  apply bind_Ok in Hbody as (r & m3 & Hw & Hbody).
  apply io_Ok in Hw as (w3 & Hw & ->).
  pose proof (Segment_writeAll_files _ _ _ _ _ Hw) as Hfiles.
  apply Segment_writeAll_positions in Hw. subst r.
  rewrite bind_update_wal in Hbody. cbn [fst snd wal env] in Hbody.
  assert (Hm1 : activeSegment (wal m1)
                = snd (Segment.place_all (activeSegment (wal m2))
                         (pendingWrites (wal m2)))
                /\ olderSegments (wal m1) = olderSegments (wal m2)
                /\ env m1 = w3)
    by (inversion Hbody; auto).
  destruct Hm1 as (Hact1 & Hold1 & Henv1).
  assert (Hpend : pendingWrites (wal m2) = d :: ds).
  { apply when_Ok in Hrot.
    match type of Hrot with
    | if ?b then _ else _ => destruct b
    end.
    - apply rotateActiveSegment_Ok in Hrot as (seg & w' & -> & _). simpl.
      exact Hp.
    - subst m2. exact Hp. }
  exists m2. split.
  { apply when_Ok in Hrot.
    match type of Hrot with
    | if ?b then _ else _ => destruct b
    end; [destruct u |]; exact Hrot. }
  rewrite Hact, Hact1, place_all_id, Hold, Hold1, Henv, Henv1, Hfiles, Hpend.
  auto.
Qed.

(** X22.  A successful [WriteAll] adds the staged payloads, in their
    order and nothing else, at the end of what a new reader sees.
    With the segments in order (the active one above the older ones,
    each older one under its id), the id of the active segment below
    the largest [uint32] and no file yet for the next id when the call
    rotates: the records ahead of [NewReader] after the call are those
    ahead of it before, followed by the staged payloads, all of them
    under the id of the segment that is active after the call. *)
Theorem WriteAll_appends_for_readers
    (m m' : machine) (ps : list ChunkPosition) :
  segmentsInOrder (wal m) ->
  id (activeSegment (wal m)) < max_uint32 ->
  ((SegmentSize (options (wal m))
    <? wrap64 (Segment.Size (activeSegment (wal m)) + pendingSize (wal m)))
   = true ->
   file_of (id (activeSegment (wal m)) + 1) (env m) = []) ->
  pendingWrites (wal m) <> [] ->
  WriteAll m = (Ok ps, m') ->
  ahead (NewReader (wal m') (env m'))
  = ahead (NewReader (wal m) (env m))
    ++ List.map (fun data => (id (activeSegment (wal m')), data))
         (pendingWrites (wal m)).
Proof.
  intros Hord Hmax Hfile Hne Hw.
  destruct (WriteAll_Ok_files _ _ _ Hne Hw) as (m1 & Hrot & Hid' & Hold & Hfiles).
  set (recs := snd (fst (Segment.place_all (activeSegment (wal m1))
                           (pendingWrites (wal m))))) in *.
  assert (Hdatas : forall sid : Z,
            List.map (fun data => (sid, data)) (pendingWrites (wal m))
            = List.map (fun r : chunkRec => (sid, rec_data r)) recs).
  { intros sid. unfold recs.
    rewrite <- (place_all_rec_data (pendingWrites (wal m))
                  (activeSegment (wal m1))) at 1.
    rewrite map_map. reflexivity. }
  rewrite Hdatas.
  destruct (SegmentSize (options (wal m))
            <? wrap64 (Segment.Size (activeSegment (wal m)) + pendingSize (wal m)))
    eqn:Hfull.
  - pose proof (rotateActiveSegment_files _ _ _ Hrot) as [_ Hsame].
    apply rotateActiveSegment_Ok in Hrot as (seg & w1 & Hm1 & Hid & _).
    pose proof Hord as [Hpos0 _].
    rewrite wrap32_small in Hid by (unfold max_uint32 in *; lia).
    assert (Ha1 : id (activeSegment (wal m1)) = id (activeSegment (wal m)) + 1)
      by (rewrite Hm1; exact Hid).
    rewrite Hid', Ha1.
    apply (ahead_append_rotated (wal m) (wal m') (env m) (env m') recs Hord).
    + congruence.
    + rewrite Hold, Hm1. reflexivity.
    + intros k Hk. unfold file_of at 1.
      rewrite Hfiles, lookup_insert_ne by lia. apply Hsame.
    + unfold file_of at 1. rewrite Hfiles, <- Ha1, lookup_insert_eq. simpl.
      rewrite Ha1, Hsame, Hfile by reflexivity. reflexivity.
  - subst m1. rewrite Hid'.
    apply (ahead_append_active (wal m) (wal m') (env m) (env m') recs Hord).
    + exact Hid'.
    + exact Hold.
    + intros k Hk. unfold file_of at 1.
      rewrite Hfiles, lookup_insert_ne by congruence. reflexivity.
    + unfold file_of at 1. rewrite Hfiles, lookup_insert_eq. reflexivity.
Qed.

Lemma WriteAll_appends_for_readers_witness :
  exists ps m',
    WriteAll (Demo.exec (PendingWrites (Demo.payload 3)) (Demo.staged Demo.opts 10))
    = (Ok ps, m')
    /\ ahead (NewReader (wal m') (env m'))
       = [(1, Demo.payload 10); (1, Demo.payload 3)].
Proof.
  eexists. eexists. split; [vm_compute; reflexivity |].
  assert (Hord : segmentsInOrder
            (wal (Demo.exec (PendingWrites (Demo.payload 3))
                    (Demo.staged Demo.opts 10)))).
  { split; [vm_compute; discriminate |].
    intros k seg H. vm_compute in H. discriminate. }
  by_instance
    (WriteAll_appends_for_readers
       (Demo.exec (PendingWrites (Demo.payload 3)) (Demo.staged Demo.opts 10)) _ _
       Hord ltac:(vm_compute; reflexivity)
       ltac:(intros H; vm_compute in H; discriminate)
       ltac:(vm_compute; discriminate)
       ltac:(vm_compute; reflexivity)).
Defined.
